(** * CompareBLASTs: reconciliation of two BLAST hit lists

    A shallow embedding of [main.py] (class [CompareBLASTs], function
    [perform_comparison]) together with the properties of its
    classification engine.

    Python objects are modelled with an explicit store: a hit is a
    reference (its object identity); the immutable part of a hit (query
    name, identifiers, alignment columns) is read through [heap], the
    mutable [status] attribute lives in a finite map keyed by reference.
    Lists of hits are lists of references, so that a status written through
    one bucket is seen through every other bucket holding the same hit.
    Exceptions are modelled with the [result] type. *)

From stdpp Require Import base option list gmap strings fin_maps pretty.
From Stdlib Require Import ZArith Lia Ascii.

Local Open Scope string_scope.
Local Open Scope Z_scope.
Local Open Scope nat_scope.
Local Open Scope list_scope.

(** ** Exceptions *)

Inductive exn : Type :=
  | KeyError
  | IndexError
  | ValueError
  | NameError
  | AssertionError
  | ServiceError.

Inductive result (A : Type) : Type :=
  | Ok (a : A)
  | Raise (e : exn).
Arguments Ok {A} a.
Arguments Raise {A} e.

Global Instance result_ret : MRet result := λ A a, Ok a.
Global Instance result_bind : MBind result := λ A B f m,
  match m with
  | Ok a => f a
  | Raise e => Raise e
  end.

Definition is_Ok {A} (r : result A) : Prop := ∃ a, r = Ok a.

(** [for x in l: body] with a state threaded through the iterations; an
    exception in the body leaves the loop. *)
Fixpoint for_each {S A : Type} (body : A → S → result S) (l : list A) (s : S)
  : result S :=
  match l with
  | [] => Ok s
  | x :: rest => s' ← body x s; for_each body rest s'
  end.

(** [d[k]] on a dictionary. *)
Definition dict_get {V : Type} (d : gmap string V) (k : string) : result V :=
  match d !! k with
  | Some v => Ok v
  | None => Raise KeyError
  end.

(** [l[i]] on a list, [i >= 0]. *)
Definition list_get {A : Type} (l : list A) (i : nat) : result A :=
  match l !! i with
  | Some x => Ok x
  | None => Raise IndexError
  end.

(** [l.pop(i)], [i >= 0]: the element at [i] and the list without it. *)
Definition pop {A : Type} (i : nat) (l : list A) : result (A * list A) :=
  match l !! i with
  | Some x => Ok (x, delete i l)
  | None => Raise IndexError
  end.

(** ** Data model *)

(** One identifier of a hit: [ID.db], [ID.num]. *)
Record ID : Type := mkID { db : string; num : string }.

(** The immutable part of a [BlastHit]: [hit.name], [hit.ids] and the
    alignment columns of the tabular line. *)
Record BlastHit : Type := mkBlastHit {
  name : string;
  ids : list ID;
  columns : list string
}.

(** A record of the directory service, as the dictionaries the code
    indexes with ['Status'], ['ReplacedBy'] and ['CreateDate']; the key
    ['ReplacedBy'] may be missing. *)
Record DirectoryRecord : Type := mkDirectoryRecord {
  Status : string;
  ReplacedBy : option string;
  CreateDate : string
}.

(** [time.struct_time]: a tuple of integers, compared as Python compares
    tuples (lexicographically, a proper prefix being smaller). *)
Definition struct_time : Type := list Z.

Fixpoint tuple_ltb (a b : struct_time) : bool :=
  match a, b with
  | [], [] => false
  | [], _ :: _ => true
  | _ :: _, [] => false
  | x :: a', y :: b' =>
      if (x <? y)%Z then true
      else if (y <? x)%Z then false
      else tuple_ltb a' b'
  end.

(** [max(l)]: the first of the largest elements; [ValueError] on [[]]. *)
Fixpoint max_from (cur : struct_time) (l : list struct_time) : struct_time :=
  match l with
  | [] => cur
  | x :: rest => max_from (if tuple_ltb cur x then x else cur) rest
  end.

Definition py_max (l : list struct_time) : result struct_time :=
  match l with
  | [] => Raise ValueError
  | x :: rest => Ok (max_from x rest)
  end.

(** The mutable part of the hits: the [status] attribute of every object,
    with the sequence of assignments [hit.status = s] performed so far. *)
Record Heap : Type := mkHeap {
  status : gmap nat string;
  status_writes : list (nat * string)
}.

(** [hit.status = s] *)
Definition set_status (hit : nat) (s : string) (h : Heap) : Heap :=
  {| status := <[hit := s]> (status h);
     status_writes := status_writes h ++ [(hit, s)] |}.

(** The three verdicts of the pairwise comparison used by the matcher. *)
Inductive Verdict : Type := Same | Similar | NoRelation.

Global Instance Verdict_eq_dec : EqDecision Verdict.
Proof. solve_decision. Defined.

(** What the engine takes from outside [main.py]: the objects it is given,
    the comparison of two hits (module [blast_hit]), the directory service
    behind [get_idlist] and the library function [time.strptime]. *)
Record Collaborators : Type := mkCollaborators {
  (** the immutable fields of the object behind a reference *)
  heap : nat → BlastHit;
  (** the identity-aware comparison the matcher applies to two hits *)
  hit_comparator : BlastHit → BlastHit → Verdict;
  (** [hit.compare_hit(hit2, check_ids)], returning [(same, differences)] *)
  compare_hit : BlastHit → BlastHit → bool → bool * list string;
  (** the batched directory lookup, given the caller's email and the
      identifiers; it may fail *)
  lookupBatch : string → list string → result (gmap string DirectoryRecord);
  (** [strptime(s, '%Y/%m/%d')]; [None] stands for its [ValueError] *)
  strptime : string → string → option struct_time
}.

(** The dictionaries [compare_blasts] returns: keys ['all'], ['unknown'],
    ['same'], ['similar']. *)
Record Partition : Type := mkPartition {
  p_all : list nat;
  p_unknown : list nat;
  p_same : list nat;
  p_similar : list nat
}.

(** [self.old_hits] when [compare] returns. *)
Record OldHits : Type := mkOldHits {
  old_all : list nat;
  old_unknown : list nat;
  old_same : list nat;
  old_similar : list nat;
  old_lost : list nat;
  old_suppressed : list nat;
  old_replacement : list nat
}.

(** [self.new_hits] when [compare] returns. *)
Record NewHits : Type := mkNewHits {
  new_all : list nat;
  new_unknown : list nat;
  new_same : list nat;
  new_similar : list nat;
  new_replacement : list nat;
  new_new : list nat;
  new_old : list nat
}.

(** The attributes [__init__] sets. *)
Record CompareBLASTs : Type := mkCompareBLASTs {
  input_old_hits : list nat;
  input_new_hits : list nat;
  email : string;
  query_name : string
}.

(** The object after [compare]: the attributes it adds, the store, and the
    arguments of the calls of [get_idlist], in order. *)
Record Compared : Type := mkCompared {
  new_hits : NewHits;
  old_hits : OldHits;
  oldGeneIDs : gmap string DirectoryRecord;
  newGeneIDs : gmap string DirectoryRecord;
  date_oldsearch : struct_time;
  store : Heap;
  resolver_calls : list (list nat)
}.

(** [oldOnly = {'live': [], 'replaced': [], 'suppressed': []}] *)
Record OldOnly : Type := mkOldOnly {
  live : list nat;
  replaced : list nat;
  suppressed : list nat
}.

(** The variables the replacement loop (lines 101-121) reads and writes. *)
Record LinkState : Type := mkLinkState {
  new_id : option string;
  l_unknown : list nat;
  l_new_replacement : list nat;
  l_old_replacement : list nat;
  l_lost : list nat;
  l_heap : Heap
}.

(** The variables the recency loop (lines 138-145) writes. *)
Record RecencyState : Type := mkRecencyState {
  r_new : list nat;
  r_old : list nat;
  r_heap : Heap
}.

Section Engine.

Context (E : Collaborators).

(** *** The matcher and the resolver (module [blast_hit]) *)

(** Modelled from the spec: [compare_blasts] of module [blast_hit], which
    is not part of the sources at hand.  Section 4.1: it partitions each
    side into [all] (the input as given), [unknown] (records with no
    equivalent counterpart on the other side), [same] and [similar]; when
    several candidates of the other side qualify, the first in input order
    decides; no record is mutated. *)
Definition first_match (hit : nat) (others : list nat) : Verdict :=
  match
    find (λ o, bool_decide
                 (hit_comparator E (heap E hit) (heap E o) ≠ NoRelation))
         others
  with
  | Some o => hit_comparator E (heap E hit) (heap E o)
  | None => NoRelation
  end.

Definition partition_side (mine others : list nat) : Partition :=
  {| p_all := mine;
     p_unknown := filter (λ h, first_match h others = NoRelation) mine;
     p_same := filter (λ h, first_match h others = Same) mine;
     p_similar := filter (λ h, first_match h others = Similar) mine |}.

Definition compare_blasts (new old : list nat) : Partition * Partition :=
  (partition_side new old, partition_side old new).

(** Modelled from the spec: [get_idlist] of module [blast_hit], which is
    not part of the sources at hand.  Section 4.2: it extracts from each
    record the identifier under the canonical namespace ['gi'], skipping
    the records that have none, removes duplicates and issues one batched
    lookup, whose mapping it returns. *)
Definition canonical_id (h : BlastHit) : option string :=
  num <$> find (λ i, bool_decide (db i = "gi")) (ids h).

Definition get_idlist (hits : list nat) (email : string)
  : result (gmap string DirectoryRecord) :=
  lookupBatch E email (remove_dups (omap (λ r, canonical_id (heap E r)) hits)).

(** A call [get_idlist(hits, self.email)] made by [compare]: the argument
    is appended to the record of the calls made so far. *)
Definition call_get_idlist (hits : list nat) (email : string)
    (calls : list (list nat))
  : result (gmap string DirectoryRecord * list (list nat)) :=
  genes ← get_idlist hits email;
  Ok (genes, calls ++ [hits]).

(** *** [compare], lines 83-92: the fate of the unmatched old hits *)

(** [oldOnly[key].append(hit)] *)
Definition oldOnly_append (key : string) (hit : nat) (o : OldOnly)
  : result OldOnly :=
  if decide (key = "live") then
    Ok {| live := live o ++ [hit]; replaced := replaced o;
          suppressed := suppressed o |}
  else if decide (key = "replaced") then
    Ok {| live := live o; replaced := replaced o ++ [hit];
          suppressed := suppressed o |}
  else if decide (key = "suppressed") then
    Ok {| live := live o; replaced := replaced o;
          suppressed := suppressed o ++ [hit] |}
  else Raise KeyError.

(** [for ID in hit.ids: if ID.db == 'gi': ...; break] *)
Fixpoint classify_ids (genes : gmap string DirectoryRecord) (hit : nat)
    (l : list ID) (s : OldOnly * Heap) : result (OldOnly * Heap) :=
  match l with
  | [] => Ok s
  | i :: rest =>
      if decide (db i = "gi") then
        rec ← dict_get genes (num i);
        o ← oldOnly_append (Status rec) hit (fst s);
        Ok (o, set_status hit (Status rec) (snd s))
      else classify_ids genes hit rest s
  end.

Definition classify_old (genes : gmap string DirectoryRecord) (hit : nat)
    (s : OldOnly * Heap) : result (OldOnly * Heap) :=
  classify_ids genes hit (ids (heap E hit)) s.

(** *** [compare], lines 101-121: linking replaced hits to their replacement *)

(** [for ID in hit.ids: if ID.db == 'gi': new_id = ...['ReplacedBy']]
    (no [break]: the last ['gi'] identifier decides). *)
Fixpoint bind_new_id (genes : gmap string DirectoryRecord) (l : list ID)
    (cur : option string) : result (option string) :=
  match l with
  | [] => Ok cur
  | i :: rest =>
      if decide (db i = "gi") then
        rec ← dict_get genes (num i);
        match ReplacedBy rec with
        | Some v => bind_new_id genes rest (Some v)
        | None => Raise KeyError
        end
      else bind_new_id genes rest cur
  end.

(** [for num2, hit2 in enumerate(self.new_hits['unknown'])]: the position
    of the first hit that carries [new_id] and that [compare_hit] accepts,
    comparing attributes only; [new_id] unbound is a [NameError] when it is
    first read. *)
Fixpoint scan_unknown (hit : nat) (nid : option string) (unknown : list nat)
    (num2 : nat) : result (option nat) :=
  match unknown with
  | [] => Ok None
  | hit2 :: rest =>
      match nid with
      | None => Raise NameError
      | Some v =>
          if decide (v ∈ num <$> ids (heap E hit2)) then
            if fst (compare_hit E (heap E hit) (heap E hit2) false)
            then Ok (Some num2)
            else scan_unknown hit nid rest (S num2)
          else scan_unknown hit nid rest (S num2)
      end
  end.

Definition link_step (genes : gmap string DirectoryRecord) (hit : nat)
    (s : LinkState) : result LinkState :=
  nid ← bind_new_id genes (ids (heap E hit)) (new_id s);
  found ← scan_unknown hit nid (l_unknown s) 0;
  match found with
  | Some num2 =>
      p ← pop num2 (l_unknown s);
      Ok {| new_id := nid;
            l_unknown := snd p;
            l_new_replacement := l_new_replacement s ++ [fst p];
            l_old_replacement := l_old_replacement s ++ [hit];
            l_lost := l_lost s;
            l_heap := set_status (fst p) "replacement" (l_heap s) |}
  | None =>
      Ok {| new_id := nid;
            l_unknown := l_unknown s;
            l_new_replacement := l_new_replacement s;
            l_old_replacement := l_old_replacement s;
            l_lost := l_lost s ++ [hit];
            l_heap := set_status hit "live" (l_heap s) |}
  end.

(** *** [compare], lines 130-145: the baseline date and the recency loop *)

Definition parse_date (s : string) : result struct_time :=
  match strptime E s "%Y/%m/%d" with
  | Some t => Ok t
  | None => Raise ValueError
  end.

(** [[strptime(record['CreateDate'], ...) for record in genes.values()]] *)
Fixpoint parse_dates (l : list DirectoryRecord) : result (list struct_time) :=
  match l with
  | [] => Ok []
  | rec :: rest =>
      t ← parse_date (CreateDate rec);
      ts ← parse_dates rest;
      Ok (t :: ts)
  end.

Definition values (genes : gmap string DirectoryRecord) : list DirectoryRecord :=
  snd <$> map_to_list genes.

Definition baseline (genes : gmap string DirectoryRecord) : result struct_time :=
  ts ← parse_dates (values genes);
  py_max ts.

Definition recency_step (genes : gmap string DirectoryRecord)
    (date : struct_time) (hit : nat) (s : RecencyState) : result RecencyState :=
  id0 ← list_get (ids (heap E hit)) 0;
  rec ← dict_get genes (num id0);
  t ← parse_date (CreateDate rec);
  if tuple_ltb t date then
    Ok {| r_new := r_new s; r_old := r_old s ++ [hit];
          r_heap := set_status hit "strange" (r_heap s) |}
  else
    Ok {| r_new := r_new s ++ [hit]; r_old := r_old s;
          r_heap := set_status hit "new" (r_heap s) |}.

(** *** [CompareBLASTs.compare] *)

Definition empty_oldOnly : OldOnly :=
  {| live := []; replaced := []; suppressed := [] |}.

Definition init_link (new_p : Partition) (o : OldOnly) (h : Heap) : LinkState :=
  {| new_id := None;
     l_unknown := p_unknown new_p;
     l_new_replacement := [];
     l_old_replacement := [];
     l_lost := live o;
     l_heap := h |}.

Definition compare (self : CompareBLASTs) (h0 : Heap) : result Compared :=
  let new_p := fst (compare_blasts (input_new_hits self) (input_old_hits self)) in
  let old_p := snd (compare_blasts (input_new_hits self) (input_old_hits self)) in
  gc ← call_get_idlist (p_all old_p) (email self) [];
  let genes := fst gc in
  oh ← for_each (classify_old genes) (p_unknown old_p) (empty_oldOnly, h0);
  ls ← for_each (link_step genes) (replaced (fst oh))
                (init_link new_p (fst oh) (snd oh));
  gc' ← call_get_idlist (l_unknown ls) (email self) (snd gc);
  let genes' := fst gc' in
  date ← baseline genes;
  rs ← for_each (recency_step genes' date) (l_unknown ls)
                {| r_new := []; r_old := []; r_heap := l_heap ls |};
  Ok {| new_hits :=
          {| new_all := p_all new_p;
             new_unknown := l_unknown ls;
             new_same := p_same new_p;
             new_similar := p_similar new_p;
             new_replacement := l_new_replacement ls;
             new_new := r_new rs;
             new_old := r_old rs |};
        old_hits :=
          {| old_all := p_all old_p;
             old_unknown := p_unknown old_p;
             old_same := p_same old_p;
             old_similar := p_similar old_p;
             old_lost := l_lost ls;
             old_suppressed := suppressed (fst oh);
             old_replacement := l_old_replacement ls |};
        oldGeneIDs := genes;
        newGeneIDs := genes';
        date_oldsearch := date;
        store := r_heap rs;
        resolver_calls := snd gc' |}.

End Engine.

(** ** [output_comparison] and [export_hit_categories] *)

Definition tab : string := String (Ascii.ascii_of_nat 9) EmptyString.
Definition newline : string := String (Ascii.ascii_of_nat 10) EmptyString.

(** [l[:n]] for any integer [n]; a negative [n] counts from the end. *)
Definition slice_to {A : Type} (l : list A) (n : Z) : list A :=
  if (0 <=? n)%Z then take (Z.to_nat n) l
  else take (length l - Z.to_nat (- n)) l.

Definition categories : list string :=
  ["equal"; "similar"; "live"; "replaced"; "suppressed"; "new"; "strange"].

(** [hits_per_category = {'equal': 0, ..., 'strange': 0}] *)
Definition hits_per_category0 : gmap string nat :=
  list_to_map ((λ k, (k, 0)) <$> categories).

(** [hits_per_category[hit.status] += 1]; an unset status is no key. *)
Definition increment (st : option string) (m : gmap string nat)
  : result (gmap string nat) :=
  match st with
  | None => Raise KeyError
  | Some k => n ← dict_get m k; Ok (<[k := S n]> m)
  end.

Definition count_old (h : Heap) (hit : nat) (m : gmap string nat)
  : result (gmap string nat) :=
  increment (status h !! hit) m.

Definition count_new (h : Heap) (hit : nat) (m : gmap string nat)
  : result (gmap string nat) :=
  match status h !! hit with
  | Some s =>
      if decide (s ∈ ["new"; "strange"]) then increment (Some s) m else Ok m
  | None => Ok m
  end.

Definition top_old (c : Compared) (top : Z) : Z :=
  if (top =? 0)%Z then Z.of_nat (length (old_all (old_hits c)))
  else Z.min top (Z.of_nat (length (old_all (old_hits c)))).

Definition top_new (c : Compared) (top : Z) : Z :=
  if (top =? 0)%Z then Z.of_nat (length (new_all (new_hits c)))
  else Z.min top (Z.of_nat (length (new_all (new_hits c)))).

(** Lines 164-179: the number of hits of each category. *)
Definition tally (c : Compared) (top : Z) : result (gmap string nat) :=
  m ← for_each (count_old (store c))
               (slice_to (old_all (old_hits c)) (top_old c top))
               hits_per_category0;
  for_each (count_new (store c))
           (slice_to (new_all (new_hits c)) (top_new c top)) m.

(** An output lambda of [output_types]: [print] or a write to the file
    opened for [--save]. *)
Inductive sink : Type := Console | OutputFile.

(** What a run does to the outside, in order. *)
Inductive event : Type :=
  | EvOpen (path : string)
  | EvLine (out : sink) (line : string)
  | EvExport (path : string) (hits : list nat)
  | EvPrint (line : string)
  | EvClose.

Definition indent16 : string := "                ".

(** [category_names[key]], without the final [%i]. *)
Definition category_name (long_output : bool) (key : string) : string :=
  if long_output then
    if decide (key = "equal") then "Found in both BLASTs results:" +:+ tab
    else if decide (key = "similar") then
      "Found in both BLASTs results with slight " +:+ indent16 +:+ "changes:" +:+ tab
    else if decide (key = "live") then
      "Not showing up for unknown reasons in the second " +:+ indent16
        +:+ "BLAST (probably low scores):" +:+ tab
    else if decide (key = "replaced") then
      "Replaced/updated before the second BLAST:" +:+ tab
    else if decide (key = "suppressed") then
      "Deleted/suppressed before the second BLAST:" +:+ tab +:+ indent16
    else if decide (key = "new") then
      "New hits added to the database for the second BLAST:" +:+ tab +:+ indent16
    else
      "Hits that do only appear in the second BLAST " +:+ indent16
        +:+ "that should have appeared in the first:" +:+ tab
  else
    if decide (key = "equal") then "Equal Hits:" +:+ tab
    else if decide (key = "similar") then "Changed Hits" +:+ tab
    else if decide (key = "live") then "Lost Hits" +:+ tab
    else if decide (key = "replaced") then "Replaced Hits:" +:+ tab
    else if decide (key = "suppressed") then "Deleted Hits:" +:+ tab
    else if decide (key = "new") then "New Hits:" +:+ tab
    else "New appearing Hits:" +:+ tab.

(** The lines one output lambda receives (lines 209-233). *)
Fixpoint category_lines (long_output adaptive : bool) (m : gmap string nat)
    (keys : list string) : result (list string) :=
  match keys with
  | [] => Ok []
  | key :: rest =>
      n ← dict_get m key;
      ls ← category_lines long_output adaptive m rest;
      if negb adaptive || bool_decide (0 < n)
      then Ok ((category_name long_output key +:+ pretty n) :: ls)
      else Ok ls
  end.

Definition report_lines (self : CompareBLASTs) (c : Compared) (top : Z)
    (long_output adaptive : bool) (m : gmap string nat) : result (list string) :=
  ls ← category_lines long_output adaptive m categories;
  Ok ((if decide (query_name self = "") then []
       else ["Query:" +:+ tab +:+ query_name self])
      ++ (if long_output then
            [ "Total hits in old search:" +:+ tab
                +:+ pretty (length (old_all (old_hits c)));
              "Total hits in new search:" +:+ tab
                +:+ pretty (length (new_all (new_hits c)));
              if bool_decide (top_old c top ≠ Z.of_nat (length (old_all (old_hits c))))
                 && bool_decide (top_new c top ≠ Z.of_nat (length (new_all (new_hits c))))
              then "Among the top " +:+ pretty top +:+ " hits were:"
              else "From all hits were:" ]
          else [])
      ++ ls ++ [newline]).

Fixpoint for_outputs (output_types : list sink)
    (lines : result (list string)) : result (list event) :=
  match output_types with
  | [] => Ok []
  | out :: rest =>
      ls ← lines;
      evs ← for_outputs rest lines;
      Ok ((EvLine out <$> ls) ++ evs)
  end.

Definition output_comparison (self : CompareBLASTs) (c : Compared)
    (output_types : list sink) (top : Z) (long_output adaptive : bool)
  : result (list event) :=
  m ← tally c top;
  for_outputs output_types (report_lines self c top long_output adaptive m).

(** [s.split(sep)] for a separator of one character *)
Fixpoint split_char (sep : ascii) (s : string) : list string :=
  match s with
  | EmptyString => [EmptyString]
  | String a rest =>
      if decide (a = sep) then EmptyString :: split_char sep rest
      else match split_char sep rest with
           | [] => [String a EmptyString]
           | w :: ws => String a w :: ws
           end
  end.

(** [c in "-_.() " + string.ascii_letters + string.digits] *)
Definition valid_char (a : Ascii.ascii) : bool :=
  let n := Ascii.nat_of_ascii a in
  bool_decide (a ∈ ["-"; "_"; "."; "("; ")"; " "]%char)
  || (97 <=? n) && (n <=? 122)
  || (65 <=? n) && (n <=? 90)
  || (48 <=? n) && (n <=? 57).

Fixpoint valid_name (s : string) : string :=
  match s with
  | EmptyString => EmptyString
  | String a rest =>
      if valid_char a then String a (valid_name rest) else valid_name rest
  end.

(** The chain of [if category == ...: hits = ...] of lines 252-270. *)
Definition category_hits (c : Compared) (category : string)
  : option (list nat) :=
  let hits := None in
  let hits := if decide (category = "new") then Some (new_new (new_hits c)) else hits in
  let hits := if decide (category = "equal") then Some (old_same (old_hits c)) else hits in
  let hits := if decide (category = "similar") then Some (old_similar (old_hits c)) else hits in
  let hits := if decide (category = "live") then Some (old_lost (old_hits c)) else hits in
  let hits := if decide (category = "replaced") then Some (old_replacement (old_hits c)) else hits in
  let hits := if decide (category = "suppressed") then Some (old_suppressed (old_hits c)) else hits in
  let hits := if decide (category = "all_old") then Some (old_all (old_hits c)) else hits in
  let hits := if decide (category = "all_new") then Some (new_all (new_hits c)) else hits in
  let hits := if decide (category = "strange") then Some (new_old (new_hits c)) else hits in
  hits.

(** One round of the loop of [export_hit_categories]; [if hits:] fails
    for [None] and for the empty list alike. *)
Definition export_category (self : CompareBLASTs) (c : Compared)
    (path category : string) : event :=
  match category_hits c category with
  | Some (hit :: hits) =>
      EvExport (path +:+ valid_name (query_name self) +:+ "_" +:+ category
                  +:+ ".blast") (hit :: hits)
  | _ => EvPrint ("Unknown export category " +:+ category)
  end.

Definition export_hit_categories (self : CompareBLASTs) (c : Compared)
    (cats path : string) : list event :=
  export_category self c path <$> split_char "," cats.

(** ** [perform_comparison] *)

(** The options [perform_comparison] reads once the two files are loaded. *)
Record Options : Type := mkOptions {
  top : Z;
  verbose : bool;
  save_output : option string;
  output_path : string;
  long_output : bool;
  adaptive : bool;
  opt_email : string;
  export : option string
}.

(** What [perform_comparison] has done when it returns or raises. *)
Record Run : Type := mkRun {
  outcome : result unit;
  comparisons : list (string * Compared);
  events : list event
}.

(** A dictionary from query names to lists of hits, in insertion order. *)
Definition groups : Type := list (string * list nat).

(** [if k in d.keys(): d[k].append(hit) else: d[k] = [hit]] *)
Fixpoint group_add (k : string) (hit : nat) (d : groups) : groups :=
  match d with
  | [] => [(k, [hit])]
  | (k', l) :: rest =>
      if decide (k = k') then (k', l ++ [hit]) :: rest
      else (k', l) :: group_add k hit rest
  end.

Definition keys (d : groups) : list string := fst <$> d.

Fixpoint group_get (d : groups) (k : string) : result (list nat) :=
  match d with
  | [] => Raise KeyError
  | (k', l) :: rest => if decide (k = k') then Ok l else group_get rest k
  end.

(** [a.keys() == b.keys()]: key views are equal when they hold the same
    keys. *)
Definition keys_equal (a b : groups) : bool :=
  bool_decide ((list_to_set (keys a) : gset string) = list_to_set (keys b)).

(** Python's truth value of an optional string option. *)
Definition truthy (o : option string) : bool :=
  match o with
  | Some s => bool_decide (s ≠ "")
  | None => false
  end.

Section Driver.

Context (E : Collaborators).

Definition group_hits (hits : list nat) : groups :=
  fold_left (λ d hit, group_add (name (heap E hit)) hit d) hits [].

Definition output_types_of (opts : Options) : list sink :=
  (if verbose opts then [Console] else [])
  ++ (if truthy (save_output opts) then [OutputFile] else []).

(** The body of [for key in old_hits.keys()] (lines 323-333), over the
    keys left to visit. *)
Fixpoint run_queries (opts : Options) (old new : groups) (todo : list string)
    (h : Heap) (done : list (string * Compared)) (evs : list event) : Run :=
  match todo with
  | [] =>
      {| outcome := Ok ();
         comparisons := done;
         events := evs ++ (if truthy (save_output opts) then [EvClose] else []) |}
  | key :: rest =>
      match
        o ← group_get old key;
        n ← group_get new key;
        Ok {| input_old_hits := o; input_new_hits := n;
              email := opt_email opts; query_name := key |}
      with
      | Raise e => {| outcome := Raise e; comparisons := done; events := evs |}
      | Ok self =>
          match compare E self h with
          | Raise e =>
              {| outcome := Raise e; comparisons := done; events := evs |}
          | Ok c =>
              match
                output_comparison self c (output_types_of opts) (top opts)
                                  (long_output opts) (adaptive opts)
              with
              | Raise e =>
                  {| outcome := Raise e;
                     comparisons := done ++ [(key, c)];
                     events := evs |}
              | Ok out =>
                  run_queries opts old new rest (store c)
                    (done ++ [(key, c)])
                    (evs ++ out ++
                       (if truthy (export opts) then
                          export_hit_categories self c
                            (default "" (export opts)) (output_path opts)
                        else []))
              end
          end
      end
  end.

(** [perform_comparison], from the two loaded lists of hits on. *)
Definition perform_comparison (opts : Options)
    (old_hits_all new_hits_all : list nat) (h : Heap) : Run :=
  let new := group_hits new_hits_all in
  let old := group_hits old_hits_all in
  if keys_equal old new then
    run_queries opts old new (keys old) h []
      (if truthy (save_output opts)
       then [EvOpen (output_path opts +:+ default "" (save_output opts))]
       else [])
  else
    {| outcome := Raise AssertionError; comparisons := []; events := [] |}.

End Driver.

(** ** [load_blasthits] *)

Definition tab_char : ascii := Ascii.ascii_of_nat 9.

(** [sep.join(l)] for a separator of one character *)
Fixpoint join_char (sep : ascii) (l : list string) : string :=
  match l with
  | [] => EmptyString
  | [w] => w
  | w :: rest => w +:+ String sep (join_char sep rest)
  end.

(** [for sub in subhits: h[1] = sub; hits.append(BlastHit('\t'.join(h)))]:
    the texts given to [BlastHit], the list [h] being updated in place. *)
Fixpoint expand_subhits (h : list string) (subhits : list string)
  : result (list string) :=
  match subhits with
  | [] => Ok []
  | sub :: rest =>
      if decide (1 < length h) then
        texts ← expand_subhits (<[1 := sub]> h) rest;
        Ok (join_char tab_char (<[1 := sub]> h) :: texts)
      else Raise IndexError
  end.

(** One round of [for hit in blastfile] (lines 32-43): the texts given to
    [BlastHit] for one line of the file. *)
Definition load_line (hit : string) : result (list string) :=
  let h := split_char tab_char hit in
  h1 ← list_get h 1;
  h12 ← list_get h 12;
  if decide (h1 = h12) then Ok [hit]
  else expand_subhits h (split_char ";" h12).

(** [load_blasthits], from the lines [readlines()] returns on: the texts
    the hits are built from, in order. *)
Fixpoint load_blasthits (blastfile : list string) : result (list string) :=
  match blastfile with
  | [] => Ok []
  | hit :: rest =>
      texts ← load_line hit;
      more ← load_blasthits rest;
      Ok (texts ++ more)
  end.

(** ** Notions used to state the properties *)

(** [a <= b] for dates *)
Definition tuple_le (a b : struct_time) : Prop := tuple_ltb b a = false.

(** The values assigned to the status of [hit], in order. *)
Definition writes_to (hit : nat) (log : list (nat * string)) : list string :=
  snd <$> filter (λ p, p.1 = hit) log.

(** The assignments [(hit, st)] for the hits of a list to which [f] gives
    a status. *)
Definition tagged (f : nat → option string) (l : list nat)
  : list (nat * string) :=
  omap (λ hit, (λ st, (hit, st)) <$> f hit) l.

(** The number of hits of a list whose status is [st]. *)
Definition count_status (h : Heap) (st : string) (l : list nat) : nat :=
  length (filter (λ hit, status h !! hit = Some st) l).

(** The hits a tally with option [top] looks at: all of them for [0],
    the first [min top (length l)] otherwise. *)
Definition considered {A : Type} (top : Z) (l : list A) : list A :=
  if (top =? 0)%Z then l else take (Z.to_nat top `min` length l) l.

(** The count the tally is to hold for category [k]: the considered old
    hits of that status, and for ['new'] and ['strange'] the considered new
    hits of that status as well. *)
Definition expected_count (c : Compared) (top : Z) (k : string) : nat :=
  count_status (store c) k (considered top (old_all (old_hits c)))
  + (if decide (k ∈ ["new"; "strange"])
     then count_status (store c) k (considered top (new_all (new_hits c)))
     else 0).

(** A tally has the seven categories as keys. *)
Definition tally_shaped (m : gmap string nat) : Prop :=
  ∀ k, is_Some (m !! k) ↔ k ∈ categories.

Section Notions.

Context (E : Collaborators).

(** The directory status of the first ['gi'] identifier of a hit. *)
Definition fate (genes : gmap string DirectoryRecord) (hit : nat)
  : option string :=
  n ← canonical_id (heap E hit); Status <$> genes !! n.

(** The hits of a list that the loop classifies with a given status. *)
Definition with_fate (genes : gmap string DirectoryRecord) (st : string)
    (l : list nat) : list nat :=
  filter (λ hit, fate genes hit = Some st) l.

(** The assignments the loop makes. *)
Definition fate_writes (genes : gmap string DirectoryRecord) (l : list nat)
  : list (nat * string) :=
  tagged (fate genes) l.

(** A hit of the new side is a confirmed replacement for [hit] when it
    carries the identifier [v] and [compare_hit], ignoring identifiers,
    answers that the two are the same. *)
Definition qualifies (hit : nat) (v : string) (hit2 : nat) : Prop :=
  v ∈ num <$> ids (heap E hit2)
  ∧ fst (compare_hit E (heap E hit) (heap E hit2) false) = true.

Global Instance qualifies_dec hit v hit2 : Decision (qualifies hit v hit2).
Proof. unfold qualifies. apply _. Defined.

(** The creation date the recency loop reads for a hit. *)
Definition resolved_date (genes' : gmap string DirectoryRecord) (hit : nat)
  : result struct_time :=
  id0 ← list_get (ids (heap E hit)) 0;
  rec ← dict_get genes' (num id0);
  parse_date E (CreateDate rec).

(** The status the recency loop gives to a hit. *)
Definition recency (genes' : gmap string DirectoryRecord) (date : struct_time)
    (hit : nat) : option string :=
  match resolved_date genes' hit with
  | Ok t => Some (if tuple_ltb t date then "strange" else "new")
  | Raise _ => None
  end.

(** The query names of a list of hits. *)
Definition query_names (l : list nat) : list string :=
  (λ hit, name (heap E hit)) <$> l.

(** The terminal buckets of the two sides. *)
Definition old_terminal (c : Compared) : list nat :=
  old_same (old_hits c) ++ old_similar (old_hits c) ++ old_lost (old_hits c)
  ++ old_replacement (old_hits c) ++ old_suppressed (old_hits c).

Definition new_terminal (c : Compared) : list nat :=
  new_same (new_hits c) ++ new_similar (new_hits c)
  ++ new_replacement (new_hits c) ++ new_new (new_hits c)
  ++ new_old (new_hits c).

End Notions.

(** ** Notions used for the other functions *)

(** The character [a] occurs in [s]. *)
Fixpoint occurs (a : ascii) (s : string) : Prop :=
  match s with
  | EmptyString => False
  | String b rest => a = b ∨ occurs a rest
  end.

(** The columns of a line of a tabular file. *)
Definition columns_of (line : string) : list string :=
  split_char tab_char line.

(** An event that writes a line of the report. *)
Definition is_line (ev : event) : Prop :=
  match ev with
  | EvLine _ _ => True
  | _ => False
  end.

(** An event of the export of a category. *)
Definition is_export (ev : event) : Prop :=
  match ev with
  | EvExport _ _ | EvPrint _ => True
  | _ => False
  end.

(** The comparison recorded for a query is the result of [compare] on the
    two groups of hits of that query. *)
Definition compared_on (E : Collaborators) (opts : Options)
    (old new : groups) (kc : string * Compared) : Prop :=
  ∃ o n h,
    group_get old kc.1 = Ok o ∧ group_get new kc.1 = Ok n
    ∧ compare E {| input_old_hits := o; input_new_hits := n;
                   email := opt_email opts; query_name := kc.1 |} h
      = Ok kc.2.

(** The number of occurrences of a character in a text. *)
Fixpoint count_char (a : ascii) (s : string) : nat :=
  match s with
  | EmptyString => 0
  | String b rest => (if decide (b = a) then 1 else 0) + count_char a rest
  end.

(** The name of the file a category is exported to. *)
Definition export_file (self : CompareBLASTs) (path category : string)
  : string :=
  path +:+ valid_name (query_name self) +:+ "_" +:+ category +:+ ".blast".

(** The lines of the report for the categories: in adaptive mode only the
    categories with hits, otherwise all seven. *)
Definition shown_categories (adaptive : bool) (m : gmap string nat)
  : list string :=
  filter (λ k, adaptive = false ∨ 0 < default 0 (m !! k)) categories.

(** The total of a tally. *)
Definition tally_total (m : gmap string nat) : nat :=
  sum_list ((λ k, default 0 (m !! k)) <$> categories).

(** The hits of a list whose status is ['new'] or ['strange']. *)
Definition new_or_strange (h : Heap) (l : list nat) : list nat :=
  filter (λ hit, status h !! hit = Some "new"
                 ∨ status h !! hit = Some "strange") l.

(** An identifier under the canonical namespace. *)
Definition is_gi (i : ID) : Prop := db i = "gi".

Global Instance is_gi_dec (i : ID) : Decision (is_gi i).
Proof. unfold is_gi. apply _. Defined.

(** The replacement the mapping declares for an identifier. *)
Definition replaced_by (genes : gmap string DirectoryRecord) (i : ID)
  : option string :=
  rec ← genes !! num i; ReplacedBy rec.

(** The replacement identifier the loop of lines 102-104 leaves in
    [new_id] for a hit with a ['gi'] identifier: the one declared for its
    last ['gi'] identifier. *)
Definition declared_replacement (genes : gmap string DirectoryRecord)
    (h : BlastHit) : option string :=
  i ← last (filter is_gi (ids h)); replaced_by genes i.

(** The three directory statuses the classification loop accepts. *)
Definition known_fate (st : option string) : Prop :=
  st = Some "live" ∨ st = Some "replaced" ∨ st = Some "suppressed".

(** An old hit and the new hit confirmed as its replacement. *)
Definition linked (E : Collaborators) (genes : gmap string DirectoryRecord)
    (o n : nat) : Prop :=
  ∃ v, declared_replacement genes (heap E o) = Some v ∧ qualifies E o v n.

(** All the hits of a bucket have the status [st]. *)
Definition bucket_status (h : Heap) (st : string) (bucket : list nat) : Prop :=
  ∀ hit, hit ∈ bucket → status h !! hit = Some st.

(** The replacement identifier the directory declares for a hit: the
    ['ReplacedBy'] entry of the record of its canonical identifier. *)
Definition directory_replacement (genes : gmap string DirectoryRecord)
    (h : BlastHit) : option string :=
  n ← canonical_id h; rec ← genes !! n; ReplacedBy rec.

(** ** A concrete directory and concrete hits

    A small instance of the collaborators, on which the engine can be run:
    hits are equal when identifiers and columns agree, the directory is a
    fixed table, and dates are read as [year/month/day]. *)

Module Fixture.

Definition digit (a : ascii) : option Z :=
  let n := nat_of_ascii a in
  if (48 <=? n) && (n <=? 57) then Some (Z.of_nat (n - 48)) else None.

Fixpoint number (s : string) (acc : Z) : option Z :=
  match s with
  | EmptyString => Some acc
  | String a rest => d ← digit a; number rest (10 * acc + d)%Z
  end.

(** [time.strptime] for the format the engine uses, ['%Y/%m/%d']: a year
    of four digits, a month from 1 to 12 and a day of that month, each of
    one or two digits (or, for the day, a space and a digit).  The time of
    day is zero, [tm_wday] counts from Monday, [tm_yday] from 1, and
    [tm_isdst] is -1.  Any other text is refused. *)
Definition is_leap (y : Z) : bool :=
  ((y mod 4 =? 0) && negb (y mod 100 =? 0) || (y mod 400 =? 0))%Z.

Definition days_in_month (y m : Z) : Z :=
  if (m =? 2)%Z then (if is_leap y then 29 else 28)%Z
  else if ((m =? 4) || (m =? 6) || (m =? 9) || (m =? 11))%Z then 30%Z
  else 31%Z.

Definition days_before_month (y m : Z) : Z :=
  foldr Z.add 0%Z
    ((λ k, days_in_month y (Z.of_nat k)) <$> seq 1 (Z.to_nat m - 1)).

(** The days from 0001/01/01, which was a Monday, to the first day of a
    year. *)
Definition days_before_year (y : Z) : Z :=
  (365 * (y - 1) + (y - 1) / 4 - (y - 1) / 100 + (y - 1) / 400)%Z.

Definition year_field (s : string) : option Z :=
  if decide (String.length s = 4) then
    y ← number s 0%Z; if (1 <=? y)%Z then Some y else None
  else None.

Definition month_field (s : string) : option Z :=
  if decide (String.length s = 1 ∨ String.length s = 2) then
    m ← number s 0%Z;
    if ((1 <=? m) && (m <=? 12))%Z then Some m else None
  else None.

Definition day_field (s : string) : option Z :=
  match s with
  | String " " (String a EmptyString) =>
      d ← digit a; if (1 <=? d)%Z then Some d else None
  | _ =>
      if decide (String.length s = 1 ∨ String.length s = 2) then
        d ← number s 0%Z;
        if ((1 <=? d) && (d <=? 31))%Z then Some d else None
      else None
  end.

Definition strptime_ymd (s fmt : string) : option struct_time :=
  if decide (fmt = "%Y/%m/%d") then
    match split_char "/" s with
    | [y; m; d] =>
        y' ← year_field y; m' ← month_field m; d' ← day_field d;
        if (d' <=? days_in_month y' m')%Z then
          let yday := (days_before_month y' m' + d')%Z in
          Some [y'; m'; d'; 0; 0; 0;
                (days_before_year y' + yday + 6) mod 7; yday; -1]%Z
        else None
    | _ => None
    end
  else None.

#[local] Instance ID_eq_dec : EqDecision ID.
Proof. solve_decision. Defined.

Definition comparator (a b : BlastHit) : Verdict :=
  if decide (ids a = ids b) then
    if decide (columns a = columns b) then Same else Similar
  else NoRelation.

Definition compare_attributes (a b : BlastHit) (check_ids : bool)
  : bool * list string :=
  (bool_decide (columns a = columns b)
   && (negb check_ids || bool_decide (ids a = ids b)), []).

Definition directory : gmap string DirectoryRecord :=
  list_to_map
    [ ("100", mkDirectoryRecord "live" None "2014/01/01");
      ("200", mkDirectoryRecord "replaced" (Some "201") "2013/05/05");
      ("201", mkDirectoryRecord "live" None "2014/06/01");
      ("300", mkDirectoryRecord "suppressed" None "2012/03/04");
      ("400", mkDirectoryRecord "live" None "2014/09/01");
      ("450", mkDirectoryRecord "live" None "2014/01/01");
      ("500", mkDirectoryRecord "replaced" (Some "501") "2013/07/07");
      ("600", mkDirectoryRecord "live" None "2010/10/10") ].

(** The service answers with the entries it has for the identifiers asked. *)
Definition lookup (email : string) (asked : list string)
  : result (gmap string DirectoryRecord) :=
  Ok (filter (λ kv, kv.1 ∈ asked) directory).

Definition gi (n : string) : ID := mkID "gi" n.
Definition ref (n : string) : ID := mkID "ref" n.

Definition objects : list BlastHit :=
  [ (* 0 *) mkBlastHit "Q1" [gi "100"; ref "NP_100"] ["a"];
    (* 1 *) mkBlastHit "Q1" [gi "200"; ref "NP_200"] ["b"];
    (* 2 *) mkBlastHit "Q1" [gi "300"] ["c"];
    (* 3 *) mkBlastHit "Q1" [gi "100"; ref "NP_100"] ["a"];
    (* 4 *) mkBlastHit "Q1" [gi "201"; ref "NP_201"] ["b"];
    (* 5 *) mkBlastHit "Q1" [gi "400"] ["d"];
    (* 6 *) mkBlastHit "Q1" [ref "XP_1"] ["e"];
    (* 7 *) mkBlastHit "Q1" [ref "XP_2"] ["f"];
    (* 8 *) mkBlastHit "Q1" [gi "500"] ["g"];
    (* 9 *) mkBlastHit "Q1" [gi "600"] ["h"];
    (* 10 *) mkBlastHit "Q1" [gi "450"] ["i"];
    (* 11 *) mkBlastHit "Q2" [gi "100"] ["a"];
    (* 12 *) mkBlastHit "Q1" [gi "500"; gi "999"] ["j"];
    (* 13 *) mkBlastHit "Q1" [gi "200"; gi "500"] ["b"] ].

Definition env : Collaborators :=
  {| heap := λ r, nth r objects (mkBlastHit "" [] []);
     hit_comparator := comparator;
     compare_hit := compare_attributes;
     lookupBatch := lookup;
     strptime := strptime_ymd |}.

(** The same collaborators with a directory that knows no identifier. *)
Definition env_unknowing : Collaborators :=
  {| heap := λ r, nth r objects (mkBlastHit "" [] []);
     hit_comparator := comparator;
     compare_hit := compare_attributes;
     lookupBatch := λ _ _, Ok ∅;
     strptime := strptime_ymd |}.

(** No status has been assigned yet. *)
Definition fresh : Heap := {| status := ∅; status_writes := [] |}.

(** The scenario of the specification's section 8: three old hits (alive
    and found again, replaced, suppressed) and two new ones. *)
Definition scenario : CompareBLASTs :=
  {| input_old_hits := [0; 1; 2]; input_new_hits := [3; 4];
     email := "test@test.com"; query_name := "Q1" |}.

(** A replaced old hit whose replacement is not among the new hits, and
    new hits created after, on and before the baseline date. *)
Definition stale : CompareBLASTs :=
  {| input_old_hits := [0; 8]; input_new_hits := [3; 5; 10; 9];
     email := "test@test.com"; query_name := "Q1" |}.

(** An unmatched old hit without ['gi'] identifier. *)
Definition old_without_gi : CompareBLASTs :=
  {| input_old_hits := [0; 6]; input_new_hits := [];
     email := "test@test.com"; query_name := "Q1" |}.

(** An unmatched new hit without ['gi'] identifier. *)
Definition new_without_gi : CompareBLASTs :=
  {| input_old_hits := [0]; input_new_hits := [7];
     email := "test@test.com"; query_name := "Q1" |}.

(** Two searches without a hit in common. *)
Definition disjoint : CompareBLASTs :=
  {| input_old_hits := [8; 2]; input_new_hits := [5; 10; 9];
     email := "test@test.com"; query_name := "Q1" |}.

(** One old hit and no new hit. *)
Definition only_old : CompareBLASTs :=
  {| input_old_hits := [0]; input_new_hits := [];
     email := "test@test.com"; query_name := "Q1" |}.

(** No old hit at all. *)
Definition no_old : CompareBLASTs :=
  {| input_old_hits := []; input_new_hits := [5];
     email := "test@test.com"; query_name := "Q1" |}.

(** A replaced old hit alone. *)
Definition stale_alone : CompareBLASTs :=
  {| input_old_hits := [8]; input_new_hits := [];
     email := "test@test.com"; query_name := "Q1" |}.

(** A replaced old hit with a second ['gi'] identifier that the directory
    does not know, and no new hit. *)
Definition second_gi_unresolved : CompareBLASTs :=
  {| input_old_hits := [12]; input_new_hits := [];
     email := "test@test.com"; query_name := "Q1" |}.

(** A replaced old hit with a second ['gi'] identifier that is replaced as
    well, and a new hit that carries the replacement of the first. *)
Definition second_gi_decides : CompareBLASTs :=
  {| input_old_hits := [13; 8]; input_new_hits := [4];
     email := "test@test.com"; query_name := "Q1" |}.

(** The object a completed run leaves. *)
Definition completed (r : result Compared) : Compared :=
  match r with
  | Ok c => c
  | Raise _ =>
      mkCompared (mkNewHits [] [] [] [] [] [] [])
        (mkOldHits [] [] [] [] [] [] []) ∅ ∅ [] fresh []
  end.

Definition scenario_c : Compared :=
  Eval vm_compute in completed (compare env scenario fresh).

Definition stale_c : Compared :=
  Eval vm_compute in completed (compare env stale fresh).

Definition old_without_gi_c : Compared :=
  Eval vm_compute in completed (compare env old_without_gi fresh).

Definition disjoint_c : Compared :=
  Eval vm_compute in completed (compare env disjoint fresh).

Definition stale_alone_c : Compared :=
  Eval vm_compute in completed (compare env stale_alone fresh).

Definition second_gi_decides_c : Compared :=
  Eval vm_compute in completed (compare env second_gi_decides fresh).

Definition options : Options :=
  {| top := 0; verbose := true; save_output := None; output_path := "";
     long_output := false; adaptive := true; opt_email := "test@test.com";
     export := None |}.

End Fixture.

(** * Properties *)

Set Warnings "-clear-no-such-hyp".

(** ** The [result] monad and loops *)

Lemma bind_Ok_inv {A B : Type} (m : result A) (f : A → result B) (b : B) :
  (m ≫= f) = Ok b → ∃ a, m = Ok a ∧ f a = Ok b.
Proof. destruct m as [a|e]; simpl; [eauto | discriminate]. Qed.

Ltac inv_bind H :=
  let a := fresh "a" in
  let Ha := fresh "Ha" in
  apply bind_Ok_inv in H as (a & Ha & H).

Section ForEach.

Context {S A : Type} (body : A → S → result S).

Lemma for_each_app (l1 l2 : list A) (s : S) :
  for_each body (l1 ++ l2) s = (for_each body l1 s ≫= for_each body l2).
Proof.
  revert s. induction l1 as [|x l1 IH]; intros s; simpl; [done|].
  destruct (body x s) as [s1|e]; simpl; [apply IH | done].
Qed.

(** A loop invariant that may mention the elements already visited. *)
Lemma for_each_invariant (P : list A → S → Prop) (l : list A) (s s' : S) :
  P [] s →
  (∀ pre x post s1 s2,
     l = pre ++ x :: post → P pre s1 → body x s1 = Ok s2 → P (pre ++ [x]) s2) →
  for_each body l s = Ok s' →
  P l s'.
Proof.
  intros H0 Hstep.
  assert (∀ post pre s1, l = pre ++ post → P pre s1 →
            for_each body post s1 = Ok s' → P l s') as Hgen.
  { induction post as [|x post IH]; intros pre s1 Hl HP Hrun; simpl in Hrun.
    - injection Hrun as <-. by rewrite Hl, app_nil_r.
    - inv_bind Hrun. apply (IH (pre ++ [x]) a); [| eauto | done].
      by rewrite <- app_assoc. }
  intros Hrun. by apply (Hgen l [] s).
Qed.

End ForEach.

(** ** The order on dates *)

Lemma tuple_ltb_irrefl (a : struct_time) : tuple_ltb a a = false.
Proof.
  induction a as [|x a IH]; simpl; [done|].
  by rewrite Z.ltb_irrefl.
Qed.

Lemma tuple_ltb_trans (a b c : struct_time) :
  tuple_ltb a b = true → tuple_ltb b c = true → tuple_ltb a c = true.
Proof.
  revert b c. induction a as [|x a IH]; intros [|y b] [|z c]; simpl; try done.
  destruct (Z.ltb_spec x y), (Z.ltb_spec y x), (Z.ltb_spec y z),
    (Z.ltb_spec z y), (Z.ltb_spec x z), (Z.ltb_spec z x);
    try done; try lia.
  apply IH.
Qed.

(** The order is total: two dates are equal or one is before the other. *)
Lemma tuple_ltb_total (a b : struct_time) :
  tuple_ltb a b = false → a = b ∨ tuple_ltb b a = true.
Proof.
  revert b. induction a as [|x a IH]; intros [|y b]; simpl; auto; try done.
  destruct (Z.ltb_spec x y), (Z.ltb_spec y x); try done; auto; try lia.
  intros Hrec. assert (x = y) as -> by lia.
  destruct (IH b Hrec) as [->|]; auto.
Qed.

Lemma tuple_ltb_asym (a b : struct_time) :
  tuple_ltb a b = true → tuple_ltb b a = false.
Proof.
  intros H. destruct (tuple_ltb b a) eqn:Hba; [|done].
  pose proof (tuple_ltb_trans _ _ _ H Hba) as Haa.
  by rewrite tuple_ltb_irrefl in Haa.
Qed.

Lemma tuple_le_refl (a : struct_time) : tuple_le a a.
Proof. apply tuple_ltb_irrefl. Qed.

Lemma tuple_le_trans (a b c : struct_time) :
  tuple_le a b → tuple_le b c → tuple_le a c.
Proof.
  unfold tuple_le. intros Hab Hbc.
  destruct (tuple_ltb c a) eqn:Hca; [|done].
  destruct (tuple_ltb_total _ _ Hab) as [->|Hab']; [congruence|].
  pose proof (tuple_ltb_trans _ _ _ Hca Hab'). congruence.
Qed.

Lemma max_from_ge_cur (cur : struct_time) (l : list struct_time) :
  tuple_le cur (max_from cur l).
Proof.
  revert cur. induction l as [|x l IH]; intros cur; simpl.
  - apply tuple_le_refl.
  - destruct (tuple_ltb cur x) eqn:Hlt; [|apply IH].
    apply tuple_le_trans with x; [|apply IH].
    by apply tuple_ltb_asym.
Qed.

Lemma max_from_upper (cur : struct_time) (l : list struct_time) (x : struct_time) :
  x ∈ cur :: l → tuple_le x (max_from cur l).
Proof.
  revert cur. induction l as [|y l IH]; intros cur Hx; simpl.
  - apply list_elem_of_singleton in Hx as ->. apply tuple_le_refl.
  - apply elem_of_cons in Hx as [->|Hx].
    + apply tuple_le_trans with (if tuple_ltb cur y then y else cur);
        [|apply max_from_ge_cur].
      destruct (tuple_ltb cur y) eqn:Hlt; [by apply tuple_ltb_asym|].
      apply tuple_le_refl.
    + apply elem_of_cons in Hx as [->|Hx].
      * apply tuple_le_trans with (if tuple_ltb cur y then y else cur);
          [|apply max_from_ge_cur].
        destruct (tuple_ltb cur y) eqn:Hlt; [apply tuple_le_refl | done].
      * apply IH. set_solver.
Qed.

Lemma max_from_elem (cur : struct_time) (l : list struct_time) :
  max_from cur l ∈ cur :: l.
Proof.
  revert cur. induction l as [|y l IH]; intros cur; simpl; [set_solver|].
  pose proof (IH (if tuple_ltb cur y then y else cur)) as IH'.
  destruct (tuple_ltb cur y); set_solver.
Qed.

(** [max] returns an element of the list that no element exceeds. *)
Lemma py_max_spec (l : list struct_time) (m : struct_time) :
  py_max l = Ok m → m ∈ l ∧ ∀ x, x ∈ l → tuple_ltb m x = false.
Proof.
  destruct l as [|cur l]; simpl; [done|]. intros [= <-]. split.
  - apply max_from_elem.
  - intros x Hx. by apply max_from_upper.
Qed.


(** ** The matcher *)

Lemma filter_verdict_perm {A : Type} (f : A → Verdict) (l : list A) :
  l ≡ₚ filter (λ x, f x = Same) l ++ filter (λ x, f x = Similar) l
        ++ filter (λ x, f x = NoRelation) l.
Proof.
  induction l as [|x l IH]; [done|].
  rewrite !filter_cons. destruct (f x) eqn:Hf; simpl.
  - repeat case_decide; try done. simpl. by constructor.
  - repeat case_decide; try done.
    rewrite <- Permutation_middle. by constructor.
  - repeat case_decide; try done.
    rewrite app_assoc, <- Permutation_middle, <- app_assoc. by constructor.
Qed.

Section EngineFacts.

Context (E : Collaborators).

Lemma partition_side_perm (mine others : list nat) :
  p_all (partition_side E mine others)
  ≡ₚ p_same (partition_side E mine others)
      ++ p_similar (partition_side E mine others)
      ++ p_unknown (partition_side E mine others).
Proof. apply (filter_verdict_perm (λ h, first_match E h others)). Qed.

Lemma partition_side_unknown_sublist (mine others : list nat) :
  p_unknown (partition_side E mine others) `sublist_of` mine.
Proof. apply sublist_filter. Qed.

(** ** Lines 83-92: the fate of an unmatched old hit *)

Lemma classify_ids_spec genes hit l s s' :
  classify_ids genes hit l s = Ok s' →
  match find (λ i, bool_decide (db i = "gi")) l with
  | None => s' = s
  | Some i =>
      ∃ rec, genes !! num i = Some rec
             ∧ oldOnly_append (Status rec) hit (fst s) = Ok (fst s')
             ∧ snd s' = set_status hit (Status rec) (snd s)
  end.
Proof.
  induction l as [|i l IH]; simpl.
  - by intros [= <-].
  - case_decide as Hdb.
    + rewrite bool_decide_eq_true_2 by done.
      unfold dict_get. destruct (genes !! num i) as [rec|]; simpl; [|done].
      destruct (oldOnly_append (Status rec) hit s.1) as [o|] eqn:Ho; simpl;
        [|done].
      intros [= <-]. eauto.
    + rewrite bool_decide_eq_false_2 by done. apply IH.
Qed.

Lemma oldOnly_append_inv key hit o o' :
  oldOnly_append key hit o = Ok o' →
  (key = "live" ∨ key = "replaced" ∨ key = "suppressed")
  ∧ live o' = live o ++ (if decide (key = "live") then [hit] else [])
  ∧ replaced o' = replaced o ++ (if decide (key = "replaced") then [hit] else [])
  ∧ suppressed o' = suppressed o
                    ++ (if decide (key = "suppressed") then [hit] else []).
Proof.
  unfold oldOnly_append.
  destruct (decide (key = "live")) as [->|Hl];
    [intros [= <-]; simpl; rewrite !app_nil_r; auto|].
  destruct (decide (key = "replaced")) as [->|Hr];
    [intros [= <-]; simpl; rewrite !app_nil_r; auto|].
  destruct (decide (key = "suppressed")) as [->|Hs];
    [intros [= <-]; simpl; rewrite !app_nil_r; auto | done].
Qed.

(** What one round of the loop does, in terms of [fate]. *)
Lemma classify_old_spec genes hit o h o' h' :
  classify_old E genes hit (o, h) = Ok (o', h') →
  match canonical_id (heap E hit) with
  | None => o' = o ∧ h' = h
  | Some n =>
      ∃ st, fate E genes hit = Some st
            ∧ (st = "live" ∨ st = "replaced" ∨ st = "suppressed")
            ∧ live o' = live o ++ (if decide (st = "live") then [hit] else [])
            ∧ replaced o'
              = replaced o ++ (if decide (st = "replaced") then [hit] else [])
            ∧ suppressed o'
              = suppressed o ++ (if decide (st = "suppressed") then [hit] else [])
            ∧ h' = set_status hit st h
  end.
Proof.
  unfold classify_old, fate, canonical_id. intros H.
  apply classify_ids_spec in H.
  destruct (find _ (ids (heap E hit))) as [i|]; simpl in *.
  - destruct H as (rec & Hrec & Happ & Hh).
    apply oldOnly_append_inv in Happ as (Hkey & Hl & Hr & Hs).
    exists (Status rec). rewrite Hrec. simpl. auto 10.
  - by injection H as <- <-.
Qed.

Lemma with_fate_snoc genes st l hit st' :
  fate E genes hit = Some st' →
  with_fate E genes st (l ++ [hit])
  = with_fate E genes st l ++ (if decide (st' = st) then [hit] else []).
Proof.
  intros Hf. unfold with_fate. rewrite filter_app, filter_cons, filter_nil.
  rewrite Hf. repeat case_decide; try done. all: congruence.
Qed.

Lemma with_fate_snoc_None genes st l hit :
  fate E genes hit = None →
  with_fate E genes st (l ++ [hit]) = with_fate E genes st l.
Proof.
  intros Hf. unfold with_fate. rewrite filter_app, filter_cons, filter_nil.
  rewrite Hf. case_decide; [done|]. by rewrite app_nil_r.
Qed.

Lemma fate_None_of_no_gi genes hit :
  canonical_id (heap E hit) = None → fate E genes hit = None.
Proof. unfold fate. by intros ->. Qed.

(** The whole loop, as a function of the list it runs over. *)
Lemma classify_loop_spec genes l o h o' h' :
  for_each (classify_old E genes) l (o, h) = Ok (o', h') →
  live o' = live o ++ with_fate E genes "live" l
  ∧ replaced o' = replaced o ++ with_fate E genes "replaced" l
  ∧ suppressed o' = suppressed o ++ with_fate E genes "suppressed" l
  ∧ status_writes h' = status_writes h ++ fate_writes E genes l
  ∧ (∀ hit, hit ∉ l ∨ fate E genes hit = None →
       status h' !! hit = status h !! hit)
  ∧ (∀ hit, hit ∈ l →
       canonical_id (heap E hit) = None
       ∨ ∃ st, fate E genes hit = Some st
               ∧ (st = "live" ∨ st = "replaced" ∨ st = "suppressed")
               ∧ status h' !! hit = Some st).
Proof.
  intros Hrun.
  apply (for_each_invariant (classify_old E genes)
    (λ pre s,
       live s.1 = live o ++ with_fate E genes "live" pre
       ∧ replaced s.1 = replaced o ++ with_fate E genes "replaced" pre
       ∧ suppressed s.1 = suppressed o ++ with_fate E genes "suppressed" pre
       ∧ status_writes s.2 = status_writes h ++ fate_writes E genes pre
       ∧ (∀ hit, hit ∉ pre ∨ fate E genes hit = None →
            status s.2 !! hit = status h !! hit)
       ∧ (∀ hit, hit ∈ pre →
            canonical_id (heap E hit) = None
            ∨ ∃ st, fate E genes hit = Some st
                    ∧ (st = "live" ∨ st = "replaced" ∨ st = "suppressed")
                    ∧ status s.2 !! hit = Some st))
    l (o, h) (o', h')); [| |done].
  - simpl. rewrite !app_nil_r. repeat split; auto. intros hit Hin.
    by apply elem_of_nil in Hin.
  - intros pre x post [o1 h1] [o2 h2] _ (Hl & Hr & Hs & Hw & Hout & Hin) Hstep.
    simpl in *. apply classify_old_spec in Hstep.
    destruct (canonical_id (heap E x)) as [n|] eqn:Hcid.
    + destruct Hstep as (st & Hfate & Hst & Hl' & Hr' & Hs' & ->).
      rewrite !(with_fate_snoc _ _ _ _ st) by done.
      unfold fate_writes, tagged. rewrite omap_app. simpl. rewrite Hfate. simpl.
      rewrite Hl', Hr', Hs', Hl, Hr, Hs, Hw, <- !app_assoc.
      repeat split; try done.
      * intros hit Hhit.
        assert (x ≠ hit) as Hne
          by (intros ->; destruct Hhit as [Hhit|Hhit];
                [set_solver | congruence]).
        rewrite lookup_insert_ne by done.
        apply Hout. destruct Hhit; [left; set_solver | by right].
      * intros hit [Hhit| ->%list_elem_of_singleton]%elem_of_app.
        -- destruct (Hin hit Hhit) as [?|(st' & Hf' & Hst' & Hlook)]; [auto|].
           right. exists st'. repeat split; try done.
           destruct (decide (x = hit)) as [->|Hne].
           ++ rewrite lookup_insert_eq. congruence.
           ++ by rewrite lookup_insert_ne.
        -- right. exists st. by rewrite lookup_insert_eq.
    + destruct Hstep as [-> ->].
      rewrite !with_fate_snoc_None by (by apply fate_None_of_no_gi).
      unfold fate_writes, tagged. rewrite omap_app. simpl.
      rewrite (fate_None_of_no_gi _ _ Hcid). simpl. rewrite app_nil_r.
      repeat split; try done.
      * intros hit Hhit. apply Hout.
        destruct Hhit; [left; set_solver | by right].
      * intros hit [Hhit| ->%list_elem_of_singleton]%elem_of_app; auto.
Qed.

(** ** Lines 101-121: the replacement loop *)

(** The scan finds the first confirmed replacement, if there is one. *)
Lemma scan_unknown_list_find hit v l k :
  scan_unknown E hit (Some v) l k
  = Ok ((λ p, k + p.1) <$> list_find (qualifies E hit v) l).
Proof.
  revert k. induction l as [|hit2 l IH]; intros k; [done|].
  cbn [scan_unknown list_find].
  destruct (decide (qualifies E hit v hit2)) as [[Hin Hsame]|Hnq].
  - rewrite decide_True by done. rewrite Hsame. simpl. do 2 f_equal. lia.
  - assert (scan_unknown E hit (Some v) l (S k)
            = Ok ((λ p, k + p.1) <$>
                    (prod_map S id <$> list_find (qualifies E hit v) l))) as Hrest.
    { rewrite IH. destruct (list_find _ l) as [[i x]|]; simpl; [|done].
      do 2 f_equal. lia. }
    destruct (decide (v ∈ num <$> ids (heap E hit2))) as [Hin|Hin]; [|done].
    destruct (compare_hit E (heap E hit) (heap E hit2) false).1 eqn:Hsame;
      [|done].
    exfalso. apply Hnq. by split.
Qed.

Lemma scan_unknown_inv hit nid l j :
  scan_unknown E hit nid l 0 = Ok j →
  l = [] ∧ j = None
  ∨ ∃ v, nid = Some v ∧ j = fst <$> list_find (qualifies E hit v) l.
Proof.
  destruct nid as [v|].
  - rewrite scan_unknown_list_find. intros [= <-]. right. exists v.
    split; [done|]. by destruct (list_find _ l) as [[??]|].
  - destruct l; simpl; [intros [= <-]; auto | done].
Qed.

(** What one round of the loop does. *)
Lemma link_step_inv genes hit s s' :
  link_step E genes hit s = Ok s' →
  bind_new_id genes (ids (heap E hit)) (new_id s) = Ok (new_id s')
  ∧ ((∃ v i rep,
        new_id s' = Some v
        ∧ list_find (qualifies E hit v) (l_unknown s) = Some (i, rep)
        ∧ l_unknown s' = delete i (l_unknown s)
        ∧ l_new_replacement s' = l_new_replacement s ++ [rep]
        ∧ l_old_replacement s' = l_old_replacement s ++ [hit]
        ∧ l_lost s' = l_lost s
        ∧ l_heap s' = set_status rep "replacement" (l_heap s))
     ∨ ((l_unknown s = []
         ∨ ∃ v, new_id s' = Some v
                ∧ list_find (qualifies E hit v) (l_unknown s) = None)
        ∧ l_unknown s' = l_unknown s
        ∧ l_new_replacement s' = l_new_replacement s
        ∧ l_old_replacement s' = l_old_replacement s
        ∧ l_lost s' = l_lost s ++ [hit]
        ∧ l_heap s' = set_status hit "live" (l_heap s))).
Proof.
  unfold link_step. intros H.
  apply bind_Ok_inv in H as (nid & Hnid & H).
  apply bind_Ok_inv in H as (found & Hscan & H).
  apply scan_unknown_inv in Hscan.
  destruct found as [num2|].
  - apply bind_Ok_inv in H as ([rep rest] & Hpop & H). injection H as <-.
    simpl. split; [done|]. left.
    destruct Hscan as [[_ ?]|(v & -> & Hfind)]; [done|].
    destruct (list_find _ (l_unknown s)) as [[i x]|] eqn:Hlf; [|done].
    injection Hfind as ->. unfold pop in Hpop.
    apply list_find_Some in Hlf as Hlf'. destruct Hlf' as (Hlook & _).
    rewrite Hlook in Hpop. injection Hpop as <- <-.
    exists v, i, x. auto 10.
  - injection H as <-. simpl. split; [done|]. right.
    split; [|auto 10].
    destruct Hscan as [[? _]|(v & -> & Hfind)]; [auto|]. right. exists v.
    split; [done|]. by destruct (list_find _ (l_unknown s)) as [[??]|].
Qed.

(** The loop only moves hits: from [unknown] to the new side's
    [replacement], and from the pending list to [lost] or to the old
    side's [replacement]. *)
Lemma link_loop_perm genes l s s' :
  for_each (link_step E genes) l s = Ok s' →
  l_unknown s' ++ l_new_replacement s' ≡ₚ l_unknown s ++ l_new_replacement s
  ∧ l_lost s' ++ l_old_replacement s' ≡ₚ l_lost s ++ l_old_replacement s ++ l
  ∧ l_unknown s' `sublist_of` l_unknown s.
Proof.
  apply (for_each_invariant (link_step E genes)
    (λ pre s1,
       l_unknown s1 ++ l_new_replacement s1
         ≡ₚ l_unknown s ++ l_new_replacement s
       ∧ l_lost s1 ++ l_old_replacement s1
         ≡ₚ l_lost s ++ l_old_replacement s ++ pre
       ∧ l_unknown s1 `sublist_of` l_unknown s)).
  - by rewrite app_nil_r.
  - intros pre x post s1 s2 _ (Hu & Ho & Hsub) Hstep.
    apply link_step_inv in Hstep as [_ Hstep].
    destruct Hstep as
      [(v & i & rep & _ & Hfind & -> & -> & -> & -> & _)
      |(_ & -> & -> & -> & -> & _)].
    + apply list_find_Some in Hfind as (Hlook & _).
      repeat split.
      * rewrite <- Hu.
        etrans; [|apply Permutation_app_tail; symmetry;
                  apply (delete_Permutation _ _ _ Hlook)].
        simpl. rewrite app_assoc. symmetry. apply Permutation_cons_append.
      * rewrite !app_assoc. apply Permutation_app_tail.
        rewrite <- !app_assoc. done.
      * etrans; [apply sublist_delete | done].
    + repeat split; [done| |done].
      rewrite !app_assoc. rewrite <- (app_assoc (l_lost s1)).
      rewrite (Permutation_app_comm [x]). rewrite !app_assoc.
      apply Permutation_app_tail. by rewrite <- !app_assoc.
Qed.

(** The buckets the loop fills only grow. *)
Lemma link_loop_mono genes l s s' :
  for_each (link_step E genes) l s = Ok s' →
  l_lost s `prefix_of` l_lost s'
  ∧ l_new_replacement s `prefix_of` l_new_replacement s'
  ∧ l_old_replacement s `prefix_of` l_old_replacement s'.
Proof.
  apply (for_each_invariant (link_step E genes)
    (λ _ s1,
       l_lost s `prefix_of` l_lost s1
       ∧ l_new_replacement s `prefix_of` l_new_replacement s1
       ∧ l_old_replacement s `prefix_of` l_old_replacement s1)).
  - done.
  - intros pre x post s1 s2 _ (Hl & Hn & Ho) Hstep.
    apply link_step_inv in Hstep as [_ Hstep].
    destruct Hstep as
      [(v & i & rep & _ & _ & _ & -> & -> & -> & _)
      |(_ & _ & -> & -> & -> & _)]; repeat split;
      try done; by apply prefix_app_r.
Qed.

(** How the loop may change the status of a hit. *)
Lemma link_loop_status genes l s s' x :
  for_each (link_step E genes) l s = Ok s' →
  status (l_heap s') !! x = status (l_heap s) !! x
  ∨ (status (l_heap s') !! x = Some "live" ∧ x ∈ l)
  ∨ (status (l_heap s') !! x = Some "replacement" ∧ x ∈ l_unknown s).
Proof.
  intros Hrun.
  cut ((status (l_heap s') !! x = status (l_heap s) !! x
        ∨ (status (l_heap s') !! x = Some "live" ∧ x ∈ l)
        ∨ (status (l_heap s') !! x = Some "replacement" ∧ x ∈ l_unknown s))
       ∧ l_unknown s' `sublist_of` l_unknown s); [by intros [? _]|].
  revert Hrun.
  apply (for_each_invariant (link_step E genes)
    (λ pre s1,
       (status (l_heap s1) !! x = status (l_heap s) !! x
        ∨ (status (l_heap s1) !! x = Some "live" ∧ x ∈ pre)
        ∨ (status (l_heap s1) !! x = Some "replacement" ∧ x ∈ l_unknown s))
       ∧ l_unknown s1 `sublist_of` l_unknown s)).
  - auto.
  - intros pre y post s1 s2 _ (Hst & Hsub) Hstep.
    apply link_step_inv in Hstep as [_ Hstep].
    destruct Hstep as
      [(v & i & rep & _ & Hfind & -> & _ & _ & _ & ->)
      |(_ & -> & _ & _ & _ & ->)]; simpl.
    + split; [|etrans; [apply sublist_delete | done]].
      apply list_find_Some in Hfind as (Hlook & _).
      destruct (decide (rep = x)) as [->|Hne].
      * rewrite lookup_insert_eq. right. right. split; [done|].
        eapply elem_of_sublist; [|done]. by eapply list_elem_of_lookup_2.
      * rewrite lookup_insert_ne by done.
        destruct Hst as [?|[[? ?]|?]]; auto. right. left. set_solver.
    + split; [|done].
      destruct (decide (y = x)) as [->|Hne].
      * rewrite lookup_insert_eq. right. left. set_solver.
      * rewrite lookup_insert_ne by done.
        destruct Hst as [?|[[? ?]|?]]; auto. right. left. set_solver.
Qed.

Lemma writes_to_app hit (l1 l2 : list (nat * string)) :
  writes_to hit (l1 ++ l2) = writes_to hit l1 ++ writes_to hit l2.
Proof. unfold writes_to. by rewrite filter_app, fmap_app. Qed.

Lemma writes_to_none hit (W : list (nat * string)) :
  Forall (λ p, p.1 ≠ hit) W → writes_to hit W = [].
Proof.
  unfold writes_to. induction 1 as [|p W Hp _ IH]; [done|].
  rewrite filter_cons. by rewrite decide_False.
Qed.

Lemma writes_to_singleton hit x (st : string) :
  writes_to hit [(x, st)] = if decide (x = hit) then [st] else [].
Proof.
  unfold writes_to. rewrite filter_cons, filter_nil. simpl.
  by destruct (decide (x = hit)).
Qed.

Lemma elem_of_delete_NoDup (l : list nat) i rep x :
  NoDup l → l !! i = Some rep →
  x ∈ delete i l ↔ x ∈ l ∧ x ≠ rep.
Proof.
  intros Hnd Hlook. pose proof (delete_Permutation _ _ _ Hlook) as Hperm.
  rewrite Hperm in Hnd. apply NoDup_cons in Hnd as [Hnotin _].
  rewrite (elem_of_Permutation_proper _ _ _ Hperm), elem_of_cons.
  split; [|tauto]. intros Hx. split; [auto|]. by intros ->.
Qed.

(** Every assignment of the loop gives ['live'] to a hit of the pending
    list or ['replacement'] to a hit of [unknown]. *)
Lemma link_loop_writes genes l s s' :
  for_each (link_step E genes) l s = Ok s' →
  ∃ W, status_writes (l_heap s') = status_writes (l_heap s) ++ W
       ∧ Forall (λ p, p.2 = "live" ∧ p.1 ∈ l
                      ∨ p.2 = "replacement" ∧ p.1 ∈ l_unknown s) W.
Proof.
  intros Hrun.
  cut ((∃ W, status_writes (l_heap s') = status_writes (l_heap s) ++ W
             ∧ Forall (λ p, p.2 = "live" ∧ p.1 ∈ l
                            ∨ p.2 = "replacement" ∧ p.1 ∈ l_unknown s) W)
       ∧ l_unknown s' `sublist_of` l_unknown s); [by intros [? _]|].
  revert Hrun.
  apply (for_each_invariant (link_step E genes)
    (λ pre s1,
       (∃ W, status_writes (l_heap s1) = status_writes (l_heap s) ++ W
             ∧ Forall (λ p, p.2 = "live" ∧ p.1 ∈ pre
                            ∨ p.2 = "replacement" ∧ p.1 ∈ l_unknown s) W)
       ∧ l_unknown s1 `sublist_of` l_unknown s)).
  - split; [|done]. exists []. by rewrite app_nil_r.
  - intros pre y post s1 s2 _ ((W & HW & Hall) & Hsub) Hstep.
    assert (Forall (λ p, p.2 = "live" ∧ p.1 ∈ pre ++ [y]
                         ∨ p.2 = "replacement" ∧ p.1 ∈ l_unknown s) W)
      as Hall'.
    { eapply Forall_impl; [done|]. intros p [[? ?]|?]; [left|by right].
      split; [done|set_solver]. }
    apply link_step_inv in Hstep as [_ Hstep].
    destruct Hstep as
      [(v & i & rep & _ & Hfind & -> & _ & _ & _ & ->)
      |(_ & -> & _ & _ & _ & ->)]; simpl.
    + split; [|etrans; [apply sublist_delete | done]].
      exists (W ++ [(rep, "replacement")]). rewrite HW, <- app_assoc.
      split; [done|]. apply Forall_app. split; [done|].
      apply Forall_singleton. right. split; [done|]. simpl.
      apply list_find_Some in Hfind as (Hlook & _).
      eapply elem_of_sublist; [|done]. by eapply list_elem_of_lookup_2.
    + split; [|done].
      exists (W ++ [(y, "live")]). rewrite HW, <- app_assoc.
      split; [done|]. apply Forall_app. split; [done|].
      apply Forall_singleton. left. split; [done|]. set_solver.
Qed.

(** When the pending hits and the hits of [unknown] are distinct objects:
    a hit of [unknown] is assigned ['replacement'] once if it leaves
    [unknown] and is not assigned otherwise; a pending hit is assigned
    ['live'] at most once; no other hit is assigned. *)
Lemma link_loop_writes_NoDup genes l s s' :
  NoDup l → NoDup (l_unknown s) → (∀ x, x ∈ l → x ∉ l_unknown s) →
  for_each (link_step E genes) l s = Ok s' →
  ∃ W, status_writes (l_heap s') = status_writes (l_heap s) ++ W
       ∧ (∀ x, x ∈ l_unknown s →
            writes_to x W
            = if decide (x ∈ l_unknown s') then [] else ["replacement"])
       ∧ (∀ x, x ∉ l_unknown s → x ∉ l → writes_to x W = [])
       ∧ (∀ x, x ∉ l_unknown s → x ∈ l →
            writes_to x W = []
            ∨ writes_to x W = ["live"] ∧ x ∈ l_lost s').
Proof.
  intros Hndl Hndu Hdisj Hrun.
  pose (P := λ (pre : list nat) (s1 : LinkState),
       (∃ W, status_writes (l_heap s1) = status_writes (l_heap s) ++ W
        ∧ (∀ x, x ∈ l_unknown s →
             writes_to x W
             = if decide (x ∈ l_unknown s1) then [] else ["replacement"])
        ∧ (∀ x, x ∉ l_unknown s → x ∉ pre → writes_to x W = [])
        ∧ (∀ x, x ∉ l_unknown s → x ∈ pre →
             writes_to x W = []
             ∨ writes_to x W = ["live"] ∧ x ∈ l_lost s1))
       ∧ l_unknown s1 `sublist_of` l_unknown s).
  cut (P l s'); [by intros [? _]|].
  apply (for_each_invariant (link_step E genes) P l s s'); [| |done];
    subst P; cbv beta.
  - split; [|done]. exists []. rewrite app_nil_r. repeat split; try done.
    + intros x Hx. by rewrite decide_True.
    + intros x _ Hx. by apply elem_of_nil in Hx.
  - intros pre y post s1 s2 Hl ((W & HW & Hunk & Hout & Hpre) & Hsub) Hstep.
    assert (y ∉ pre) as Hy_pre.
    { rewrite Hl in Hndl. apply NoDup_app in Hndl as (_ & Hd & _).
      intros Hy. apply (Hd y Hy). set_solver. }
    assert (y ∉ l_unknown s) as Hy_unk by (apply Hdisj; set_solver).
    assert (NoDup (l_unknown s1)) as Hnd1 by (by eapply sublist_NoDup).
    apply link_step_inv in Hstep as [_ Hstep].
    destruct Hstep as
      [(v & i & rep & _ & Hfind & -> & _ & _ & Hlost & ->)
      |(_ & -> & _ & _ & Hlost & ->)]; simpl.
    + apply list_find_Some in Hfind as (Hlook & _).
      assert (rep ∈ l_unknown s) as Hrep_unk.
      { eapply elem_of_sublist; [|done]. by eapply list_elem_of_lookup_2. }
      split; [|etrans; [apply sublist_delete | done]].
      exists (W ++ [(rep, "replacement")]). rewrite HW, <- app_assoc.
      split; [done|]. repeat split.
      * intros x Hx. rewrite writes_to_app, writes_to_singleton, (Hunk x Hx).
        destruct (decide (rep = x)) as [->|Hne].
        -- rewrite decide_True by (by eapply list_elem_of_lookup_2).
           rewrite decide_False; [done|].
           rewrite (elem_of_delete_NoDup _ _ _ _ Hnd1 Hlook). tauto.
        -- rewrite app_nil_r. destruct (decide (x ∈ l_unknown s1)) as [Hin|Hin].
           ++ rewrite decide_True; [done|].
              rewrite (elem_of_delete_NoDup _ _ _ _ Hnd1 Hlook). auto.
           ++ rewrite decide_False; [done|].
              rewrite (elem_of_delete_NoDup _ _ _ _ Hnd1 Hlook). tauto.
      * intros x Hx Hxpre. rewrite writes_to_app, writes_to_singleton.
        rewrite decide_False by (intros Heq; subst; contradiction).
        rewrite app_nil_r. apply Hout; [done|]. set_solver.
      * intros x Hx Hxpre. rewrite writes_to_app, writes_to_singleton.
        rewrite decide_False by (intros Heq; subst; contradiction).
        rewrite app_nil_r, Hlost.
        apply elem_of_app in Hxpre as [Hxpre| ->%list_elem_of_singleton].
        -- by apply Hpre.
        -- left. by apply Hout.
    + split; [|done].
      exists (W ++ [(y, "live")]). rewrite HW, <- app_assoc.
      split; [done|]. repeat split.
      * intros x Hx. rewrite writes_to_app, writes_to_singleton, (Hunk x Hx).
        assert (y ≠ x) as Hne by (intros Heq; subst; contradiction).
        rewrite (decide_False (P := y = x)) by done. by rewrite app_nil_r.
      * intros x Hx Hxpre. rewrite writes_to_app, writes_to_singleton.
        rewrite decide_False by set_solver.
        rewrite app_nil_r. apply Hout; [done|]. set_solver.
      * intros x Hx Hxpre. rewrite writes_to_app, writes_to_singleton, Hlost.
        destruct (decide (y = x)) as [->|Hne].
        -- right. rewrite (Hout x Hx Hy_pre). split; [done|]. set_solver.
        -- rewrite app_nil_r.
           destruct (Hpre x Hx) as [?|[? ?]]; [set_solver|auto|].
           right. split; [done|]. set_solver.
Qed.

(** ** Lines 130-145: the baseline date and the recency loop *)

Lemma recency_step_inv genes' date hit s s' :
  recency_step E genes' date hit s = Ok s' →
  ∃ t, resolved_date E genes' hit = Ok t
       ∧ (tuple_ltb t date = true
          ∧ r_new s' = r_new s ∧ r_old s' = r_old s ++ [hit]
          ∧ r_heap s' = set_status hit "strange" (r_heap s)
          ∨ tuple_ltb t date = false
            ∧ r_new s' = r_new s ++ [hit] ∧ r_old s' = r_old s
            ∧ r_heap s' = set_status hit "new" (r_heap s)).
Proof.
  unfold recency_step, resolved_date. intros H.
  apply bind_Ok_inv in H as (id0 & Hid & H).
  apply bind_Ok_inv in H as (rec & Hrec & H).
  apply bind_Ok_inv in H as (t & Ht & H).
  rewrite Hid. simpl. rewrite Hrec. simpl.
  exists t. split; [done|].
  destruct (tuple_ltb t date); injection H as <-; simpl; auto.
Qed.

Lemma recency_loop_spec genes' date l s s' :
  for_each (recency_step E genes' date) l s = Ok s' →
  r_new s' = r_new s ++ filter (λ x, recency E genes' date x = Some "new") l
  ∧ r_old s'
    = r_old s ++ filter (λ x, recency E genes' date x = Some "strange") l
  ∧ status_writes (r_heap s')
    = status_writes (r_heap s)
      ++ tagged (recency E genes' date) l
  ∧ (∀ x, x ∉ l → status (r_heap s') !! x = status (r_heap s) !! x)
  ∧ (∀ x, x ∈ l →
       ∃ t, resolved_date E genes' x = Ok t
            ∧ status (r_heap s') !! x = recency E genes' date x).
Proof.
  apply (for_each_invariant (recency_step E genes' date)
    (λ pre s1,
       r_new s1 = r_new s ++ filter (λ x, recency E genes' date x = Some "new") pre
       ∧ r_old s1
         = r_old s ++ filter (λ x, recency E genes' date x = Some "strange") pre
       ∧ status_writes (r_heap s1)
         = status_writes (r_heap s)
           ++ tagged (recency E genes' date) pre
       ∧ (∀ x, x ∉ pre → status (r_heap s1) !! x = status (r_heap s) !! x)
       ∧ (∀ x, x ∈ pre →
            ∃ t, resolved_date E genes' x = Ok t
                 ∧ status (r_heap s1) !! x = recency E genes' date x))).
  - simpl. rewrite !app_nil_r. repeat split; auto. intros x Hx.
    by apply elem_of_nil in Hx.
  - intros pre y post s1 s2 _ (Hn & Ho & Hw & Hout & Hin) Hstep.
    apply recency_step_inv in Hstep as (t & Ht & Hstep).
    assert (recency E genes' date y
            = Some (if tuple_ltb t date then "strange" else "new")) as Hrec
      by (unfold recency; by rewrite Ht).
    unfold tagged. rewrite !filter_app, !filter_cons, !filter_nil, omap_app.
    simpl.
    rewrite Hrec. simpl.
    destruct Hstep as [(Hlt & -> & -> & ->)|(Hlt & -> & -> & ->)];
      rewrite Hlt in *; simpl.
    + rewrite app_nil_r, Hn, Ho, Hw, <- !app_assoc.
      repeat split; try done.
      * intros x Hx. rewrite lookup_insert_ne by set_solver.
        apply Hout. set_solver.
      * intros x [Hx| ->%list_elem_of_singleton]%elem_of_app.
        -- destruct (Hin x Hx) as (t' & Ht' & Hst). exists t'.
           split; [done|]. destruct (decide (y = x)) as [->|Hne].
           ++ by rewrite lookup_insert_eq.
           ++ by rewrite lookup_insert_ne.
        -- exists t. by rewrite lookup_insert_eq.
    + rewrite app_nil_r, Hn, Ho, Hw, <- !app_assoc.
      repeat split; try done.
      * intros x Hx. rewrite lookup_insert_ne by set_solver.
        apply Hout. set_solver.
      * intros x [Hx| ->%list_elem_of_singleton]%elem_of_app.
        -- destruct (Hin x Hx) as (t' & Ht' & Hst). exists t'.
           split; [done|]. destruct (decide (y = x)) as [->|Hne].
           ++ by rewrite lookup_insert_eq.
           ++ by rewrite lookup_insert_ne.
        -- exists t. by rewrite lookup_insert_eq.
Qed.

Lemma parse_dates_inv l ts :
  parse_dates E l = Ok ts →
  Forall2 (λ rec t, strptime E (CreateDate rec) "%Y/%m/%d" = Some t) l ts.
Proof.
  revert ts. induction l as [|rec l IH]; intros ts; simpl.
  - intros [= <-]. constructor.
  - intros H. apply bind_Ok_inv in H as (t & Ht & H).
    apply bind_Ok_inv in H as (ts' & Hts & H). injection H as <-.
    constructor; [|by apply IH].
    unfold parse_date in Ht. by destruct (strptime _ _ _) as [t'|]; simplify_eq.
Qed.

(** The baseline is the creation date of a record of the mapping, and no
    record of the mapping was created later. *)
Lemma baseline_spec genes date :
  baseline E genes = Ok date →
  (∃ k rec, genes !! k = Some rec
            ∧ strptime E (CreateDate rec) "%Y/%m/%d" = Some date)
  ∧ (∀ k rec, genes !! k = Some rec →
       ∃ t, strptime E (CreateDate rec) "%Y/%m/%d" = Some t
            ∧ tuple_ltb date t = false).
Proof.
  unfold baseline. intros H. apply bind_Ok_inv in H as (ts & Hts & Hmax).
  apply parse_dates_inv in Hts. apply py_max_spec in Hmax as [Hin Hub].
  split.
  - apply list_elem_of_lookup in Hin as [i Hi].
    destruct (Forall2_lookup_r _ _ _ _ _ Hts Hi) as (rec & Hrec & Hparse).
    unfold values in Hrec. apply list_lookup_fmap_Some in Hrec
      as ([k rec'] & -> & Hkv). simpl in *.
    exists k, rec'. split; [|done].
    apply elem_of_map_to_list. by eapply list_elem_of_lookup_2.
  - intros k rec Hk. apply elem_of_map_to_list in Hk.
    assert (rec ∈ values genes) as Hrec.
    { unfold values. apply list_elem_of_fmap. by exists (k, rec). }
    apply list_elem_of_lookup in Hrec as [i Hi].
    destruct (Forall2_lookup_l _ _ _ _ _ Hts Hi) as (t & Ht & Hparse).
    exists t. split; [done|]. apply Hub. by eapply list_elem_of_lookup_2.
Qed.

Lemma baseline_empty : baseline E ∅ = Raise ValueError.
Proof. unfold baseline, values. by rewrite map_to_list_empty. Qed.

(** ** The phases of [compare] *)

(** [compare] as the sequence of its phases. *)
Lemma compare_unfold (self : CompareBLASTs) (h0 : Heap) :
  compare E self h0
  = (let new_p := partition_side E (input_new_hits self) (input_old_hits self) in
     let old_p := partition_side E (input_old_hits self) (input_new_hits self) in
     genes ← get_idlist E (input_old_hits self) (email self);
     oh ← for_each (classify_old E genes) (p_unknown old_p) (empty_oldOnly, h0);
     ls ← for_each (link_step E genes) (replaced oh.1) (init_link new_p oh.1 oh.2);
     genes' ← get_idlist E (l_unknown ls) (email self);
     date ← baseline E genes;
     rs ← for_each (recency_step E genes' date) (l_unknown ls)
            {| r_new := []; r_old := []; r_heap := l_heap ls |};
     Ok {| new_hits :=
             {| new_all := input_new_hits self;
                new_unknown := l_unknown ls;
                new_same := p_same new_p;
                new_similar := p_similar new_p;
                new_replacement := l_new_replacement ls;
                new_new := r_new rs;
                new_old := r_old rs |};
           old_hits :=
             {| old_all := input_old_hits self;
                old_unknown := p_unknown old_p;
                old_same := p_same old_p;
                old_similar := p_similar old_p;
                old_lost := l_lost ls;
                old_suppressed := suppressed oh.1;
                old_replacement := l_old_replacement ls |};
           oldGeneIDs := genes;
           newGeneIDs := genes';
           date_oldsearch := date;
           store := r_heap rs;
           resolver_calls := [input_old_hits self; l_unknown ls] |}).
Proof.
  unfold compare, call_get_idlist. cbn [compare_blasts fst snd].
  change (p_all (partition_side E (input_old_hits self) (input_new_hits self)))
    with (input_old_hits self).
  change (p_all (partition_side E (input_new_hits self) (input_old_hits self)))
    with (input_new_hits self).
  cbv zeta.
  destruct (get_idlist E (input_old_hits self) (email self)) as [genes|e];
    [|done]. cbn [mbind result_bind fst snd].
  destruct (for_each (classify_old E genes) _ _) as [oh|e]; [|done].
  cbn [mbind result_bind fst snd].
  destruct (for_each (link_step E genes) _ _) as [ls|e]; [|done].
  cbn [mbind result_bind fst snd].
  destruct (get_idlist E (l_unknown ls) (email self)) as [genes'|e]; [|done].
  cbn [mbind result_bind fst snd].
  destruct (baseline E genes) as [date|e]; [|done].
  cbn [mbind result_bind fst snd].
  destruct (for_each (recency_step E genes' date) _ _) as [rs|e]; done.
Qed.

Lemma compare_inv self h0 c :
  compare E self h0 = Ok c →
  let new_p := partition_side E (input_new_hits self) (input_old_hits self) in
  let old_p := partition_side E (input_old_hits self) (input_new_hits self) in
  ∃ genes o h1 ls genes' date rs,
    get_idlist E (input_old_hits self) (email self) = Ok genes
    ∧ for_each (classify_old E genes) (p_unknown old_p) (empty_oldOnly, h0)
      = Ok (o, h1)
    ∧ for_each (link_step E genes) (replaced o) (init_link new_p o h1) = Ok ls
    ∧ get_idlist E (l_unknown ls) (email self) = Ok genes'
    ∧ baseline E genes = Ok date
    ∧ for_each (recency_step E genes' date) (l_unknown ls)
        {| r_new := []; r_old := []; r_heap := l_heap ls |} = Ok rs
    ∧ c = {| new_hits :=
               {| new_all := input_new_hits self;
                  new_unknown := l_unknown ls;
                  new_same := p_same new_p;
                  new_similar := p_similar new_p;
                  new_replacement := l_new_replacement ls;
                  new_new := r_new rs;
                  new_old := r_old rs |};
             old_hits :=
               {| old_all := input_old_hits self;
                  old_unknown := p_unknown old_p;
                  old_same := p_same old_p;
                  old_similar := p_similar old_p;
                  old_lost := l_lost ls;
                  old_suppressed := suppressed o;
                  old_replacement := l_old_replacement ls |};
             oldGeneIDs := genes;
             newGeneIDs := genes';
             date_oldsearch := date;
             store := r_heap rs;
             resolver_calls := [input_old_hits self; l_unknown ls] |}.
Proof.
  unfold compare, call_get_idlist. intros H. simpl in H.
  apply bind_Ok_inv in H as ([genes calls] & Hg & H).
  apply bind_Ok_inv in Hg as (genes0 & Hg & [= <- <-]).
  apply bind_Ok_inv in H as ([o h1] & Hc & H).
  apply bind_Ok_inv in H as (ls & Hl & H).
  apply bind_Ok_inv in H as ([genes' calls'] & Hg' & H).
  apply bind_Ok_inv in Hg' as (genes1 & Hg' & [= <- <-]).
  apply bind_Ok_inv in H as (date & Hd & H).
  apply bind_Ok_inv in H as (rs & Hr & H).
  injection H as <-. simpl in *.
  exists genes0, o, h1, ls, genes1, date, rs. auto 10.
Qed.

End EngineFacts.

(** ** Partition completeness (C1, C7) *)

Section Partition.

Context (E : Collaborators).

Lemma with_fate_perm genes (l : list nat) :
  (∀ hit, hit ∈ l →
     ∃ st, fate E genes hit = Some st
           ∧ (st = "live" ∨ st = "replaced" ∨ st = "suppressed")) →
  l ≡ₚ with_fate E genes "live" l ++ with_fate E genes "replaced" l
        ++ with_fate E genes "suppressed" l.
Proof.
  unfold with_fate. induction l as [|x l IH]; intros Hall; [done|].
  destruct (Hall x) as (st & Hst & Hcase); [set_solver|].
  rewrite !filter_cons, Hst.
  assert (l ≡ₚ filter (λ hit, fate E genes hit = Some "live") l
             ++ filter (λ hit, fate E genes hit = Some "replaced") l
             ++ filter (λ hit, fate E genes hit = Some "suppressed") l) as IH'
    by (apply IH; intros; apply Hall; set_solver).
  destruct Hcase as [-> | [-> | ->]]; simpl.
  - by constructor.
  - rewrite <- Permutation_middle. by constructor.
  - rewrite app_assoc, <- Permutation_middle, <- app_assoc. by constructor.
Qed.

Lemma recency_filter_perm genes' date (l : list nat) :
  (∀ hit, hit ∈ l → ∃ t, resolved_date E genes' hit = Ok t) →
  l ≡ₚ filter (λ x, recency E genes' date x = Some "new") l
        ++ filter (λ x, recency E genes' date x = Some "strange") l.
Proof.
  induction l as [|x l IH]; intros Hall; [done|].
  destruct (Hall x) as (t & Ht); [set_solver|].
  assert (recency E genes' date x
          = Some (if tuple_ltb t date then "strange" else "new")) as Hrec
    by (unfold recency; by rewrite Ht).
  rewrite !filter_cons, Hrec.
  assert (l ≡ₚ filter (λ x, recency E genes' date x = Some "new") l
             ++ filter (λ x, recency E genes' date x = Some "strange") l) as IH'
    by (apply IH; intros; apply Hall; set_solver).
  destruct (tuple_ltb t date); simpl.
  - rewrite <- Permutation_middle. by constructor.
  - by constructor.
Qed.

(** The old side after the first loop: the hits with a ['gi'] identifier
    are spread over the three lists of [oldOnly], the others are in none. *)
Lemma classify_loop_members genes l o h hit :
  for_each (classify_old E genes) l (empty_oldOnly, h) = Ok o →
  hit ∈ live o.1 ++ replaced o.1 ++ suppressed o.1 →
  hit ∈ l ∧ canonical_id (heap E hit) ≠ None.
Proof.
  destruct o as [o h']. intros Hrun Hin.
  apply classify_loop_spec in Hrun as (Hl & Hr & Hs & _).
  simpl in *. rewrite Hl, Hr, Hs in Hin. unfold with_fate in Hin.
  assert (∃ st, hit ∈ filter (λ x, fate E genes x = Some st) l)
    as [st [Hf Hhit]%list_elem_of_filter] by set_solver.
  split; [done|]. intros Hnone.
  by rewrite (fate_None_of_no_gi E genes hit Hnone) in Hf.
Qed.

End Partition.

(** C1, as amended.  When [compare] returns and every unmatched old hit
    has a ['gi'] identifier, each side's [all] bucket is a permutation of
    that side's terminal buckets put end to end (old: same, similar, lost,
    replacement, suppressed; new: same, similar, replacement, new, old), so
    the sizes add up; and when the hits given are distinct objects, no hit
    occurs twice in the terminal buckets of its side. *)
Theorem partition_completeness (E : Collaborators) (self : CompareBLASTs)
    (h0 : Heap) (c : Compared) :
  compare E self h0 = Ok c →
  (∀ hit, hit ∈ old_unknown (old_hits c) →
     canonical_id (heap E hit) ≠ None) →
  old_all (old_hits c) ≡ₚ old_terminal c
  ∧ new_all (new_hits c) ≡ₚ new_terminal c
  ∧ length (old_all (old_hits c))
    = length (old_same (old_hits c)) + length (old_similar (old_hits c))
      + length (old_lost (old_hits c)) + length (old_replacement (old_hits c))
      + length (old_suppressed (old_hits c))
  ∧ length (new_all (new_hits c))
    = length (new_same (new_hits c)) + length (new_similar (new_hits c))
      + length (new_replacement (new_hits c)) + length (new_new (new_hits c))
      + length (new_old (new_hits c))
  ∧ (NoDup (old_all (old_hits c)) → NoDup (old_terminal c))
  ∧ (NoDup (new_all (new_hits c)) → NoDup (new_terminal c)).
Proof.
  intros Hrun Hgi.
  apply compare_inv in Hrun
    as (genes & o & h1 & ls & genes' & date & rs
        & Hg & Hc & Hl & Hg' & Hd & Hr & ->).
  cbn [old_hits old_unknown] in Hgi.
  set (new_p := partition_side E (input_new_hits self) (input_old_hits self))
    in *.
  set (old_p := partition_side E (input_old_hits self) (input_new_hits self))
    in *.
  pose proof (partition_side_perm E (input_old_hits self)
                (input_new_hits self)) as Hpo.
  pose proof (partition_side_perm E (input_new_hits self)
                (input_old_hits self)) as Hpn.
  fold old_p in Hpo. fold new_p in Hpn.
  change (p_all old_p) with (input_old_hits self) in Hpo.
  change (p_all new_p) with (input_new_hits self) in Hpn.
  clearbody old_p new_p.
  assert (input_old_hits self
          ≡ₚ p_same old_p ++ p_similar old_p ++ l_lost ls
              ++ l_old_replacement ls ++ suppressed o) as Hold.
  { etrans; [exact Hpo|].
    do 2 apply Permutation_app_head.
    pose proof (classify_loop_spec E _ _ _ _ _ _ Hc)
      as (Hlive & Hrep & Hsup & _ & _ & Hfate).
    simpl in Hlive, Hrep, Hsup.
    apply link_loop_perm in Hl as (_ & Hlost & _). simpl in Hlost.
    rewrite app_assoc, Hlost.
    rewrite (with_fate_perm E genes (p_unknown old_p)).
    - apply reflexive_eq. simpl. rewrite Hlive, Hrep, Hsup.
      by rewrite <- app_assoc.
    - intros hit Hhit. destruct (Hfate hit Hhit) as [Hno|(st & ? & ? & _)];
        [by destruct (Hgi hit Hhit) | eauto]. }
  assert (input_new_hits self
          ≡ₚ p_same new_p ++ p_similar new_p ++ l_new_replacement ls
              ++ r_new rs ++ r_old rs) as Hnew.
  { etrans; [exact Hpn|].
    do 2 apply Permutation_app_head.
    apply link_loop_perm in Hl as (Hunk & _ & _). simpl in Hunk.
    rewrite app_nil_r in Hunk. rewrite <- Hunk.
    rewrite Permutation_app_comm. apply Permutation_app_head.
    apply recency_loop_spec in Hr as (-> & -> & _ & _ & Hres). simpl.
    apply recency_filter_perm. intros hit Hhit.
    destruct (Hres hit Hhit) as (t & ? & _). eauto. }
  unfold old_terminal, new_terminal. simpl.
  split; [done|]. split; [done|]. split; [|split; [|split]].
  - rewrite Hold at 1. rewrite !length_app. lia.
  - rewrite Hnew at 1. rewrite !length_app. lia.
  - intros Hnd. by rewrite <- Hold.
  - intros Hnd. by rewrite <- Hnew.
Qed.

Lemma partition_completeness_witness :
  old_all (old_hits Fixture.scenario_c) ≡ₚ old_terminal Fixture.scenario_c
  ∧ new_all (new_hits Fixture.scenario_c) ≡ₚ new_terminal Fixture.scenario_c
  ∧ length (old_all (old_hits Fixture.scenario_c)) = 3.
Proof.
  destruct (partition_completeness Fixture.env Fixture.scenario Fixture.fresh
              Fixture.scenario_c) as (Ho & Hn & _).
  - by vm_compute.
  - apply Forall_forall. by apply (bool_decide_unpack _).
  - done.
Defined.

(** C1 as stated does not hold: an unmatched old hit without ['gi']
    identifier is put in no terminal bucket, and the sizes do not add up. *)
Lemma partition_completeness_counterexample :
  ∃ c, compare Fixture.env Fixture.old_without_gi Fixture.fresh = Ok c
       ∧ 6 ∈ old_all (old_hits c)
       ∧ (6 ∉ old_terminal c)
       ∧ length (old_all (old_hits c)) = 2
       ∧ length (old_same (old_hits c)) + length (old_similar (old_hits c))
         + length (old_lost (old_hits c))
         + length (old_replacement (old_hits c))
         + length (old_suppressed (old_hits c)) = 1.
Proof.
  eexists. split; [by vm_compute|]. vm_compute.
  repeat split; [set_solver|]. intros Hin.
  apply list_elem_of_singleton in Hin. discriminate.
Qed.

(** ** Hits without canonical identifier (C7) *)

Section Tagged.

Context (f : nat → option string).

Lemma writes_to_tagged_none (l : list nat) (x : nat) :
  x ∉ l ∨ f x = None → writes_to x (tagged f l) = [].
Proof.
  intros Hx. induction l as [|y l IH]; [done|].
  unfold tagged, writes_to in *. simpl.
  assert (x ∉ l ∨ f x = None) as Hx'
    by (destruct Hx; [left; set_solver | by right]).
  destruct (f y) as [st|] eqn:Hfy; simpl; [|by apply IH].
  rewrite filter_cons. simpl. rewrite decide_False; [by apply IH|].
  intros ->. destruct Hx; [set_solver | congruence].
Qed.

Lemma writes_to_tagged_NoDup (l : list nat) (x : nat) :
  NoDup l → x ∈ l → writes_to x (tagged f l) = option_list (f x).
Proof.
  induction l as [|y l IH]; intros Hnd Hx; [by apply elem_of_nil in Hx|].
  apply NoDup_cons in Hnd as [Hy Hnd].
  change (y :: l) with ([y] ++ l). unfold tagged at 1. rewrite omap_app.
  fold (tagged f [y]). fold (tagged f l). rewrite writes_to_app.
  apply elem_of_cons in Hx as [->|Hx].
  - rewrite (writes_to_tagged_none l y) by auto. rewrite app_nil_r.
    unfold tagged, writes_to. simpl. destruct (f y) as [st|]; simpl; [|done].
    rewrite filter_cons. simpl. by rewrite decide_True.
  - rewrite (writes_to_tagged_none [y] x), IH; [done..|].
    left. set_solver.
Qed.

End Tagged.

Section WithoutGi.

Context (E : Collaborators).

Lemma classify_old_no_gi genes hit s :
  canonical_id (heap E hit) = None → classify_old E genes hit s = Ok s.
Proof.
  unfold canonical_id, classify_old.
  induction (ids (heap E hit)) as [|i l IH]; simpl; [done|].
  destruct (decide (db i = "gi")) as [Hdb|Hdb].
  - by rewrite bool_decide_eq_true_2.
  - rewrite bool_decide_eq_false_2 by done. apply IH.
Qed.

End WithoutGi.

(** C7, as amended.  In a run of [compare] that returns, an unmatched old
    hit without ['gi'] identifier is skipped by the classification loop,
    which does not raise on it; the hit is in none of the buckets [lost],
    [suppressed] and [replacement], and (when it is not also given as a new
    hit) its status is not assigned: the hit is not flagged. *)
Theorem old_hit_without_gi_skipped (E : Collaborators) (self : CompareBLASTs)
    (h0 : Heap) (c : Compared) (hit : nat) :
  compare E self h0 = Ok c →
  hit ∈ old_unknown (old_hits c) →
  canonical_id (heap E hit) = None →
  (∀ genes s, classify_old E genes hit s = Ok s)
  ∧ (hit ∉ old_lost (old_hits c))
  ∧ (hit ∉ old_suppressed (old_hits c))
  ∧ (hit ∉ old_replacement (old_hits c))
  ∧ (hit ∉ input_new_hits self →
     status (store c) !! hit = status h0 !! hit
     ∧ writes_to hit (status_writes (store c))
       = writes_to hit (status_writes h0)).
Proof.
  intros Hrun Hunk Hno.
  split; [intros; by apply classify_old_no_gi|].
  apply compare_inv in Hrun
    as (genes & o & h1 & ls & genes' & date & rs
        & Hg & Hc & Hl & Hg' & Hd & Hr & ->).
  cbn [old_hits old_unknown old_lost old_suppressed old_replacement store]
    in *.
  set (new_p := partition_side E (input_new_hits self) (input_old_hits self))
    in *.
  assert (p_unknown new_p `sublist_of` input_new_hits self) as Hsubn
    by apply partition_side_unknown_sublist.
  clearbody new_p.
  assert (hit ∉ live o ++ replaced o ++ suppressed o) as Hnotin.
  { intros Hin.
    by destruct (classify_loop_members E genes _ (o, h1) h0 hit Hc Hin). }
  pose proof (link_loop_perm E _ _ _ _ Hl) as (_ & Hlost & Hsub).
  cbn [init_link l_lost l_old_replacement l_unknown] in Hlost, Hsub.
  assert (hit ∉ l_lost ls ++ l_old_replacement ls) as Hnotin2.
  { rewrite Hlost. set_solver. }
  split; [set_solver|]. split; [set_solver|]. split; [set_solver|].
  intros Hnew.
  assert (hit ∉ p_unknown new_p) as Hnu
    by (intros Hin; apply Hnew; by eapply elem_of_sublist).
  assert (hit ∉ l_unknown ls) as Hnu'
    by (intros Hin; apply Hnu; by eapply elem_of_sublist).
  pose proof (fate_None_of_no_gi E genes hit Hno) as Hfate.
  pose proof (classify_loop_spec E _ _ _ _ _ _ Hc)
    as (_ & _ & _ & Hw1 & Hst1 & _).
  pose proof (recency_loop_spec E _ _ _ _ _ Hr) as (_ & _ & Hw3 & Hst3 & _).
  cbn [r_heap] in Hw3, Hst3.
  split.
  - rewrite (Hst3 hit Hnu').
    destruct (link_loop_status E _ _ _ _ hit Hl) as [->|[[_ Hin]|[_ Hin]]].
    + cbn [init_link l_heap]. apply Hst1. by right.
    + exfalso. apply Hnotin. set_solver.
    + done.
  - rewrite Hw3, writes_to_app.
    rewrite (writes_to_tagged_none (recency E genes' date)) by auto.
    rewrite app_nil_r.
    destruct (link_loop_writes E _ _ _ _ Hl) as (W & -> & HW).
    cbn [init_link l_heap l_unknown] in *. unfold fate_writes in Hw1.
    rewrite Hw1, !writes_to_app.
    rewrite (writes_to_tagged_none (fate E genes)) by auto.
    rewrite app_nil_r.
    assert (writes_to hit W = []) as ->; [|by rewrite app_nil_r].
    apply writes_to_none.
    eapply Forall_impl; [exact HW|]. intros [x st] Hx Heq. simpl in *.
    subst x.
    destruct Hx as [[_ Hin]|[_ Hin]]; [|done].
    apply Hnotin. set_solver.
Qed.

Lemma old_hit_without_gi_skipped_witness :
  (6 ∉ old_lost (old_hits Fixture.old_without_gi_c))
  ∧ status (store Fixture.old_without_gi_c) !! 6 = None.
Proof.
  destruct (old_hit_without_gi_skipped Fixture.env Fixture.old_without_gi
              Fixture.fresh Fixture.old_without_gi_c 6)
    as (_ & Hlost & _ & _ & Hst).
  - by vm_compute.
  - by apply (bool_decide_unpack _).
  - by vm_compute.
  - split; [done|]. destruct Hst as [-> _]; [|done].
    by apply (bool_decide_unpack _).
Defined.

(** C7 as stated does not hold.  An unmatched old hit without ['gi']
    identifier is skipped silently: after the run it is in no result
    bucket and its status was never assigned, so nothing flags it (and the
    tally that follows raises on its unset status).  For an unmatched new
    hit without ['gi'] identifier, [compare] raises [KeyError]. *)
Lemma missing_canonical_id_counterexample :
  (canonical_id (heap Fixture.env 6) = None
   ∧ compare Fixture.env Fixture.old_without_gi Fixture.fresh
     = Ok Fixture.old_without_gi_c
   ∧ 6 ∈ old_unknown (old_hits Fixture.old_without_gi_c)
   ∧ (6 ∉ old_terminal Fixture.old_without_gi_c)
   ∧ status (store Fixture.old_without_gi_c) !! 6 = None
   ∧ writes_to 6 (status_writes (store Fixture.old_without_gi_c)) = []
   ∧ tally Fixture.old_without_gi_c 0 = Raise KeyError)
  ∧ (canonical_id (heap Fixture.env 7) = None
     ∧ 7 ∈ input_new_hits Fixture.new_without_gi
     ∧ compare Fixture.env Fixture.new_without_gi Fixture.fresh
       = Raise KeyError).
Proof.
  repeat split; try (by vm_compute); by apply (bool_decide_unpack _).
Qed.

(** ** The replacement linker (C2, C3) *)

Section Linker.

Context (E : Collaborators).

Lemma link_loop_unknown_sublist genes l s s' :
  for_each (link_step E genes) l s = Ok s' →
  l_unknown s' `sublist_of` l_unknown s.
Proof. intros H. by apply link_loop_perm in H as (_ & _ & ?). Qed.

(** A hit that is not in [unknown] keeps its status through the recency
    loop, and is put in neither of its buckets. *)
Lemma recency_loop_untouched genes' date l h rs x :
  for_each (recency_step E genes' date) l
    {| r_new := []; r_old := []; r_heap := h |} = Ok rs →
  x ∉ l →
  status (r_heap rs) !! x = status h !! x ∧ (x ∉ r_new rs) ∧ (x ∉ r_old rs).
Proof.
  intros Hrun Hx.
  apply recency_loop_spec in Hrun as (Hn & Ho & _ & Hst & _).
  cbn [r_new r_old r_heap] in *. rewrite Hn, Ho. simpl.
  split; [by apply Hst|].
  split; intros [_ ?]%list_elem_of_filter; done.
Qed.

End Linker.

(** C2.  The loop of lines 102-104 has no [break]: it looks up every
    ['gi'] identifier of the hit, where the loop of lines 88-92 stops at
    the first.  An unmatched old hit with the identifiers [gi 500; gi 999],
    whose directory status (read under 500) is ['replaced'] and whose
    declared replacement 501 is absent from the new side's [unknown]
    bucket, is therefore not reclassified: [compare] raises [KeyError] at
    line 104, on the second identifier, which the mapping does not hold. *)
Theorem stale_replacement_second_gi_raises :
  ∃ genes,
    get_idlist Fixture.env [12] "test@test.com" = Ok genes
    ∧ ids (heap Fixture.env 12) = [Fixture.gi "500"; Fixture.gi "999"]
    ∧ p_unknown (partition_side Fixture.env [12] []) = [12]
    ∧ fate Fixture.env genes 12 = Some "replaced"
    ∧ directory_replacement genes (heap Fixture.env 12) = Some "501"
    ∧ p_unknown (partition_side Fixture.env [] [12]) = []
    ∧ compare Fixture.env Fixture.second_gi_unresolved Fixture.fresh
      = Raise KeyError.
Proof.
  eexists. split; [vm_compute; reflexivity|].
  repeat split; vm_compute; reflexivity.
Qed.

(** C3.  For the same reason the replacement identifier the loop of lines
    102-104 leaves in [new_id] is the one declared for the last ['gi']
    identifier of the hit.  An unmatched old hit with the identifiers
    [gi 200; gi 500] has the directory status ['replaced'] and the declared
    replacement 201; the new hit 4 carries 201, is in the new side's
    [unknown] bucket and is judged the same by the attribute-only
    comparison.  [compare] looks for 501 instead, links nothing, and puts
    the old hit in [lost] with status ['live'] and the new hit in [new]. *)
Theorem replacement_missed_second_gi :
  ∃ genes,
    get_idlist Fixture.env [13; 8] "test@test.com" = Ok genes
    ∧ ids (heap Fixture.env 13) = [Fixture.gi "200"; Fixture.gi "500"]
    ∧ p_unknown (partition_side Fixture.env [13; 8] [4]) = [13; 8]
    ∧ fate Fixture.env genes 13 = Some "replaced"
    ∧ directory_replacement genes (heap Fixture.env 13) = Some "201"
    ∧ p_unknown (partition_side Fixture.env [4] [13; 8]) = [4]
    ∧ qualifies Fixture.env 13 "201" 4
    ∧ compare Fixture.env Fixture.second_gi_decides Fixture.fresh
      = Ok Fixture.second_gi_decides_c
    ∧ old_replacement (old_hits Fixture.second_gi_decides_c) = []
    ∧ new_replacement (new_hits Fixture.second_gi_decides_c) = []
    ∧ old_lost (old_hits Fixture.second_gi_decides_c) = [13; 8]
    ∧ status (store Fixture.second_gi_decides_c) !! 13 = Some "live"
    ∧ new_unknown (new_hits Fixture.second_gi_decides_c) = [4]
    ∧ new_new (new_hits Fixture.second_gi_decides_c) = [4]
    ∧ status (store Fixture.second_gi_decides_c) !! 4 = Some "new".
Proof.
  eexists. split; [vm_compute; reflexivity|].
  do 5 (split; [vm_compute; reflexivity|]).
  split; [by apply (bool_decide_unpack _)|].
  repeat split; vm_compute; reflexivity.
Qed.

(** ** Recency classification, resolver calls and the baseline (C4, C5, C10) *)

(** C4.  In a run of [compare] that returns, every hit left in the new
    side's [unknown] bucket after the replacement loop has a creation date
    [t], read from the second mapping under its first identifier.  If [t]
    is strictly earlier than the baseline date the hit is in the new side's
    [old] bucket, not in [new], with status ['strange']; if [t] is the
    baseline date or later the hit is in [new], not in [old], with status
    ['new'].  The baseline is the latest creation date among the records of
    the first mapping. *)
Theorem recency_classification (E : Collaborators) (self : CompareBLASTs)
    (h0 : Heap) (c : Compared) (hit : nat) :
  compare E self h0 = Ok c →
  hit ∈ new_unknown (new_hits c) →
  ∃ t,
    resolved_date E (newGeneIDs c) hit = Ok t
    ∧ (tuple_ltb t (date_oldsearch c) = true →
       hit ∈ new_old (new_hits c) ∧ (hit ∉ new_new (new_hits c))
       ∧ status (store c) !! hit = Some "strange")
    ∧ (t = date_oldsearch c ∨ tuple_ltb (date_oldsearch c) t = true →
       hit ∈ new_new (new_hits c) ∧ (hit ∉ new_old (new_hits c))
       ∧ status (store c) !! hit = Some "new")
    ∧ (∃ k rec, oldGeneIDs c !! k = Some rec
                ∧ strptime E (CreateDate rec) "%Y/%m/%d"
                  = Some (date_oldsearch c))
    ∧ (∀ k rec, oldGeneIDs c !! k = Some rec →
         ∃ t', strptime E (CreateDate rec) "%Y/%m/%d" = Some t'
               ∧ tuple_ltb (date_oldsearch c) t' = false).
Proof.
  intros Hrun Hhit.
  apply compare_inv in Hrun
    as (genes & o & h1 & ls & genes' & date & rs
        & Hg & Hc & Hl & Hg' & Hd & Hr & ->).
  cbn [new_hits new_unknown new_new new_old store newGeneIDs oldGeneIDs
       date_oldsearch] in *.
  apply recency_loop_spec in Hr as (Hn & Ho & _ & _ & Hst).
  cbn [r_new r_old] in Hn, Ho. rewrite app_nil_l in Hn, Ho.
  destruct (Hst hit Hhit) as (t & Ht & Hstatus).
  assert (recency E genes' date hit
          = Some (if tuple_ltb t date then "strange" else "new")) as Hrec
    by (unfold recency; by rewrite Ht).
  exists t. split; [done|]. rewrite Hn, Ho, Hstatus, Hrec.
  split; [|split; [|by apply baseline_spec]].
  - intros Hlt. rewrite Hlt. split; [|split; [|done]].
    + apply list_elem_of_filter. by rewrite Hrec, Hlt.
    + intros [Hf _]%list_elem_of_filter. by rewrite Hrec, Hlt in Hf.
  - intros Hge.
    assert (tuple_ltb t date = false) as Hlt.
    { destruct Hge as [->|Hgt]; [apply tuple_ltb_irrefl|].
      by apply tuple_ltb_asym. }
    rewrite Hlt. split; [|split; [|done]].
    + apply list_elem_of_filter. by rewrite Hrec, Hlt.
    + intros [Hf _]%list_elem_of_filter. by rewrite Hrec, Hlt in Hf.
Qed.

Lemma recency_classification_witness :
  (* created after the baseline *)
  (5 ∈ new_new (new_hits Fixture.stale_c)
   ∧ status (store Fixture.stale_c) !! 5 = Some "new")
  (* created on the day of the baseline *)
  ∧ (10 ∈ new_new (new_hits Fixture.stale_c)
     ∧ status (store Fixture.stale_c) !! 10 = Some "new")
  (* created before the baseline *)
  ∧ (9 ∈ new_old (new_hits Fixture.stale_c)
     ∧ status (store Fixture.stale_c) !! 9 = Some "strange").
Proof.
  assert (compare Fixture.env Fixture.stale Fixture.fresh
          = Ok Fixture.stale_c) as Hrun by (by vm_compute).
  split; [|split].
  - destruct (recency_classification Fixture.env Fixture.stale Fixture.fresh
                Fixture.stale_c 5 Hrun) as (t & Ht & _ & Hnew & _).
    { by apply (bool_decide_unpack _). }
    vm_compute in Ht. injection Ht as <-.
    destruct Hnew as (Hin & _ & Hst); [right; vm_compute; reflexivity|].
    exact (conj Hin Hst).
  - destruct (recency_classification Fixture.env Fixture.stale Fixture.fresh
                Fixture.stale_c 10 Hrun) as (t & Ht & _ & Hnew & _).
    { by apply (bool_decide_unpack _). }
    vm_compute in Ht. injection Ht as <-.
    destruct Hnew as (Hin & _ & Hst); [left; vm_compute; reflexivity|].
    exact (conj Hin Hst).
  - destruct (recency_classification Fixture.env Fixture.stale Fixture.fresh
                Fixture.stale_c 9 Hrun) as (t & Ht & Hold & _).
    { by apply (bool_decide_unpack _). }
    vm_compute in Ht. injection Ht as <-.
    destruct Hold as (Hin & _ & Hst); [vm_compute; reflexivity|].
    exact (conj Hin Hst).
Defined.

(** C5, as amended.  A run of [compare] that returns has called the
    resolver exactly twice: first on all the old hits (the old side's [all]
    bucket, matched hits included), then on the new side's [unknown] bucket
    as the replacement loop left it.  The two mappings are what these calls
    returned, and the baseline date is the latest creation date among the
    records of the first. *)
Theorem resolver_called_twice (E : Collaborators) (self : CompareBLASTs)
    (h0 : Heap) (c : Compared) :
  compare E self h0 = Ok c →
  resolver_calls c = [old_all (old_hits c); new_unknown (new_hits c)]
  ∧ get_idlist E (old_all (old_hits c)) (email self) = Ok (oldGeneIDs c)
  ∧ get_idlist E (new_unknown (new_hits c)) (email self) = Ok (newGeneIDs c)
  ∧ (∃ k rec, oldGeneIDs c !! k = Some rec
              ∧ strptime E (CreateDate rec) "%Y/%m/%d"
                = Some (date_oldsearch c))
  ∧ (∀ k rec, oldGeneIDs c !! k = Some rec →
       ∃ t, strptime E (CreateDate rec) "%Y/%m/%d" = Some t
            ∧ tuple_ltb (date_oldsearch c) t = false).
Proof.
  intros Hrun.
  apply compare_inv in Hrun
    as (genes & o & h1 & ls & genes' & date & rs
        & Hg & Hc & Hl & Hg' & Hd & Hr & ->).
  cbn [new_hits new_unknown old_hits old_all resolver_calls newGeneIDs
       oldGeneIDs date_oldsearch].
  do 3 (split; [done|]). by apply baseline_spec.
Qed.

Lemma resolver_called_twice_witness :
  resolver_calls Fixture.stale_c = [[0; 8]; [5; 10; 9]].
Proof.
  destruct (resolver_called_twice Fixture.env Fixture.stale Fixture.fresh
              Fixture.stale_c) as (Hcalls & _).
  - by vm_compute.
  - rewrite Hcalls. by vm_compute.
Defined.

(** C5 as stated does not hold: in the scenario of the specification the
    first call of the resolver receives the three old hits, of which only
    two are unmatched, and the baseline is the creation date of the matched
    one, later than the dates of the unmatched ones. *)
Lemma resolver_called_twice_counterexample :
  compare Fixture.env Fixture.scenario Fixture.fresh = Ok Fixture.scenario_c
  ∧ old_unknown (old_hits Fixture.scenario_c) = [1; 2]
  ∧ resolver_calls Fixture.scenario_c = [[0; 1; 2]; []]
  ∧ resolver_calls Fixture.scenario_c !! 0
    ≠ Some (old_unknown (old_hits Fixture.scenario_c))
  ∧ date_oldsearch Fixture.scenario_c = [2014; 1; 1; 0; 0; 0; 2; 1; -1]%Z
  ∧ (genes ← get_idlist Fixture.env
               (old_unknown (old_hits Fixture.scenario_c)) "test@test.com";
     baseline Fixture.env genes)
    = Ok [2013; 5; 5; 0; 0; 0; 6; 125; -1]%Z.
Proof. repeat split; by vm_compute. Qed.

Section EmptyMapping.

Context (E : Collaborators).

(** With an empty mapping the classification loop raises [KeyError] on the
    first hit that has a ['gi'] identifier. *)
Lemma classify_old_empty_gi hit s :
  canonical_id (heap E hit) ≠ None →
  classify_old E ∅ hit s = Raise KeyError.
Proof.
  unfold canonical_id, classify_old.
  induction (ids (heap E hit)) as [|i l IH]; simpl; [done|].
  destruct (decide (db i = "gi")) as [Hdb|Hdb].
  - intros _. unfold dict_get. by rewrite lookup_empty.
  - rewrite bool_decide_eq_false_2 by done. apply IH.
Qed.

Lemma classify_loop_empty l s :
  for_each (classify_old E ∅) l s
  = if decide (Forall (λ hit, canonical_id (heap E hit) = None) l)
    then Ok s else Raise KeyError.
Proof.
  induction l as [|x l IH]; simpl; [done|].
  destruct (decide (canonical_id (heap E x) = None)) as [Hx|Hx].
  - rewrite classify_old_no_gi by done. simpl. rewrite IH.
    destruct (decide (Forall _ l)) as [Hl|Hl].
    + by rewrite decide_True by (by constructor).
    + rewrite decide_False; [done|]. by intros [_ ?]%Forall_cons.
  - rewrite classify_old_empty_gi by done. simpl.
    rewrite decide_False; [done|]. by intros [? _]%Forall_cons.
Qed.

End EmptyMapping.

(** C10, as amended.  When the mapping resolved for the old side is empty,
    [compare] never returns, and the baseline computation on that mapping
    raises [ValueError] (the maximum of an empty list).  The exception of
    the run is: [KeyError], raised by the classification loop, when some
    unmatched old hit has a ['gi'] identifier; otherwise the exception of
    the second call of the resolver when that call raises; otherwise the
    [ValueError] of the baseline computation.  So the old side's mapping of
    a run that returns is never empty. *)
Theorem empty_old_mapping_raises (E : Collaborators) (self : CompareBLASTs)
    (h0 : Heap) :
  let old_unknown :=
    p_unknown (partition_side E (input_old_hits self) (input_new_hits self)) in
  let new_unknown :=
    p_unknown (partition_side E (input_new_hits self) (input_old_hits self)) in
  get_idlist E (input_old_hits self) (email self) = Ok ∅ →
  baseline E ∅ = Raise ValueError
  ∧ (∀ c, compare E self h0 ≠ Ok c)
  ∧ (¬ Forall (λ hit, canonical_id (heap E hit) = None) old_unknown →
     compare E self h0 = Raise KeyError)
  ∧ (Forall (λ hit, canonical_id (heap E hit) = None) old_unknown →
     ∀ e, get_idlist E new_unknown (email self) = Raise e →
          compare E self h0 = Raise e)
  ∧ (Forall (λ hit, canonical_id (heap E hit) = None) old_unknown →
     is_Ok (get_idlist E new_unknown (email self)) →
     compare E self h0 = Raise ValueError).
Proof.
  intros old_unknown new_unknown Hg. subst old_unknown new_unknown.
  split; [apply baseline_empty|]. split.
  { intros c Hrun.
    apply compare_inv in Hrun
      as (genes & o & h1 & ls & genes' & date & rs
          & Hg0 & Hc & Hl & Hg' & Hd & Hr & ->).
    rewrite Hg in Hg0. injection Hg0 as <-.
    by rewrite baseline_empty in Hd. }
  rewrite compare_unfold. cbv zeta. rewrite Hg. cbn [mbind result_bind].
  rewrite classify_loop_empty.
  split; [|split].
  - intros Hgi. by rewrite decide_False.
  - intros Hgi e Hraise. rewrite decide_True by done.
    cbn [mbind result_bind fst snd empty_oldOnly replaced for_each init_link
         l_unknown].
    by rewrite Hraise.
  - intros Hgi [genes' Hok]. rewrite decide_True by done.
    cbn [mbind result_bind fst snd empty_oldOnly replaced for_each init_link
         l_unknown].
    rewrite Hok. cbn [mbind result_bind]. by rewrite baseline_empty.
Qed.

Lemma empty_old_mapping_raises_witness :
  compare Fixture.env Fixture.no_old Fixture.fresh = Raise ValueError.
Proof.
  destruct (empty_old_mapping_raises Fixture.env Fixture.no_old Fixture.fresh)
    as (_ & _ & _ & _ & Hraise).
  - vm_compute. reflexivity.
  - apply Hraise.
    + apply (bool_decide_unpack _). vm_compute. exact I.
    + eexists. vm_compute. reflexivity.
Defined.

(** C10 as stated does not hold: with a directory that has no entry for
    the identifier of the only old hit, the mapping resolved for the old
    side is empty and [compare] raises [KeyError] in the classification
    loop, before the baseline date is computed. *)
Lemma empty_old_mapping_raises_counterexample :
  get_idlist Fixture.env_unknowing (input_old_hits Fixture.only_old)
    (email Fixture.only_old) = Ok ∅
  ∧ compare Fixture.env_unknowing Fixture.only_old Fixture.fresh
    = Raise KeyError
  ∧ for_each (classify_old Fixture.env_unknowing ∅) [0]
      (empty_oldOnly, Fixture.fresh) = Raise KeyError.
Proof.
  split; [vm_compute; reflexivity|]. split; vm_compute; reflexivity.
Qed.

(** ** The category tally (C6) *)

Lemma slice_to_considered {A : Type} (l : list A) (top : Z) :
  (0 ≤ top)%Z →
  slice_to l (if (top =? 0)%Z then Z.of_nat (length l)
              else Z.min top (Z.of_nat (length l)))
  = considered top l.
Proof.
  intros Htop. unfold slice_to, considered.
  destruct (Z.eqb_spec top 0) as [->|Hne].
  - rewrite (proj2 (Z.leb_le _ _)) by lia.
    rewrite Nat2Z.id. apply firstn_all.
  - rewrite (proj2 (Z.leb_le _ _)) by lia.
    f_equal. rewrite Z2Nat.inj_min, Nat2Z.id. done.
Qed.

Lemma hits_per_category0_lookup (k : string) :
  hits_per_category0 !! k = if decide (k ∈ categories) then Some 0 else None.
Proof.
  destruct (decide (k ∈ categories)) as [Hin|Hnotin].
  - unfold categories in Hin.
    repeat (apply elem_of_cons in Hin as [->|Hin]; [by vm_compute|]).
    by apply elem_of_nil in Hin.
  - unfold hits_per_category0, categories in *. simpl.
    rewrite !lookup_insert_ne by set_solver. apply lookup_empty.
Qed.

Lemma hits_per_category0_shaped : tally_shaped hits_per_category0.
Proof.
  intros k. rewrite hits_per_category0_lookup.
  case_decide.
  - split; [done | eauto].
  - split; [by intros [? ?] | done].
Qed.

Lemma tally_shaped_insert (m : gmap string nat) (k : string) (n : nat) :
  tally_shaped m → k ∈ categories → tally_shaped (<[k := n]> m).
Proof.
  intros Hm Hk k'. rewrite lookup_insert. case_decide as Heq.
  - subst. split; eauto.
  - apply Hm.
Qed.

Lemma count_status_cons h k x l :
  count_status h k (x :: l)
  = (if decide (status h !! x = Some k) then 1 else 0) + count_status h k l.
Proof.
  unfold count_status. rewrite filter_cons. by case_decide.
Qed.

(** The loop over the old hits: it raises [KeyError] on the first hit
    whose status is not a category, and counts the statuses otherwise. *)
Lemma count_old_loop (h : Heap) (l : list nat) (m : gmap string nat) :
  tally_shaped m →
  match for_each (count_old h) l m with
  | Ok m' =>
      tally_shaped m'
      ∧ Forall (λ hit, ∃ st, status h !! hit = Some st ∧ st ∈ categories) l
      ∧ ∀ k, m' !! k = (λ n, n + count_status h k l) <$> m !! k
  | Raise e =>
      e = KeyError
      ∧ Exists (λ hit, ∀ st, status h !! hit = Some st → st ∉ categories) l
  end.
Proof.
  revert m. induction l as [|x l IH]; intros m Hm.
  - simpl. split; [done|]. split; [constructor|]. intros k.
    destruct (m !! k); simpl; [|done]. f_equal. unfold count_status. simpl.
    lia.
  - cbn [for_each].
    change (count_old h x m) with (increment (status h !! x) m).
    unfold increment.
    destruct (status h !! x) as [st|] eqn:Hst; cbn [mbind result_bind].
    2: { split; [done|]. left. intros st' Hst'. congruence. }
    unfold dict_get. destruct (m !! st) as [n|] eqn:Hn; cbn [mbind result_bind].
    2: { split; [done|]. left. intros st' Hst' Hin.
         rewrite Hst in Hst'. injection Hst' as <-.
         apply Hm in Hin as [? ?]. congruence. }
    assert (st ∈ categories) as Hcat by (apply Hm; eauto).
    specialize (IH (<[st := S n]> m) (tally_shaped_insert _ _ _ Hm Hcat)).
    destruct (for_each (count_old h) l (<[st:=S n]> m)) as [m'|e].
    + destruct IH as (Hm' & Hall & Hcount). split; [done|]. split.
      * constructor; [eauto | done].
      * intros k. rewrite Hcount, lookup_insert, count_status_cons, Hst.
        destruct (decide (st = k)) as [->|Hne].
        -- rewrite decide_True by done. rewrite Hn. simpl. f_equal. lia.
        -- rewrite decide_False by congruence.
           destruct (m !! k); simpl; [|done]. f_equal.
    + destruct IH as [-> Hex]. split; [done|]. by right.
Qed.

(** The loop over the new hits never raises on a tally, and counts the
    statuses ['new'] and ['strange'] only. *)
Lemma count_new_loop (h : Heap) (l : list nat) (m : gmap string nat) :
  tally_shaped m →
  ∃ m', for_each (count_new h) l m = Ok m'
        ∧ tally_shaped m'
        ∧ ∀ k, m' !! k
               = (λ n, n + if decide (k ∈ ["new"; "strange"])
                           then count_status h k l else 0) <$> m !! k.
Proof.
  revert m. induction l as [|x l IH]; intros m Hm.
  - simpl. exists m. split; [done|]. split; [done|]. intros k.
    destruct (m !! k); simpl; [|done]. f_equal. unfold count_status. simpl.
    case_decide; lia.
  - assert (∀ k, (if decide (k ∈ ["new"; "strange"])
                  then count_status h k (x :: l) else 0)
                 = (if decide (k ∈ ["new"; "strange"])
                    then if decide (status h !! x = Some k) then 1 else 0
                    else 0)
                   + (if decide (k ∈ ["new"; "strange"])
                      then count_status h k l else 0)) as Hsplit.
    { intros k. rewrite count_status_cons. by case_decide. }
    cbn [for_each].
    assert (count_new h x m
            = match status h !! x with
              | Some s =>
                  if decide (s ∈ ["new"; "strange"])
                  then increment (Some s) m else Ok m
              | None => Ok m
              end) as -> by done.
    destruct (status h !! x) as [st|] eqn:Hst.
    2: { cbn [mbind result_bind].
         destruct (IH m Hm) as (m' & -> & Hm' & Hcount).
         exists m'. split; [done|]. split; [done|]. intros k.
         rewrite Hcount, Hsplit.
         destruct (m !! k); simpl; [|done]. f_equal.
         repeat case_decide; done. }
    destruct (decide (st ∈ ["new"; "strange"])) as [Hin|Hnotin].
    + assert (st ∈ categories) as Hcat by (unfold categories; set_solver).
      destruct (proj2 (Hm st) Hcat) as [n Hn].
      unfold increment, dict_get. rewrite Hn. cbn [mbind result_bind].
      destruct (IH (<[st := S n]> m) (tally_shaped_insert _ _ _ Hm Hcat))
        as (m' & -> & Hm' & Hcount).
      exists m'. split; [done|]. split; [done|]. intros k.
      rewrite Hcount, Hsplit, lookup_insert.
      destruct (decide (st = k)) as [->|Hne].
      * rewrite Hn. simpl. f_equal.
        rewrite !(decide_True (P := k ∈ ["new"; "strange"])) by done.
        rewrite decide_True by done. lia.
      * destruct (m !! k); simpl; [|done]. f_equal.
        rewrite (decide_False (P := Some st = Some k)) by congruence.
        by case_decide.
    + cbn [mbind result_bind].
      destruct (IH m Hm) as (m' & -> & Hm' & Hcount).
      exists m'. split; [done|]. split; [done|]. intros k.
      rewrite Hcount, Hsplit.
      destruct (m !! k); simpl; [|done]. f_equal.
      destruct (decide (k ∈ ["new"; "strange"])) as [Hk|Hk]; [|done].
      rewrite decide_False; [done|]. congruence.
Qed.

(** C6.  For every object left by [compare] and every [top >= 0], the
    tally looks, on each side, at the whole [all] bucket when [top = 0] and
    at its first [min top (length all)] hits, in input order, otherwise
    (these are the slices the code takes).  If every considered old hit has
    one of the seven categories as status, the tally returns, holding for
    each category the number of considered old hits of that status, plus,
    for ['new'] and ['strange'] only, the number of considered new hits of
    that status.  It raises [KeyError] exactly when some considered old hit
    has another status or none. *)
Theorem tally_counts (c : Compared) (top : Z) :
  (0 ≤ top)%Z →
  slice_to (old_all (old_hits c)) (top_old c top)
  = considered top (old_all (old_hits c))
  ∧ slice_to (new_all (new_hits c)) (top_new c top)
    = considered top (new_all (new_hits c))
  ∧ match tally c top with
    | Ok m =>
        Forall (λ hit, ∃ st, status (store c) !! hit = Some st
                             ∧ st ∈ categories)
               (considered top (old_all (old_hits c)))
        ∧ ∀ k, m !! k = if decide (k ∈ categories)
                        then Some (expected_count c top k) else None
    | Raise e =>
        e = KeyError
        ∧ Exists (λ hit, ∀ st, status (store c) !! hit = Some st
                               → st ∉ categories)
                 (considered top (old_all (old_hits c)))
    end.
Proof.
  intros Htop.
  assert (slice_to (old_all (old_hits c)) (top_old c top)
          = considered top (old_all (old_hits c))) as Hold
    by (by apply slice_to_considered).
  assert (slice_to (new_all (new_hits c)) (top_new c top)
          = considered top (new_all (new_hits c))) as Hnew
    by (by apply slice_to_considered).
  split; [done|]. split; [done|].
  unfold tally. rewrite Hold, Hnew.
  pose proof (count_old_loop (store c)
                (considered top (old_all (old_hits c)))
                hits_per_category0 hits_per_category0_shaped) as Hloop.
  destruct (for_each (count_old (store c)) _ hits_per_category0) as [m|e];
    simpl; [|done].
  destruct Hloop as (Hm & Hall & Hcount).
  destruct (count_new_loop (store c)
              (considered top (new_all (new_hits c))) m Hm)
    as (m' & -> & _ & Hcount').
  split; [done|]. intros k.
  rewrite Hcount', Hcount, hits_per_category0_lookup.
  destruct (decide (k ∈ categories)); simpl; [|done].
  unfold expected_count. f_equal.
Qed.

Lemma tally_counts_witness :
  ∃ m, tally Fixture.disjoint_c 2 = Ok m
       ∧ m !! "live" = Some 1
       ∧ m !! "suppressed" = Some 1
       ∧ m !! "new" = Some 2
       ∧ m !! "strange" = Some 0.
Proof.
  destruct (tally_counts Fixture.disjoint_c 2) as (_ & _ & Htally); [lia|].
  destruct (tally Fixture.disjoint_c 2) as [m|e] eqn:Hrun.
  - exists m. split; [done|]. destruct Htally as [_ Hm].
    rewrite !Hm. repeat split; vm_compute; reflexivity.
  - vm_compute in Hrun. discriminate.
Defined.

(** ** Assignments of the status (C8) *)

(** C8, as amended.  In a run of [compare] that returns, started with no
    status assigned and given distinct objects, the status of a hit is
    assigned at most once, with one exception: an unmatched old hit whose
    directory status is ['replaced'] and for which the replacement loop
    confirms no replacement is first assigned ['replaced'] and then
    ['live'], and ends in the [lost] bucket. *)
Theorem status_assignments (E : Collaborators) (self : CompareBLASTs)
    (h0 : Heap) (c : Compared) (hit : nat) :
  compare E self h0 = Ok c →
  status_writes h0 = [] →
  NoDup (input_old_hits self ++ input_new_hits self) →
  writes_to hit (status_writes (store c)) = []
  ∨ (∃ st, writes_to hit (status_writes (store c)) = [st])
  ∨ (writes_to hit (status_writes (store c)) = ["replaced"; "live"]
     ∧ hit ∈ old_unknown (old_hits c)
     ∧ fate E (oldGeneIDs c) hit = Some "replaced"
     ∧ hit ∈ old_lost (old_hits c)).
Proof.
  intros Hrun Hlog Hnd.
  apply compare_inv in Hrun
    as (genes & o & h1 & ls & genes' & date & rs
        & Hg & Hc & Hl & Hg' & Hd & Hr & ->).
  cbn [old_hits old_unknown old_lost store oldGeneIDs].
  pose proof (partition_side_unknown_sublist E (input_old_hits self)
                (input_new_hits self)) as Hsubo.
  pose proof (partition_side_unknown_sublist E (input_new_hits self)
                (input_old_hits self)) as Hsubn.
  set (new_p := partition_side E (input_new_hits self) (input_old_hits self))
    in *.
  set (old_p := partition_side E (input_old_hits self) (input_new_hits self))
    in *.
  clearbody new_p old_p.
  apply NoDup_app in Hnd as (Hndo & Hdisj & Hndn).
  assert (NoDup (p_unknown old_p)) as Hndou
    by exact (sublist_NoDup _ _ Hndo Hsubo).
  assert (NoDup (p_unknown new_p)) as Hndnu
    by exact (sublist_NoDup _ _ Hndn Hsubn).
  assert (∀ x, x ∈ p_unknown old_p → x ∉ p_unknown new_p) as Hdisju.
  { intros x Hx Hx'.
    apply (Hdisj x); [exact (elem_of_sublist _ _ _ Hx Hsubo)|].
    exact (elem_of_sublist _ _ _ Hx' Hsubn). }
  pose proof (classify_loop_spec E _ _ _ _ _ _ Hc)
    as (_ & Hrep & _ & Hw1 & _ & _).
  cbn [empty_oldOnly replaced] in Hrep. rewrite app_nil_l in Hrep.
  rewrite Hlog, app_nil_l in Hw1. unfold fate_writes in Hw1.
  assert (NoDup (replaced o)) as Hndr
    by (rewrite Hrep; by apply NoDup_filter).
  assert (∀ x, x ∈ replaced o →
            x ∈ p_unknown old_p ∧ fate E genes x = Some "replaced") as Hrepl.
  { intros x. rewrite Hrep. unfold with_fate.
    rewrite list_elem_of_filter. tauto. }
  destruct (link_loop_writes_NoDup E genes (replaced o)
              (init_link new_p o h1) ls) as (W & Hw2 & Hunk & Hout & Hpend);
    [done | done | | done |].
  { intros x Hx. apply Hdisju. by apply Hrepl. }
  cbn [init_link l_unknown l_heap] in Hw2, Hunk, Hout, Hpend.
  pose proof (link_loop_unknown_sublist E _ _ _ _ Hl) as Hsubl.
  cbn [init_link l_unknown] in Hsubl.
  assert (NoDup (l_unknown ls)) as Hndl
    by exact (sublist_NoDup _ _ Hndnu Hsubl).
  pose proof (recency_loop_spec E _ _ _ _ _ Hr) as (_ & _ & Hw3 & _ & Hres).
  cbn [r_heap] in Hw3.
  rewrite Hw3, Hw2, Hw1, !writes_to_app.
  destruct (decide (hit ∈ p_unknown old_p)) as [Hold|Hold].
  - assert (hit ∉ p_unknown new_p) as Hnew by (by apply Hdisju).
    assert (hit ∉ l_unknown ls) as Hnew'
      by (intros Hin; apply Hnew; exact (elem_of_sublist _ _ _ Hin Hsubl)).
    rewrite (writes_to_tagged_NoDup (fate E genes)) by done.
    rewrite (writes_to_tagged_none (recency E genes' date)) by auto.
    rewrite app_nil_r.
    destruct (decide (hit ∈ replaced o)) as [Hpending|Hpending].
    + destruct (Hrepl hit Hpending) as [_ Hfate]. rewrite Hfate. simpl.
      destruct (Hpend hit Hnew Hpending) as [->|[-> Hlost]].
      * right. left. eauto.
      * right. right. simpl. auto.
    + rewrite (Hout hit Hnew Hpending), app_nil_r.
      destruct (fate E genes hit) as [st|]; simpl; [right; left; eauto | auto].
  - rewrite (writes_to_tagged_none (fate E genes)) by auto.
    rewrite app_nil_l.
    assert (hit ∉ replaced o) as Hpending
      by (intros Hin; by destruct (Hrepl hit Hin)).
    destruct (decide (hit ∈ p_unknown new_p)) as [Hnew|Hnew].
    + rewrite (Hunk hit Hnew).
      destruct (decide (hit ∈ l_unknown ls)) as [Hleft|Hleft].
      * rewrite app_nil_l.
        rewrite (writes_to_tagged_NoDup (recency E genes' date)) by done.
        destruct (recency E genes' date hit) as [st|]; simpl;
          [right; left; eauto | auto].
      * rewrite (writes_to_tagged_none (recency E genes' date)) by auto.
        right. left. eauto.
    + assert (hit ∉ l_unknown ls) as Hleft
        by (intros Hin; apply Hnew; exact (elem_of_sublist _ _ _ Hin Hsubl)).
      rewrite (Hout hit Hnew Hpending).
      rewrite (writes_to_tagged_none (recency E genes' date)) by auto.
      by left.
Qed.

Lemma status_assignments_witness :
  writes_to 8 (status_writes (store Fixture.stale_c)) = ["replaced"; "live"]
  ∧ 8 ∈ old_lost (old_hits Fixture.stale_c).
Proof.
  destruct (status_assignments Fixture.env Fixture.stale Fixture.fresh
              Fixture.stale_c 8) as [Hw|[[st Hw]|(Hw & _ & _ & Hlost)]].
  - vm_compute. reflexivity.
  - reflexivity.
  - apply (bool_decide_unpack _). vm_compute. exact I.
  - vm_compute in Hw. discriminate.
  - vm_compute in Hw. discriminate.
  - exact (conj Hw Hlost).
Defined.

(** C8 as stated does not hold: the status of an old hit marked as
    replaced, whose replacement is not among the new hits, is assigned
    twice in one run, ['replaced'] first and ['live'] afterwards. *)
Lemma status_assignments_counterexample :
  compare Fixture.env Fixture.stale Fixture.fresh = Ok Fixture.stale_c
  ∧ writes_to 8 (status_writes (store Fixture.stale_c))
    = ["replaced"; "live"]
  ∧ "replaced" ≠ "live"
  ∧ status (store Fixture.stale_c) !! 8 = Some "live".
Proof.
  split; [vm_compute; reflexivity|]. split; [vm_compute; reflexivity|].
  split; [discriminate|]. vm_compute. reflexivity.
Qed.

(** ** The precondition on the query names (C9) *)

Lemma keys_group_add (k : string) (hit : nat) (d : groups) (q : string) :
  q ∈ keys (group_add k hit d) ↔ q = k ∨ q ∈ keys d.
Proof.
  unfold keys. induction d as [|[k' l] d IH]; simpl.
  - set_solver.
  - destruct (decide (k = k')) as [->|Hne]; simpl.
    + set_solver.
    + rewrite elem_of_cons, IH, elem_of_cons. tauto.
Qed.

Section DriverFacts.

Context (E : Collaborators).

(** The keys of the dictionary built from a list of hits are the query
    names of these hits. *)
Lemma keys_group_hits (l : list nat) (q : string) :
  q ∈ keys (group_hits E l) ↔ q ∈ query_names E l.
Proof.
  unfold group_hits, query_names.
  assert (∀ d, q ∈ keys (fold_left
                           (λ d hit, group_add (name (heap E hit)) hit d) l d)
               ↔ q ∈ keys d ∨ q ∈ (λ hit, name (heap E hit)) <$> l) as Hgen.
  { induction l as [|x l IH]; intros d; simpl.
    - set_solver.
    - rewrite IH, keys_group_add, elem_of_cons. tauto. }
  rewrite Hgen. unfold keys. set_solver.
Qed.

End DriverFacts.

(** C9.  When some query name occurs among the hits of one file and not
    among the hits of the other, [perform_comparison] fails on its
    assertion: no comparison is run, no file is opened and no line is
    output or exported. *)
Theorem mismatched_query_sets_abort (E : Collaborators) (opts : Options)
    (old_hits_all new_hits_all : list nat) (h : Heap) (q : string) :
  (q ∈ query_names E old_hits_all ∧ (q ∉ query_names E new_hits_all))
  ∨ ((q ∉ query_names E old_hits_all) ∧ q ∈ query_names E new_hits_all) →
  perform_comparison E opts old_hits_all new_hits_all h
  = {| outcome := Raise AssertionError; comparisons := []; events := [] |}.
Proof.
  intros Hq. unfold perform_comparison.
  assert (keys_equal (group_hits E old_hits_all) (group_hits E new_hits_all)
          = false) as ->; [|done].
  unfold keys_equal. apply bool_decide_eq_false. intros Heq.
  assert (q ∈ keys (group_hits E old_hits_all)
          ↔ q ∈ keys (group_hits E new_hits_all)) as Hiff.
  { rewrite <- !(elem_of_list_to_set (C := gset string)). by rewrite Heq. }
  rewrite !keys_group_hits in Hiff. tauto.
Qed.

Lemma mismatched_query_sets_abort_witness :
  perform_comparison Fixture.env Fixture.options [0; 1; 2; 11] [3; 4]
    Fixture.fresh
  = {| outcome := Raise AssertionError; comparisons := []; events := [] |}.
Proof.
  apply (mismatched_query_sets_abort Fixture.env Fixture.options
           [0; 1; 2; 11] [3; 4] Fixture.fresh "Q2").
  left. split; apply (bool_decide_unpack _); vm_compute; exact I.
Defined.

(** ** Loading the tabular files *)

Lemma split_char_nonempty (sep : ascii) (s : string) : split_char sep s ≠ [].
Proof.
  induction s as [|a s IH]; simpl; [done|].
  case_decide; [done|]. by destruct (split_char sep s).
Qed.

(** No piece of a split contains the separator. *)
Lemma split_char_pieces (sep : ascii) (s : string) :
  Forall (λ w, ¬ occurs sep w) (split_char sep s).
Proof.
  induction s as [|a s IH]; simpl.
  - constructor; [tauto | constructor].
  - case_decide as Ha.
    + constructor; [simpl; tauto | done].
    + destruct (split_char sep s) as [|w ws].
      { constructor; [|constructor]. simpl. intros [->|[]]. done. }
      apply Forall_cons in IH as [Hw Hws].
      constructor; [|done]. simpl. intros [->|?]; [done | tauto].
Qed.

Lemma join_char_cons (sep : ascii) (w : string) (l : list string) :
  l ≠ [] → join_char sep (w :: l) = w +:+ String sep (join_char sep l).
Proof. by destruct l. Qed.

Lemma split_char_app_piece (sep : ascii) (w s : string) :
  ¬ occurs sep w →
  split_char sep (w +:+ String sep s) = w :: split_char sep s.
Proof.
  induction w as [|a w IH]; simpl; intros Hw.
  - by rewrite decide_True.
  - rewrite decide_False by (intros ->; tauto).
    rewrite IH by tauto. done.
Qed.

Lemma split_char_piece (sep : ascii) (w : string) :
  ¬ occurs sep w → split_char sep w = [w].
Proof.
  induction w as [|a w IH]; simpl; intros Hw; [done|].
  rewrite decide_False by (intros ->; tauto).
  rewrite IH by tauto. done.
Qed.

(** Joining pieces that do not contain the separator and splitting again
    gives the pieces back. *)
Lemma split_join_char (sep : ascii) (l : list string) :
  l ≠ [] → Forall (λ w, ¬ occurs sep w) l →
  split_char sep (join_char sep l) = l.
Proof.
  induction l as [|w l IH]; [done|]. intros _ [Hw Hl]%Forall_cons.
  destruct l as [|w' l]; [by apply split_char_piece|].
  rewrite join_char_cons by done.
  rewrite split_char_app_piece by done. f_equal. by apply IH.
Qed.

(** Splitting a text and joining the pieces gives the text back. *)
Lemma join_split_char (sep : ascii) (s : string) :
  join_char sep (split_char sep s) = s.
Proof.
  induction s as [|a s IH]; simpl; [done|].
  case_decide as Ha.
  - subst. rewrite join_char_cons by apply split_char_nonempty.
    simpl. by rewrite IH.
  - pose proof (split_char_nonempty sep s) as Hne.
    destruct (split_char sep s) as [|w ws]; [done|].
    destruct ws as [|w' ws]; simpl in *; by rewrite <- IH.
Qed.

(** A piece of a split has only characters of the text. *)
Lemma split_char_occurs (sep a : ascii) (s w : string) :
  w ∈ split_char sep s → occurs a w → occurs a s.
Proof.
  revert w. induction s as [|b s IH]; simpl; intros w Hw Ha.
  - apply list_elem_of_singleton in Hw as ->. done.
  - destruct (decide (b = sep)) as [->|Hb].
    + apply elem_of_cons in Hw as [->|Hw]; [done|]. right. by eapply IH.
    + destruct (split_char sep s) as [|w' ws] eqn:Hsplit.
      * apply list_elem_of_singleton in Hw as ->. simpl in Ha.
        destruct Ha as [->|[]]. by left.
      * apply elem_of_cons in Hw as [->|Hw].
        -- simpl in Ha. destruct Ha as [->|Ha]; [by left|].
           right. apply (IH w'); [set_solver | done].
        -- right. apply (IH w); [set_solver | done].
Qed.

Lemma expand_subhits_spec (h subhits : list string) :
  1 < length h →
  expand_subhits h subhits
  = Ok ((λ sub, join_char tab_char (<[1 := sub]> h)) <$> subhits).
Proof.
  revert h. induction subhits as [|sub rest IH]; intros h Hlen; simpl; [done|].
  rewrite decide_True by done.
  rewrite IH by (by rewrite length_insert). simpl. do 2 f_equal.
  apply list_fmap_ext. intros _ sub' _. by rewrite list_insert_insert_eq.
Qed.

(** X1.  [load_blasthits] raises [IndexError] on a file that has a line
    with fewer than 13 tab-separated columns, and on no other file; when
    it returns, it has produced at least one hit text per line. *)
Theorem load_blasthits_columns (blastfile : list string) :
  match load_blasthits blastfile with
  | Ok texts =>
      Forall (λ line, 13 ≤ length (columns_of line)) blastfile
      ∧ length blastfile ≤ length texts
  | Raise e =>
      e = IndexError
      ∧ Exists (λ line, length (columns_of line) < 13) blastfile
  end.
Proof.
  induction blastfile as [|line rest IH]; simpl.
  - split; [constructor | done].
  - unfold load_line at 1, list_get. fold (columns_of line).
    destruct (columns_of line !! 12) as [h12|] eqn:H12.
    2: { assert (length (columns_of line) < 13) as Hshort
           by (apply lookup_ge_None in H12; lia).
         destruct (columns_of line !! 1); simpl; split; try done;
           by left. }
    assert (13 ≤ length (columns_of line)) as Hlen
      by (apply lookup_lt_Some in H12; lia).
    destruct (columns_of line !! 1) as [h1|] eqn:H1.
    2: { apply lookup_ge_None in H1. lia. }
    simpl.
    assert (∃ texts, (if decide (h1 = h12) then Ok [line]
                      else expand_subhits (columns_of line)
                             (split_char ";" h12)) = Ok texts
                     ∧ 1 ≤ length texts) as (texts & -> & Htexts).
    { case_decide; [eexists; split; [done | simpl; lia]|].
      rewrite expand_subhits_spec by lia. eexists. split; [done|].
      rewrite length_fmap.
      pose proof (split_char_nonempty ";" h12).
      destruct (split_char ";" h12); [done | simpl; lia]. }
    simpl. destruct (load_blasthits rest) as [more|e]; simpl.
    + destruct IH as [Hall Hcount]. split; [by constructor|].
      rewrite length_app. lia.
    + destruct IH as [-> Hex]. split; [done | by right].
Qed.

(** X2.  A line whose column 1 equals its column 12 is given to [BlastHit]
    as it is: a file in which every line has at least 13 columns and equal
    columns 1 and 12 is loaded line by line, unchanged. *)
Theorem load_blasthits_plain (blastfile : list string) :
  Forall (λ line, 13 ≤ length (columns_of line)
                  ∧ columns_of line !! 1 = columns_of line !! 12) blastfile →
  load_blasthits blastfile = Ok blastfile.
Proof.
  induction 1 as [|line rest [Hlen Heq] _ IH]; simpl; [done|].
  unfold load_line, list_get. fold (columns_of line).
  destruct (lookup_lt_is_Some_2 (columns_of line) 12) as [h12 H12]; [lia|].
  assert (columns_of line !! 1 = Some h12) as H1 by (by rewrite Heq).
  rewrite H1. simpl. rewrite H12. simpl.
  rewrite decide_True by done. simpl. by rewrite IH.
Qed.

Lemma load_blasthits_plain_witness :
  load_blasthits ["q" +:+ tab +:+ "a" +:+ tab +:+ "2" +:+ tab +:+ "3"
                  +:+ tab +:+ "4" +:+ tab +:+ "5" +:+ tab +:+ "6" +:+ tab
                  +:+ "7" +:+ tab +:+ "8" +:+ tab +:+ "9" +:+ tab +:+ "10"
                  +:+ tab +:+ "11" +:+ tab +:+ "a" +:+ tab +:+ "13"]
  = Ok ["q" +:+ tab +:+ "a" +:+ tab +:+ "2" +:+ tab +:+ "3"
        +:+ tab +:+ "4" +:+ tab +:+ "5" +:+ tab +:+ "6" +:+ tab
        +:+ "7" +:+ tab +:+ "8" +:+ tab +:+ "9" +:+ tab +:+ "10"
        +:+ tab +:+ "11" +:+ tab +:+ "a" +:+ tab +:+ "13"].
Proof.
  apply load_blasthits_plain.
  constructor; [|constructor]. split; [vm_compute; lia | vm_compute; reflexivity].
Defined.

(** X3.  A line whose column 1 differs from its column 12 gives one hit
    text for each [;]-separated part of column 12, in order; split at the
    tabs again, each text has the columns of the line with column 1
    replaced by its part. *)
Theorem load_line_expands (line h1 h12 : string) :
  columns_of line !! 1 = Some h1 →
  columns_of line !! 12 = Some h12 →
  h1 ≠ h12 →
  ∃ texts,
    load_line line = Ok texts
    ∧ Forall2 (λ sub text, columns_of text = <[1 := sub]> (columns_of line))
              (split_char ";" h12) texts.
Proof.
  intros H1 H12 Hne. unfold load_line, list_get. fold (columns_of line).
  rewrite H1. simpl. rewrite H12. simpl. rewrite decide_False by done.
  assert (1 < length (columns_of line)) as Hlen
    by (apply lookup_lt_Some in H1; lia).
  rewrite expand_subhits_spec by done. eexists. split; [done|].
  apply Forall2_fmap_r, Forall_Forall2_diag, Forall_forall.
  intros sub Hsub. unfold columns_of at 1. apply split_join_char.
  - intros Hnil. apply (f_equal length) in Hnil.
    rewrite length_insert in Hnil. simpl in Hnil. lia.
  - apply Forall_insert; [apply split_char_pieces|].
    intros Hocc. apply (split_char_occurs _ _ _ _ Hsub) in Hocc.
    pose proof (split_char_pieces tab_char line) as Hpieces.
    rewrite Forall_forall in Hpieces.
    apply (Hpieces h12); [|done]. by eapply list_elem_of_lookup_2.
Qed.

Lemma load_line_expands_witness :
  ∃ texts,
    load_line ("q" +:+ tab +:+ "a" +:+ tab +:+ "2" +:+ tab +:+ "3"
               +:+ tab +:+ "4" +:+ tab +:+ "5" +:+ tab +:+ "6" +:+ tab
               +:+ "7" +:+ tab +:+ "8" +:+ tab +:+ "9" +:+ tab +:+ "10"
               +:+ tab +:+ "11" +:+ tab +:+ "a;b" +:+ tab +:+ "13")
    = Ok texts
    ∧ length texts = 2.
Proof.
  destruct (load_line_expands
              ("q" +:+ tab +:+ "a" +:+ tab +:+ "2" +:+ tab +:+ "3"
               +:+ tab +:+ "4" +:+ tab +:+ "5" +:+ tab +:+ "6" +:+ tab
               +:+ "7" +:+ tab +:+ "8" +:+ tab +:+ "9" +:+ tab +:+ "10"
               +:+ tab +:+ "11" +:+ tab +:+ "a;b" +:+ tab +:+ "13")
              "a" "a;b") as (texts & Hload & Hcols).
  - vm_compute. reflexivity.
  - vm_compute. reflexivity.
  - discriminate.
  - exists texts. split; [done|].
    apply Forall2_length in Hcols. rewrite <- Hcols. vm_compute. reflexivity.
Defined.

(** X4.  Splitting a text at a character and joining the pieces with that
    character gives the text back; and joining pieces none of which
    contains the character, then splitting, gives the pieces back.  (This
    is how a text built with ['\t'.join(h)] is read again by [split].) *)
Theorem split_join_round_trip (sep : ascii) (s : string) (l : list string) :
  join_char sep (split_char sep s) = s
  ∧ (l ≠ [] → Forall (λ w, ¬ occurs sep w) l →
     split_char sep (join_char sep l) = l).
Proof. split; [apply join_split_char | apply split_join_char]. Qed.

Lemma split_join_round_trip_witness :
  split_char "," (join_char "," ["new"; "all_old"]) = ["new"; "all_old"].
Proof.
  apply (split_join_round_trip "," "" ["new"; "all_old"]); [done|].
  repeat constructor; simpl; intros H;
    repeat (destruct H as [H|H]; [discriminate|]); done.
Defined.

(** ** Grouping the hits by query *)

Lemma group_get_error (d : groups) (q : string) (e : exn) :
  group_get d q = Raise e → e = KeyError ∧ q ∉ keys d.
Proof.
  unfold keys. induction d as [|[k l] d IH]; simpl.
  - intros [= <-]. split; [done|]. by intros ?%elem_of_nil.
  - case_decide as Hk; [done|]. intros H. destruct (IH H) as [-> Hnot].
    split; [done|]. intros [?|?]%elem_of_cons; [congruence | done].
Qed.

Lemma group_get_Ok_key (d : groups) (q : string) (l : list nat) :
  group_get d q = Ok l → q ∈ keys d.
Proof.
  unfold keys. induction d as [|[k l'] d IH]; simpl; [done|].
  case_decide as Hk; [subst; set_solver|]. intros H. set_solver.
Qed.

Lemma group_get_add (k : string) (hit : nat) (d : groups) (q : string) :
  group_get (group_add k hit d) q
  = if decide (q = k) then
      Ok (match group_get d k with Ok l => l | Raise _ => [] end ++ [hit])
    else group_get d q.
Proof.
  induction d as [|[k' l] d IH]; simpl.
  - by destruct (decide (q = k)).
  - destruct (decide (k = k')) as [->|Hk]; simpl.
    + destruct (decide (q = k')) as [->|Hq]; simpl; [done|].
      by repeat (case_decide; try done).
    + destruct (decide (q = k')) as [->|Hq]; simpl.
      * by repeat (case_decide; try done).
      * rewrite IH. destruct (decide (q = k)) as [->|Hq']; [|done].
        by repeat (case_decide; try done).
Qed.

Lemma keys_group_add_NoDup (k : string) (hit : nat) (d : groups) :
  NoDup (keys d) → NoDup (keys (group_add k hit d)).
Proof.
  unfold keys. induction d as [|[k' l] d IH]; simpl.
  - intros _. apply NoDup_singleton.
  - intros [Hk' Hd]%NoDup_cons. case_decide as Hk; simpl.
    + by apply NoDup_cons.
    + apply NoDup_cons. split; [|by apply IH].
      fold (keys (group_add k hit d)). rewrite keys_group_add.
      intros [?|?]; [congruence | done].
Qed.

Section Grouping.

Context (E : Collaborators).

Lemma group_hits_fold (l : list nat) (d : groups) (q : string) :
  NoDup (keys d) →
  NoDup (keys (fold_left (λ d hit, group_add (name (heap E hit)) hit d) l d))
  ∧ group_get (fold_left (λ d hit, group_add (name (heap E hit)) hit d) l d) q
    = match group_get d q with
      | Ok g => Ok (g ++ filter (λ hit, name (heap E hit) = q) l)
      | Raise _ =>
          if decide (q ∈ query_names E l)
          then Ok (filter (λ hit, name (heap E hit) = q) l)
          else Raise KeyError
      end.
Proof.
  revert d. induction l as [|x l IH]; intros d Hd; cbn [fold_left].
  - split; [done|]. rewrite filter_nil.
    destruct (group_get d q) as [g|e] eqn:Hg; [by rewrite app_nil_r|].
    apply group_get_error in Hg as [-> _].
    destruct (decide (q ∈ query_names E [])) as [Hin|Hin]; [|done].
    by apply elem_of_nil in Hin.
  - destruct (IH (group_add (name (heap E x)) x d)
                 (keys_group_add_NoDup _ _ _ Hd)) as [Hnd ->].
    split; [done|]. rewrite group_get_add, filter_cons.
    assert (q ∈ query_names E (x :: l)
            ↔ q = name (heap E x) ∨ q ∈ query_names E l) as Hcons
      by (unfold query_names; rewrite fmap_cons, elem_of_cons; done).
    destruct (decide (q = name (heap E x))) as [->|Hq].
    + rewrite (decide_True (P := name (heap E x) = name (heap E x))) by done.
      rewrite (decide_True (P := _ ∈ query_names E (x :: l)))
        by (apply Hcons; by left).
      destruct (group_get d (name (heap E x))) as [g|e];
        cbn [app]; [by rewrite <- app_assoc | done].
    + rewrite (decide_False (P := name (heap E x) = q)) by congruence.
      destruct (group_get d q) as [g|e]; [done|].
      destruct (decide (q ∈ query_names E l)) as [Hin|Hin].
      * by rewrite decide_True by (apply Hcons; by right).
      * rewrite decide_False; [done|]. rewrite Hcons. tauto.
Qed.

Lemma group_hits_get (hits : list nat) (q : string) :
  group_get (group_hits E hits) q
  = if decide (q ∈ query_names E hits)
    then Ok (filter (λ hit, name (heap E hit) = q) hits)
    else Raise KeyError.
Proof.
  unfold group_hits.
  by destruct (group_hits_fold hits [] q) as [_ ->]; [constructor|].
Qed.

End Grouping.

(** X5.  The dictionary [perform_comparison] builds from a list of hits
    has each query name once as a key; looking a name up gives the hits of
    that name in the order of the file, and [KeyError] for a name no hit
    has. *)
Theorem group_hits_lookup (E : Collaborators) (hits : list nat) (q : string) :
  NoDup (keys (group_hits E hits))
  ∧ group_get (group_hits E hits) q
    = if decide (q ∈ query_names E hits)
      then Ok (filter (λ hit, name (heap E hit) = q) hits)
      else Raise KeyError.
Proof.
  split; [|apply group_hits_get].
  unfold group_hits.
  by destruct (group_hits_fold E hits [] q) as [Hnd _]; [constructor|].
Qed.

(** ** The loop over the queries *)

Lemma for_outputs_lines (output_types : list sink)
    (lines : result (list string)) (evs : list event) :
  for_outputs output_types lines = Ok evs → Forall is_line evs.
Proof.
  revert evs. induction output_types as [|out rest IH]; intros evs; simpl.
  - intros [= <-]. constructor.
  - intros H. apply bind_Ok_inv in H as (ls & -> & H).
    apply bind_Ok_inv in H as (evs' & Hrest & [= <-]).
    apply Forall_app. split; [|by apply IH].
    apply Forall_fmap, Forall_forall. by intros l _.
Qed.

Lemma export_hit_categories_events self c cats path :
  Forall is_export (export_hit_categories self c cats path).
Proof.
  unfold export_hit_categories. apply Forall_fmap, Forall_forall.
  intros cat _. unfold export_category. simpl.
  by destruct (category_hits c cat) as [[|??]|].
Qed.

Section Queries.

Context (E : Collaborators) (opts : Options) (old new : groups).

Lemma run_queries_compared todo h acc evs :
  Forall (compared_on E opts old new) acc →
  Forall (compared_on E opts old new) (comparisons (run_queries E opts old new todo h acc evs)).
Proof.
  revert h acc evs. induction todo as [|key rest IH]; intros h acc evs Hdone;
    simpl; [done|].
  destruct (group_get old key) as [o|e] eqn:Ho; simpl; [|done].
  destruct (group_get new key) as [n|e] eqn:Hn; simpl; [|done].
  destruct (compare E _ h) as [c|e] eqn:Hc; [|done].
  assert (Forall (compared_on E opts old new) (acc ++ [(key, c)])) as Hdone'.
  { apply Forall_app. split; [done|]. apply Forall_singleton.
    exists o, n, h. simpl. auto. }
  destruct (output_comparison _ c _ _ _ _) as [out|e]; [|done].
  by apply IH.
Qed.

Lemma run_queries_order todo h acc evs :
  ∃ k, k ≤ length todo
       ∧ fst <$> comparisons (run_queries E opts old new todo h acc evs)
         = (fst <$> acc) ++ take k todo
       ∧ (outcome (run_queries E opts old new todo h acc evs) = Ok () →
          k = length todo).
Proof.
  revert h acc evs. induction todo as [|key rest IH]; intros h acc evs;
    simpl.
  - exists 0. by rewrite app_nil_r.
  - destruct (group_get old key) as [o|e] eqn:Ho; simpl.
    2: { exists 0. split; [lia|]. by rewrite app_nil_r. }
    destruct (group_get new key) as [n|e] eqn:Hn; simpl.
    2: { exists 0. split; [lia|]. by rewrite app_nil_r. }
    destruct (compare E _ h) as [c|e].
    2: { exists 0. split; [lia|]. by rewrite app_nil_r. }
    destruct (output_comparison _ c _ _ _ _) as [out|e].
    2: { exists 1. split; [lia|]. simpl. by rewrite fmap_app. }
    destruct (IH (store c) (acc ++ [(key, c)])
                 (evs ++ out ++
                    (if truthy (export opts) then
                       export_hit_categories
                         {| input_old_hits := o; input_new_hits := n;
                            email := opt_email opts; query_name := key |} c
                         (default "" (export opts)) (output_path opts)
                     else []))) as (k & Hk & -> & Hok).
    exists (S k). split; [lia|]. split.
    + rewrite fmap_app, <- app_assoc. done.
    + intros H. by rewrite Hok.
Qed.

(** The file opened for [--save] is closed at the end of a run that
    returns, and not at all in a run that raises. *)
Lemma run_queries_close todo h acc evs :
  EvClose ∉ evs →
  match outcome (run_queries E opts old new todo h acc evs) with
  | Ok _ =>
      ∃ mid, events (run_queries E opts old new todo h acc evs)
             = evs ++ mid
                   ++ (if truthy (save_output opts) then [EvClose] else [])
             ∧ EvClose ∉ mid
  | Raise _ => EvClose ∉ events (run_queries E opts old new todo h acc evs)
  end.
Proof.
  revert h acc evs. induction todo as [|key rest IH]; intros h acc evs Hevs;
    simpl.
  - exists []. split; [done|]. by intros ?%elem_of_nil.
  - destruct (group_get old key) as [o|e] eqn:Ho; simpl; [|done].
    destruct (group_get new key) as [n|e] eqn:Hn; simpl; [|done].
    destruct (compare E _ h) as [c|e]; [|done].
    destruct (output_comparison _ c _ _ _ _) as [out|e] eqn:Hout; [|done].
    set (exp := if truthy (export opts) then _ else []).
    assert (EvClose ∉ out ++ exp) as Hnew.
    { intros [Hin|Hin]%elem_of_app.
      - apply bind_Ok_inv in Hout as (m & _ & Hout).
        apply for_outputs_lines in Hout. rewrite Forall_forall in Hout.
        by apply Hout in Hin.
      - subst exp. destruct (truthy (export opts)); [|by apply elem_of_nil in Hin].
        pose proof (export_hit_categories_events
                      {| input_old_hits := o; input_new_hits := n;
                         email := opt_email opts; query_name := key |} c
                      (default "" (export opts)) (output_path opts)) as Hexp.
        rewrite Forall_forall in Hexp. by apply Hexp in Hin. }
    specialize (IH (store c) (acc ++ [(key, c)]) (evs ++ out ++ exp)).
    destruct (outcome (run_queries E opts old new rest (store c)
                         (acc ++ [(key, c)]) (evs ++ out ++ exp))).
    + destruct IH as (mid & -> & Hmid); [set_solver|].
      exists ((out ++ exp) ++ mid). split; [by rewrite <- !app_assoc|].
      set_solver.
    + apply IH. set_solver.
Qed.

End Queries.

(** X6.  Every comparison [perform_comparison] records is the result of
    [compare] on the old hits and the new hits that carry the query name it
    is recorded for, each list in the order of its file. *)
Theorem perform_comparison_per_query (E : Collaborators) (opts : Options)
    (old_hits_all new_hits_all : list nat) (h : Heap)
    (key : string) (c : Compared) :
  (key, c) ∈ comparisons
               (perform_comparison E opts old_hits_all new_hits_all h) →
  key ∈ query_names E old_hits_all
  ∧ key ∈ query_names E new_hits_all
  ∧ ∃ h',
      compare E
        {| input_old_hits :=
             filter (λ hit, name (heap E hit) = key) old_hits_all;
           input_new_hits :=
             filter (λ hit, name (heap E hit) = key) new_hits_all;
           email := opt_email opts; query_name := key |} h' = Ok c.
Proof.
  unfold perform_comparison.
  destruct (keys_equal (group_hits E old_hits_all)
              (group_hits E new_hits_all)); [|by intros ?%elem_of_nil].
  intros Hin.
  pose proof (run_queries_compared E opts (group_hits E old_hits_all)
                (group_hits E new_hits_all)
                (keys (group_hits E old_hits_all)) h []
                (if truthy (save_output opts)
                 then [EvOpen (output_path opts
                               +:+ default "" (save_output opts))]
                 else [])
                (Forall_nil_2 _)) as Hall.
  rewrite Forall_forall in Hall.
  destruct (Hall _ Hin) as (o & n & h' & Ho & Hn & Hc). simpl in *.
  pose proof (group_hits_get E old_hits_all key) as Ho'.
  pose proof (group_hits_get E new_hits_all key) as Hn'.
  rewrite Ho in Ho'. rewrite Hn in Hn'.
  destruct (decide (key ∈ query_names E old_hits_all)); [|done].
  destruct (decide (key ∈ query_names E new_hits_all)); [|done].
  injection Ho' as ->. injection Hn' as ->. eauto.
Qed.

Lemma perform_comparison_per_query_witness :
  ∃ h', compare Fixture.env
          {| input_old_hits := [8; 2]; input_new_hits := [5; 10; 9];
             email := "test@test.com"; query_name := "Q1" |} h'
        = Ok Fixture.disjoint_c.
Proof.
  destruct (perform_comparison_per_query Fixture.env Fixture.options
              [8; 2] [5; 10; 9] Fixture.fresh "Q1" Fixture.disjoint_c)
    as (_ & _ & h' & Hc).
  - vm_compute. left.
  - exists h'. exact Hc.
Defined.

(** X7.  [perform_comparison] visits the query names in the order of the
    old file's dictionary and stops at the first query on which [compare]
    or the report raises: the names of the recorded comparisons are an
    initial part of the keys, and all the keys when the run returns. *)
Theorem perform_comparison_order (E : Collaborators) (opts : Options)
    (old_hits_all new_hits_all : list nat) (h : Heap) :
  let r := perform_comparison E opts old_hits_all new_hits_all h in
  (fst <$> comparisons r) `prefix_of` keys (group_hits E old_hits_all)
  ∧ (outcome r = Ok () →
     fst <$> comparisons r = keys (group_hits E old_hits_all)).
Proof.
  cbv zeta. unfold perform_comparison.
  destruct (keys_equal (group_hits E old_hits_all)
              (group_hits E new_hits_all)); simpl.
  - destruct (run_queries_order E opts (group_hits E old_hits_all)
                (group_hits E new_hits_all)
                (keys (group_hits E old_hits_all)) h []
                (if truthy (save_output opts)
                 then [EvOpen (output_path opts
                               +:+ default "" (save_output opts))]
                 else [])) as (k & Hk & -> & Hok).
    simpl. split; [apply prefix_take|].
    intros Hrun. rewrite (Hok Hrun). apply firstn_all.
  - split; [apply prefix_nil | done].
Qed.

(** X8.  With [--save], a run of [perform_comparison] that returns opens
    the output file first and closes it last; a run that raises never
    closes it.  Without [--save] no file is closed. *)
Theorem perform_comparison_closes_file (E : Collaborators) (opts : Options)
    (old_hits_all new_hits_all : list nat) (h : Heap) :
  let r := perform_comparison E opts old_hits_all new_hits_all h in
  match outcome r with
  | Ok _ =>
      if truthy (save_output opts) then
        ∃ mid, events r
               = EvOpen (output_path opts +:+ default "" (save_output opts))
                   :: mid ++ [EvClose]
               ∧ EvClose ∉ mid
      else EvClose ∉ events r
  | Raise _ => EvClose ∉ events r
  end.
Proof.
  cbv zeta. unfold perform_comparison.
  destruct (keys_equal (group_hits E old_hits_all)
              (group_hits E new_hits_all)); simpl.
  2: { by intros ?%elem_of_nil. }
  pose proof (run_queries_close E opts (group_hits E old_hits_all)
                (group_hits E new_hits_all)
                (keys (group_hits E old_hits_all)) h []
                (if truthy (save_output opts)
                 then [EvOpen (output_path opts
                               +:+ default "" (save_output opts))]
                 else [])) as Hclose.
  destruct (outcome (run_queries E opts _ _ _ h [] _)).
  - destruct Hclose as (mid & -> & Hmid).
    { destruct (truthy (save_output opts)); set_solver. }
    destruct (truthy (save_output opts)); simpl.
    + exists mid. done.
    + rewrite app_nil_r. done.
  - apply Hclose. destruct (truthy (save_output opts)); set_solver.
Qed.

(** ** Exporting the categories *)

Lemma split_char_length (sep : ascii) (s : string) :
  length (split_char sep s) = S (count_char sep s).
Proof.
  induction s as [|a s IH]; simpl; [done|].
  case_decide; simpl; [by rewrite IH|].
  pose proof (split_char_nonempty sep s) as Hne.
  destruct (split_char sep s) as [|w ws]; [done|]. simpl in *. lia.
Qed.

(** X9.  [export_hit_categories] handles each category of the
    comma-separated list once, in order: it produces one event more than
    the list has commas.  A file is written only for a category that names
    a bucket which is not empty, under the name built from the path, the
    sanitised query name and the category; a category that names no
    bucket, or an empty one, is reported as unknown. *)
Theorem export_hit_categories_events_spec (self : CompareBLASTs)
    (c : Compared) (cats path : string) :
  length (export_hit_categories self c cats path) = S (count_char "," cats)
  ∧ (∀ file hits,
       EvExport file hits ∈ export_hit_categories self c cats path →
       hits ≠ []
       ∧ ∃ category, category ∈ split_char "," cats
                     ∧ category_hits c category = Some hits
                     ∧ file = export_file self path category)
  ∧ (∀ category,
       category ∈ split_char "," cats →
       category_hits c category = None ∨ category_hits c category = Some [] →
       EvPrint ("Unknown export category " +:+ category)
       ∈ export_hit_categories self c cats path).
Proof.
  unfold export_hit_categories. split; [|split].
  - by rewrite length_fmap, split_char_length.
  - intros file hits (category & Hev & Hin)%list_elem_of_fmap.
    unfold export_category in Hev.
    destruct (category_hits c category) as [[|hit hits']|] eqn:Hcat;
      try done.
    injection Hev as -> ->. split; [done|]. exists category. auto.
  - intros category Hin Hcat. apply list_elem_of_fmap.
    exists category. split; [|done]. unfold export_category.
    by destruct Hcat as [-> | ->].
Qed.

Lemma valid_name_occurs (a : ascii) (s : string) :
  occurs a (valid_name s) → occurs a s ∧ valid_char a = true.
Proof.
  induction s as [|b s IH]; simpl; [done|].
  destruct (valid_char b) eqn:Hb; simpl.
  - intros [->|Ha]; [auto|]. destruct (IH Ha). auto.
  - intros Ha. destruct (IH Ha). auto.
Qed.

Lemma valid_name_id (s : string) :
  (∀ a, occurs a s → valid_char a = true) → valid_name s = s.
Proof.
  induction s as [|b s IH]; simpl; intros Hall; [done|].
  rewrite (Hall b) by auto. f_equal. apply IH. auto.
Qed.

(** X10.  The query name used in the names of the exported files holds
    only characters of the query name that are letters, digits or one of
    [-_.() ], in their order; sanitising keeps a name that has only such
    characters, and sanitising twice changes nothing more. *)
Theorem valid_name_safe (s : string) :
  (∀ a, occurs a (valid_name s) → occurs a s ∧ valid_char a = true)
  ∧ ((∀ a, occurs a s → valid_char a = true) → valid_name s = s)
  ∧ valid_name (valid_name s) = valid_name s
  ∧ String.length (valid_name s) ≤ String.length s.
Proof.
  split; [intros a; apply valid_name_occurs|]. split; [apply valid_name_id|].
  split.
  - apply valid_name_id. intros a Ha. by apply valid_name_occurs in Ha as [_ ?].
  - induction s as [|b s IH]; simpl; [done|].
    destruct (valid_char b); simpl; lia.
Qed.

(** ** The report *)

(** The tally as a count over the two slices the code takes. *)
Lemma tally_slices (c : Compared) (top : Z) :
  match tally c top with
  | Ok m =>
      tally_shaped m
      ∧ Forall (λ hit, ∃ st, status (store c) !! hit = Some st
                             ∧ st ∈ categories)
               (slice_to (old_all (old_hits c)) (top_old c top))
      ∧ ∀ k, m !! k
             = if decide (k ∈ categories)
               then Some (count_status (store c) k
                            (slice_to (old_all (old_hits c)) (top_old c top))
                          + if decide (k ∈ ["new"; "strange"])
                            then count_status (store c) k
                                   (slice_to (new_all (new_hits c))
                                      (top_new c top))
                            else 0)
               else None
  | Raise e =>
      e = KeyError
      ∧ Exists (λ hit, ∀ st, status (store c) !! hit = Some st
                             → st ∉ categories)
               (slice_to (old_all (old_hits c)) (top_old c top))
  end.
Proof.
  unfold tally.
  pose proof (count_old_loop (store c)
                (slice_to (old_all (old_hits c)) (top_old c top))
                hits_per_category0 hits_per_category0_shaped) as Hloop.
  destruct (for_each (count_old (store c)) _ hits_per_category0) as [m|e];
    simpl; [|done].
  destruct Hloop as (Hm & Hall & Hcount).
  destruct (count_new_loop (store c)
              (slice_to (new_all (new_hits c)) (top_new c top)) m Hm)
    as (m' & -> & Hm' & Hcount').
  split; [done|]. split; [done|]. intros k.
  rewrite Hcount', Hcount, hits_per_category0_lookup.
  by destruct (decide (k ∈ categories)).
Qed.

Lemma category_lines_shown (long_output adaptive : bool)
    (m : gmap string nat) (l : list string) :
  (∀ k, k ∈ l → is_Some (m !! k)) →
  category_lines long_output adaptive m l
  = Ok ((λ k, category_name long_output k +:+ pretty (default 0 (m !! k)))
          <$> filter (λ k, adaptive = false ∨ 0 < default 0 (m !! k)) l).
Proof.
  induction l as [|k l IH]; intros Hkeys; simpl; [done|].
  destruct (Hkeys k) as [n Hn]; [set_solver|].
  unfold dict_get. rewrite Hn. simpl.
  rewrite IH by (intros; apply Hkeys; set_solver). simpl.
  rewrite filter_cons, Hn. simpl.
  destruct adaptive; simpl.
  - destruct (decide (0 < n)) as [Hpos|Hpos].
    + rewrite bool_decide_eq_true_2 by done.
      rewrite decide_True by auto. simpl. by rewrite Hn.
    + rewrite bool_decide_eq_false_2 by done.
      rewrite decide_False; [done|]. intros [?|?]; done.
  - simpl. by rewrite ?Hn.
Qed.

(** X11.  [output_comparison] raises only if the tally does, before any
    line is output.  Otherwise every output channel receives the same
    lines, channel after channel: the query line when the name is not
    empty, three header lines in long output, one line for each category
    shown (all seven when not adaptive, those with a positive count when
    adaptive), in the fixed order, and a last line holding a newline. *)
Theorem output_comparison_lines (self : CompareBLASTs) (c : Compared)
    (output_types : list sink) (top : Z) (long_output adaptive : bool) :
  match tally c top with
  | Raise e =>
      output_comparison self c output_types top long_output adaptive
      = Raise e
  | Ok m =>
      ∃ ls,
        report_lines self c top long_output adaptive m = Ok ls
        ∧ output_comparison self c output_types top long_output adaptive
          = Ok (concat ((λ out, EvLine out <$> ls) <$> output_types))
        ∧ last ls = Some newline
        ∧ length ls
          = (if decide (query_name self = "") then 0 else 1)
            + (if long_output then 3 else 0)
            + length (shown_categories adaptive m) + 1
  end.
Proof.
  pose proof (tally_slices c top) as Htally. unfold output_comparison.
  destruct (tally c top) as [m|e]; simpl; [|done].
  destruct Htally as (Hm & _ & _).
  unfold report_lines.
  rewrite category_lines_shown by (intros k Hk; by apply Hm).
  simpl. eexists. split; [done|]. split; [|split].
  - induction output_types as [|out rest IH]; simpl; [done|].
    rewrite IH. done.
  - rewrite !app_assoc. apply last_snoc.
  - rewrite !length_app, length_fmap. unfold shown_categories. simpl.
    destruct (decide (query_name self = "")), long_output; simpl; lia.
Qed.

Lemma top_old_truncates (c : Compared) (top : Z) :
  top_old c top ≠ Z.of_nat (length (old_all (old_hits c)))
  ↔ top ≠ 0%Z ∧ (top < Z.of_nat (length (old_all (old_hits c))))%Z.
Proof. unfold top_old. destruct (Z.eqb_spec top 0); lia. Qed.

Lemma top_new_truncates (c : Compared) (top : Z) :
  top_new c top ≠ Z.of_nat (length (new_all (new_hits c)))
  ↔ top ≠ 0%Z ∧ (top < Z.of_nat (length (new_all (new_hits c))))%Z.
Proof. unfold top_new. destruct (Z.eqb_spec top 0); lia. Qed.

(** X12.  In long output the third header line reads [Among the top ...]
    only when [top] is not 0 and smaller than the number of hits of both
    sides; when [top] cuts one side only, the line reads
    [From all hits were:]. *)
Theorem report_header (self : CompareBLASTs) (c : Compared) (top : Z)
    (adaptive : bool) (m : gmap string nat) (ls : list string) :
  report_lines self c top true adaptive m = Ok ls →
  ls !! ((if decide (query_name self = "") then 0 else 1) + 2)
  = Some (if decide (top ≠ 0%Z
                     ∧ (top < Z.of_nat (length (old_all (old_hits c))))%Z
                     ∧ (top < Z.of_nat (length (new_all (new_hits c))))%Z)
          then "Among the top " +:+ pretty top +:+ " hits were:"
          else "From all hits were:").
Proof.
  unfold report_lines. intros H.
  apply bind_Ok_inv in H as (cl & _ & [= <-]).
  assert ((if bool_decide (top_old c top
                           ≠ Z.of_nat (length (old_all (old_hits c))))
              && bool_decide (top_new c top
                              ≠ Z.of_nat (length (new_all (new_hits c))))
           then "Among the top " +:+ pretty top +:+ " hits were:"
           else "From all hits were:")
          = (if decide (top ≠ 0%Z
                     ∧ (top < Z.of_nat (length (old_all (old_hits c))))%Z
                     ∧ (top < Z.of_nat (length (new_all (new_hits c))))%Z)
             then "Among the top " +:+ pretty top +:+ " hits were:"
             else "From all hits were:")) as ->.
  { pose proof (top_old_truncates c top) as Ho.
    pose proof (top_new_truncates c top) as Hn.
    destruct (decide (top ≠ 0%Z ∧ _ ∧ _)) as [Hyes|Hno].
    - rewrite !bool_decide_eq_true_2 by tauto. done.
    - destruct (decide (top_old c top
                        ≠ Z.of_nat (length (old_all (old_hits c)))))
        as [Ho'|Ho'].
      + rewrite (bool_decide_eq_true_2 _ Ho'). simpl.
        rewrite bool_decide_eq_false_2; [done|]. tauto.
      + by rewrite (bool_decide_eq_false_2 _ Ho'). }
  by destruct (decide (query_name self = "")).
Qed.

Lemma report_header_witness :
  ∃ ls, report_lines Fixture.stale Fixture.disjoint_c 2 true true
          hits_per_category0 = Ok ls
        ∧ ls !! 3 = Some "From all hits were:".
Proof.
  destruct (report_lines Fixture.stale Fixture.disjoint_c 2 true true
              hits_per_category0) as [ls|e] eqn:Hrun.
  - exists ls. split; [done|].
    pose proof (report_header Fixture.stale Fixture.disjoint_c 2 true
                  hits_per_category0 ls Hrun) as Hhead.
    vm_compute in Hhead. exact Hhead.
  - vm_compute in Hrun. discriminate.
Defined.

Lemma slice_to_all {A : Type} (l : list A) (n : Z) :
  (Z.of_nat (length l) ≤ n)%Z → slice_to l n = l.
Proof.
  intros Hn. unfold slice_to. rewrite (proj2 (Z.leb_le _ _)) by lia.
  apply take_ge. lia.
Qed.

(** X13.  A value of [top] that is at least the number of hits of both
    sides gives the tally of [top = 0]. *)
Theorem tally_large_top (c : Compared) (top : Z) :
  (Z.of_nat (length (old_all (old_hits c))) ≤ top)%Z →
  (Z.of_nat (length (new_all (new_hits c))) ≤ top)%Z →
  tally c top = tally c 0.
Proof.
  intros Ho Hn. unfold tally, top_old, top_new.
  destruct (Z.eqb_spec top 0) as [->|Hne]; [done|].
  rewrite Z.eqb_refl. rewrite !Z.min_r by lia.
  done.
Qed.

Lemma tally_large_top_witness :
  tally Fixture.disjoint_c 7 = tally Fixture.disjoint_c 0.
Proof.
  apply tally_large_top; vm_compute; discriminate.
Defined.

(** X14.  A negative [top] makes the tally leave out the last [-top] hits
    of each side: the tally then counts the statuses of the remaining old
    hits, and the statuses ['new'] and ['strange'] of the remaining new
    hits. *)
Theorem tally_negative_top (c : Compared) (top : Z) :
  (top < 0)%Z →
  let old := take (length (old_all (old_hits c)) - Z.to_nat (- top))
                  (old_all (old_hits c)) in
  let new := take (length (new_all (new_hits c)) - Z.to_nat (- top))
                  (new_all (new_hits c)) in
  match tally c top with
  | Ok m =>
      Forall (λ hit, ∃ st, status (store c) !! hit = Some st
                           ∧ st ∈ categories) old
      ∧ ∀ k, k ∈ categories →
             m !! k
             = Some (count_status (store c) k old
                     + if decide (k ∈ ["new"; "strange"])
                       then count_status (store c) k new else 0)
  | Raise e =>
      e = KeyError
      ∧ Exists (λ hit, ∀ st, status (store c) !! hit = Some st
                             → st ∉ categories) old
  end.
Proof.
  intros Htop old new. subst old new.
  assert (∀ {A} (l : list A),
            slice_to l (if (top =? 0)%Z then Z.of_nat (length l)
                        else Z.min top (Z.of_nat (length l)))
            = take (length l - Z.to_nat (- top)) l) as Hslice.
  { intros A l. destruct (Z.eqb_spec top 0); [lia|].
    rewrite Z.min_l by lia. unfold slice_to.
    by rewrite (proj2 (Z.leb_gt _ _)) by lia. }
  pose proof (tally_slices c top) as Htally.
  unfold top_old, top_new in Htally. rewrite !Hslice in Htally.
  destruct (tally c top) as [m|e]; [|done].
  destruct Htally as (_ & Hall & Hcount). split; [done|].
  intros k Hk. rewrite Hcount. by rewrite decide_True.
Qed.

Lemma tally_negative_top_witness :
  ∃ m, tally Fixture.disjoint_c (-1) = Ok m
       ∧ m !! "live" = Some 1
       ∧ m !! "suppressed" = Some 0
       ∧ m !! "new" = Some 2
       ∧ m !! "strange" = Some 0.
Proof.
  pose proof (tally_negative_top Fixture.disjoint_c (-1)) as Htally.
  cbv zeta in Htally.
  destruct (tally Fixture.disjoint_c (-1)) as [m|e] eqn:Hrun.
  - exists m. split; [done|]. destruct Htally as [_ Hm]; [lia|].
    rewrite !Hm by (by apply (bool_decide_unpack _)).
    repeat split; vm_compute; reflexivity.
  - vm_compute in Hrun. discriminate.
Defined.

Lemma count_status_categories (h : Heap) (l : list nat) :
  Forall (λ hit, ∃ st, status h !! hit = Some st ∧ st ∈ categories) l →
  sum_list ((λ k, count_status h k l) <$> categories) = length l.
Proof.
  induction 1 as [|x l (st & Hst & Hcat) _ IH]; [done|].
  simpl in *. rewrite !count_status_cons, Hst.
  unfold categories in Hcat.
  repeat (apply elem_of_cons in Hcat as [->|Hcat]; [simpl; lia|]).
  by apply elem_of_nil in Hcat.
Qed.

Lemma count_status_new_or_strange (h : Heap) (l : list nat) :
  count_status h "new" l + count_status h "strange" l
  = length (new_or_strange h l).
Proof.
  unfold new_or_strange. induction l as [|x l IH]; [done|].
  rewrite !count_status_cons, filter_cons.
  repeat case_decide; simpl; try lia; try congruence; naive_solver.
Qed.

(** X15.  When the tally returns, its counts add up to the number of old
    hits it looked at plus the number of new hits it looked at whose
    status is ['new'] or ['strange']: every old hit is counted once,
    matched and replacing new hits are not counted. *)
Theorem tally_total_hits (c : Compared) (top : Z) (m : gmap string nat) :
  tally c top = Ok m →
  tally_total m
  = length (slice_to (old_all (old_hits c)) (top_old c top))
    + length (new_or_strange (store c)
                (slice_to (new_all (new_hits c)) (top_new c top))).
Proof.
  intros Hrun. pose proof (tally_slices c top) as Htally.
  rewrite Hrun in Htally. destruct Htally as (_ & Hall & Hcount).
  rewrite <- (count_status_categories (store c) _ Hall).
  rewrite <- count_status_new_or_strange.
  unfold tally_total, categories. simpl.
  rewrite !Hcount. simpl. lia.
Qed.

Lemma tally_total_hits_witness :
  ∃ m, tally Fixture.disjoint_c 0 = Ok m ∧ tally_total m = 5.
Proof.
  destruct (tally Fixture.disjoint_c 0) as [m|e] eqn:Hrun.
  - exists m. split; [done|].
    rewrite (tally_total_hits Fixture.disjoint_c 0 m Hrun).
    vm_compute. reflexivity.
  - vm_compute in Hrun. discriminate.
Defined.

(** ** More on [compare] *)

Lemma bind_new_id_spec (genes : gmap string DirectoryRecord) (l : list ID)
    (cur : option string) :
  match bind_new_id genes l cur with
  | Ok r =>
      Forall (λ i, is_gi i → is_Some (replaced_by genes i)) l
      ∧ r = match last (filter is_gi l) with
            | Some i => replaced_by genes i
            | None => cur
            end
  | Raise e =>
      e = KeyError
      ∧ Exists (λ i, is_gi i ∧ replaced_by genes i = None) l
  end.
Proof.
  revert cur. induction l as [|i l IH]; intros cur; [by split|].
  cbn [bind_new_id]. rewrite filter_cons.
  destruct (decide (is_gi i)) as [Hgi|Hgi].
  - rewrite (decide_True (P := db i = "gi")) by exact Hgi.
    unfold dict_get.
    destruct (genes !! num i) as [rec|] eqn:Hrec; simpl.
    2: { split; [done|]. left. split; [done|]. unfold replaced_by.
         by rewrite Hrec. }
    destruct (ReplacedBy rec) as [v|] eqn:Hv.
    2: { split; [done|]. left. split; [done|]. unfold replaced_by.
         rewrite Hrec. done. }
    assert (replaced_by genes i = Some v) as Hi
      by (unfold replaced_by; rewrite Hrec; done).
    specialize (IH (Some v)).
    destruct (bind_new_id genes l (Some v)) as [r|e].
    + destruct IH as [Hall ->]. split.
      * constructor; [by rewrite Hi | done].
      * rewrite last_cons.
        destruct (last (filter is_gi l)); [done | by rewrite Hi].
    + destruct IH as [-> Hex]. split; [done | by right].
  - rewrite (decide_False (P := db i = "gi")) by exact Hgi.
    specialize (IH cur). destruct (bind_new_id genes l cur) as [r|e].
    + destruct IH as [Hall ->]. split; [|done].
      constructor; [by intros ? | done].
    + destruct IH as [-> Hex]. split; [done | by right].
Qed.

Lemma bind_new_id_declared (genes : gmap string DirectoryRecord)
    (h : BlastHit) (cur r : option string) :
  canonical_id h ≠ None →
  bind_new_id genes (ids h) cur = Ok r →
  r = declared_replacement genes h.
Proof.
  intros Hgi Hrun.
  pose proof (bind_new_id_spec genes (ids h) cur) as Hspec.
  rewrite Hrun in Hspec. destruct Hspec as [_ ->].
  unfold declared_replacement.
  destruct (last (filter is_gi (ids h))) as [j|] eqn:Hlast; [done|].
  apply last_None in Hlast. exfalso. apply Hgi. unfold canonical_id.
  clear Hgi Hrun. revert Hlast.
  induction (ids h) as [|i l IH]; [done|].
  rewrite filter_cons. cbn [find].
  destruct (decide (is_gi i)) as [Hi|Hi]; [done|].
  rewrite (bool_decide_eq_false_2 (db i = "gi")) by exact Hi. exact IH.
Qed.

(** X16.  The two loops over the identifiers of an old hit differ.  The
    loop of lines 88-92 breaks: [classify_old] reads the status under the
    first ['gi'] identifier only, and does nothing for a hit without one.
    The loop of lines 102-104 does not: [bind_new_id] looks every ['gi']
    identifier up, raises [KeyError] exactly when one of them is missing
    from the mapping or has no ['ReplacedBy'] entry, and otherwise leaves
    the replacement declared for the last ['gi'] identifier, or the value
    left by the previous hit when the hit has no ['gi'] identifier. *)
Theorem replacement_id_of_last_gi (E : Collaborators)
    (genes : gmap string DirectoryRecord) (hit : nat) (s : OldOnly * Heap)
    (cur : option string) :
  classify_old E genes hit s
  = match head (filter is_gi (ids (heap E hit))) with
    | Some i =>
        rec ← dict_get genes (num i);
        o ← oldOnly_append (Status rec) hit s.1;
        Ok (o, set_status hit (Status rec) s.2)
    | None => Ok s
    end
  ∧ match bind_new_id genes (ids (heap E hit)) cur with
    | Ok r =>
        Forall (λ i, is_gi i → is_Some (replaced_by genes i))
               (ids (heap E hit))
        ∧ r = match last (filter is_gi (ids (heap E hit))) with
              | Some i => replaced_by genes i
              | None => cur
              end
    | Raise e =>
        e = KeyError
        ∧ Exists (λ i, is_gi i ∧ replaced_by genes i = None)
                 (ids (heap E hit))
    end.
Proof.
  split; [|apply bind_new_id_spec].
  unfold classify_old.
  induction (ids (heap E hit)) as [|i l IH]; [done|].
  cbn [classify_ids]. rewrite filter_cons.
  destruct (decide (is_gi i)) as [Hgi|Hgi].
  - by rewrite (decide_True (P := db i = "gi")) by exact Hgi.
  - by rewrite (decide_False (P := db i = "gi")) by exact Hgi.
Qed.

Section Classification.

Context (E : Collaborators).

Lemma classify_old_outcome genes hit s :
  match classify_old E genes hit s with
  | Ok _ =>
      canonical_id (heap E hit) = None ∨ known_fate (fate E genes hit)
  | Raise e =>
      e = KeyError
      ∧ canonical_id (heap E hit) ≠ None
      ∧ ¬ known_fate (fate E genes hit)
  end.
Proof.
  unfold classify_old, fate, canonical_id, known_fate.
  induction (ids (heap E hit)) as [|i l IH]; simpl; [by left|].
  destruct (decide (db i = "gi")) as [Hgi|Hgi].
  - rewrite bool_decide_eq_true_2 by done. simpl. unfold dict_get.
    destruct (genes !! num i) as [rec|]; simpl.
    2: { split; [done|]. split; [done|]. intros [?|[?|?]]; done. }
    unfold oldOnly_append.
    destruct (decide (Status rec = "live")) as [->|Hl]; simpl; [auto|].
    destruct (decide (Status rec = "replaced")) as [->|Hr]; simpl; [auto|].
    destruct (decide (Status rec = "suppressed")) as [->|Hs]; simpl; [auto|].
    split; [done|]. split; [done|]. intros [?|[?|?]]; congruence.
  - rewrite bool_decide_eq_false_2 by done. apply IH.
Qed.

Lemma classify_loop_outcome genes l s :
  match for_each (classify_old E genes) l s with
  | Ok _ =>
      Forall (λ hit, canonical_id (heap E hit) = None
                     ∨ known_fate (fate E genes hit)) l
  | Raise e =>
      e = KeyError
      ∧ Exists (λ hit, canonical_id (heap E hit) ≠ None
                       ∧ ¬ known_fate (fate E genes hit)) l
  end.
Proof.
  revert s. induction l as [|x l IH]; intros s; cbn [for_each]; [done|].
  pose proof (classify_old_outcome genes x s) as Hx.
  destruct (classify_old E genes x s) as [s1|e]; cbn [mbind result_bind].
  - specialize (IH s1).
    destruct (for_each (classify_old E genes) l s1) as [s2|e].
    + by constructor.
    + destruct IH as [-> Hex]. split; [done | by right].
  - destruct Hx as (-> & Hx). split; [done | by left].
Qed.

End Classification.

(** X17.  Once the first call of the resolver has returned, [compare]
    raises [KeyError] in its classification loop whenever some unmatched
    old hit has a ['gi'] identifier of which the first is missing from the
    mapping, or has a directory status other than ['live'], ['replaced']
    and ['suppressed']. *)
Theorem unknown_directory_status_raises (E : Collaborators)
    (self : CompareBLASTs) (h0 : Heap) (genes : gmap string DirectoryRecord) :
  get_idlist E (input_old_hits self) (email self) = Ok genes →
  Exists (λ hit, canonical_id (heap E hit) ≠ None
                 ∧ ¬ known_fate (fate E genes hit))
         (p_unknown (partition_side E (input_old_hits self)
                       (input_new_hits self))) →
  compare E self h0 = Raise KeyError.
Proof.
  intros Hg Hbad.
  pose proof (classify_loop_outcome E genes
                (p_unknown (partition_side E (input_old_hits self)
                              (input_new_hits self)))
                (empty_oldOnly, h0)) as Hloop.
  rewrite compare_unfold. cbv zeta. rewrite Hg. cbn [mbind result_bind].
  destruct (for_each (classify_old E genes) _ (empty_oldOnly, h0))
    as [s|e] eqn:Hrun.
  - exfalso. apply Exists_exists in Hbad as (hit & Hin & Hgi & Hfate).
    rewrite Forall_forall in Hloop. destruct (Hloop hit Hin); done.
  - by destruct Hloop as [-> _].
Qed.

Lemma unknown_directory_status_raises_witness :
  compare Fixture.env_unknowing Fixture.only_old Fixture.fresh
  = Raise KeyError.
Proof.
  apply (unknown_directory_status_raises Fixture.env_unknowing
           Fixture.only_old Fixture.fresh ∅).
  - vm_compute. reflexivity.
  - apply Exists_exists. exists 0. split; [by apply (bool_decide_unpack _)|].
    split; [by vm_compute|]. vm_compute. intros [H|[H|H]]; discriminate.
Defined.

(** ** The buckets and the statuses *)

Section Buckets.

Context (E : Collaborators).

Lemma link_loop_paired genes l s s' :
  (∀ x, x ∈ l → canonical_id (heap E x) ≠ None) →
  Forall2 (linked E genes) (l_old_replacement s) (l_new_replacement s) →
  for_each (link_step E genes) l s = Ok s' →
  Forall2 (linked E genes) (l_old_replacement s') (l_new_replacement s').
Proof.
  intros Hgi H0.
  apply (for_each_invariant (link_step E genes)
    (λ _ s1, Forall2 (linked E genes)
               (l_old_replacement s1) (l_new_replacement s1))); [done|].
  intros pre x post s1 s2 Hl Hinv Hstep.
  assert (x ∈ l) as Hx by (rewrite Hl; set_solver).
  apply link_step_inv in Hstep as [Hbind Hstep].
  destruct Hstep as
    [(v & i & rep & Hv & Hfind & _ & -> & -> & _)
    |(_ & _ & -> & -> & _)]; [|done].
  apply Forall2_app; [done|]. constructor; [|constructor].
  exists v. apply list_find_Some in Hfind as (_ & Hq & _). split; [|done].
  rewrite <- Hv. symmetry.
  exact (bind_new_id_declared genes (heap E x) (new_id s1) (new_id s2)
           (Hgi x Hx) Hbind).
Qed.

Lemma link_loop_buckets genes l s s' :
  NoDup l →
  (∀ x, x ∈ l → x ∉ l_unknown s) →
  (∀ x, x ∈ l → status (l_heap s) !! x = Some "replaced") →
  (∀ x, x ∈ l_lost s →
     status (l_heap s) !! x = Some "live" ∧ x ∉ l_unknown s) →
  l_old_replacement s = [] →
  l_new_replacement s = [] →
  for_each (link_step E genes) l s = Ok s' →
  bucket_status (l_heap s') "live" (l_lost s')
  ∧ bucket_status (l_heap s') "replaced" (l_old_replacement s')
  ∧ bucket_status (l_heap s') "replacement" (l_new_replacement s')
  ∧ (∀ x, x ∈ l_lost s' ++ l_old_replacement s' → x ∉ l_unknown s)
  ∧ (∀ x, x ∉ l → x ∉ l_unknown s →
       status (l_heap s') !! x = status (l_heap s) !! x).
Proof.
  intros Hnd Hdisj Hrep Hlost Hor Hnr Hrun.
  pose (P := λ (pre : list nat) (s1 : LinkState),
    (∀ x, x ∈ l_lost s1 →
       status (l_heap s1) !! x = Some "live" ∧ x ∉ l_unknown s)
    ∧ (∀ x, x ∈ l_old_replacement s1 →
         status (l_heap s1) !! x = Some "replaced" ∧ x ∈ pre)
    ∧ (∀ x, x ∈ l_new_replacement s1 →
         status (l_heap s1) !! x = Some "replacement" ∧ x ∈ l_unknown s)
    ∧ (∀ x, x ∈ l → x ∉ pre → status (l_heap s1) !! x = Some "replaced")
    ∧ l_unknown s1 `sublist_of` l_unknown s
    ∧ (∀ x, x ∉ l → x ∉ l_unknown s →
         status (l_heap s1) !! x = status (l_heap s) !! x)).
  assert (P l s') as (Ha & Hb & Hc & _ & _ & Hf).
  { apply (for_each_invariant (link_step E genes) P l s s'); [| |done];
      subst P; cbv beta.
    - rewrite Hor, Hnr. split; [done|].
      split; [by intros x ?%elem_of_nil|].
      split; [by intros x ?%elem_of_nil|]. auto.
    - intros pre y post s1 s2 Hl (Ha & Hb & Hc & Hd & He & Hf) Hstep.
      assert (y ∈ l) as Hy by (rewrite Hl; set_solver).
      assert (y ∉ pre) as Hy_pre.
      { rewrite Hl in Hnd. apply NoDup_app in Hnd as (_ & Hd' & _).
        intros Hin. apply (Hd' y Hin). set_solver. }
      assert (∀ x, x ∈ pre → x ∈ l) as Hpre by (rewrite Hl; set_solver).
      apply link_step_inv in Hstep as [_ Hstep].
      destruct Hstep as
        [(v & i & rep & _ & Hfind & -> & -> & -> & -> & ->)
        |(_ & -> & -> & -> & -> & ->)]; simpl.
      + apply list_find_Some in Hfind as (Hlook & _).
        assert (rep ∈ l_unknown s) as Hrep_unk.
        { eapply elem_of_sublist; [|exact He].
          by eapply list_elem_of_lookup_2. }
        assert (∀ x, x ∉ l_unknown s → rep ≠ x) as Hne
          by (intros x Hx ->; done).
        split; [|split; [|split; [|split; [|split]]]].
        * intros x Hx. destruct (Ha x Hx) as [? Hxu].
          by rewrite lookup_insert_ne by (by apply Hne).
        * intros x [Hx| ->%list_elem_of_singleton]%elem_of_app.
          -- destruct (Hb x Hx) as [? Hxp].
             rewrite lookup_insert_ne by (apply Hne, Hdisj, Hpre, Hxp).
             split; [done | set_solver].
          -- rewrite lookup_insert_ne by (apply Hne, Hdisj, Hy).
             split; [by apply Hd | set_solver].
        * intros x [Hx| ->%list_elem_of_singleton]%elem_of_app.
          -- destruct (Hc x Hx) as [? Hxu]. split; [|done].
             destruct (decide (rep = x)) as [->|Hrx].
             ++ by rewrite lookup_insert_eq.
             ++ by rewrite lookup_insert_ne.
          -- by rewrite lookup_insert_eq.
        * intros x Hx Hxp.
          rewrite lookup_insert_ne by (apply Hne, Hdisj, Hx).
          apply Hd; [done | set_solver].
        * etrans; [apply sublist_delete | done].
        * intros x Hx Hxu. rewrite lookup_insert_ne by (by apply Hne).
          by apply Hf.
      + split; [|split; [|split; [|split; [|split]]]].
        * intros x [Hx| ->%list_elem_of_singleton]%elem_of_app.
          -- destruct (Ha x Hx) as [? Hxu]. split; [|done].
             destruct (decide (y = x)) as [->|Hyx].
             ++ by rewrite lookup_insert_eq.
             ++ by rewrite lookup_insert_ne.
          -- rewrite lookup_insert_eq. split; [done | by apply Hdisj].
        * intros x Hx. destruct (Hb x Hx) as [? Hxp].
          rewrite lookup_insert_ne by (intros ->; done).
          split; [done | set_solver].
        * intros x Hx. destruct (Hc x Hx) as [? Hxu].
          rewrite lookup_insert_ne; [done|].
          intros ->. by apply (Hdisj x).
        * intros x Hx Hxp. rewrite lookup_insert_ne by set_solver.
          apply Hd; [done | set_solver].
        * done.
        * intros x Hx Hxu. rewrite lookup_insert_ne by (intros ->; done).
          by apply Hf. }
  split; [intros x Hx; by apply Ha|].
  split; [intros x Hx; by apply Hb|].
  split; [intros x Hx; by apply Hc|].
  split; [|done].
  intros x [Hx|Hx]%elem_of_app; [by apply Ha|].
  destruct (Hb x Hx) as [_ Hxl]. by apply Hdisj.
Qed.

End Buckets.

(** X18.  After a run of [compare] that returns, the two [replacement]
    buckets correspond position by position: the i-th hit of the new
    side's bucket carries the replacement identifier the mapping declares
    for the i-th hit of the old side's bucket, and the attribute-only
    comparison judges the two the same.  The two buckets have the same
    size. *)
Theorem replacement_buckets_paired (E : Collaborators) (self : CompareBLASTs)
    (h0 : Heap) (c : Compared) :
  compare E self h0 = Ok c →
  Forall2 (linked E (oldGeneIDs c))
          (old_replacement (old_hits c)) (new_replacement (new_hits c))
  ∧ length (old_replacement (old_hits c))
    = length (new_replacement (new_hits c)).
Proof.
  intros Hrun.
  apply compare_inv in Hrun
    as (genes & o & h1 & ls & genes' & date & rs
        & Hg & Hc & Hl & Hg' & Hd & Hr & ->).
  cbn [old_hits new_hits old_replacement new_replacement oldGeneIDs].
  assert (Forall2 (linked E genes) (l_old_replacement ls)
            (l_new_replacement ls)) as Hpaired.
  { eapply (link_loop_paired E genes (replaced o)); [| |exact Hl].
    - intros x Hx Hno.
      pose proof (classify_loop_spec E _ _ _ _ _ _ Hc) as (_ & Hrep & _).
      cbn [empty_oldOnly replaced] in Hrep. rewrite app_nil_l in Hrep.
      rewrite Hrep in Hx. apply list_elem_of_filter in Hx as [Hf _].
      by rewrite (fate_None_of_no_gi E genes x Hno) in Hf.
    - constructor. }
  split; [done|]. by eapply Forall2_length.
Qed.

Lemma replacement_buckets_paired_witness :
  length (old_replacement (old_hits Fixture.scenario_c))
  = length (new_replacement (new_hits Fixture.scenario_c)).
Proof.
  destruct (replacement_buckets_paired Fixture.env Fixture.scenario
              Fixture.fresh Fixture.scenario_c) as [_ Hlen].
  - vm_compute. reflexivity.
  - exact Hlen.
Defined.

(** X19.  After a run of [compare] that returns, on distinct objects,
    every hit of a result bucket has the status of that bucket: ['live']
    in [lost], ['suppressed'] in [suppressed], ['replaced'] in the old
    side's [replacement], ['replacement'] in the new side's [replacement],
    ['new'] in [new] and ['strange'] in [old]. *)
Theorem bucket_statuses (E : Collaborators) (self : CompareBLASTs)
    (h0 : Heap) (c : Compared) :
  compare E self h0 = Ok c →
  NoDup (input_old_hits self ++ input_new_hits self) →
  bucket_status (store c) "live" (old_lost (old_hits c))
  ∧ bucket_status (store c) "suppressed" (old_suppressed (old_hits c))
  ∧ bucket_status (store c) "replaced" (old_replacement (old_hits c))
  ∧ bucket_status (store c) "replacement" (new_replacement (new_hits c))
  ∧ bucket_status (store c) "new" (new_new (new_hits c))
  ∧ bucket_status (store c) "strange" (new_old (new_hits c)).
Proof.
  intros Hrun Hnd.
  apply compare_inv in Hrun
    as (genes & o & h1 & ls & genes' & date & rs
        & Hg & Hc & Hl & Hg' & Hd & Hr & ->).
  cbn [old_hits new_hits old_lost old_suppressed old_replacement
       new_replacement new_new new_old store].
  pose proof (partition_side_unknown_sublist E (input_old_hits self)
                (input_new_hits self)) as Hsubo.
  pose proof (partition_side_unknown_sublist E (input_new_hits self)
                (input_old_hits self)) as Hsubn.
  set (new_p := partition_side E (input_new_hits self) (input_old_hits self))
    in *.
  set (old_p := partition_side E (input_old_hits self) (input_new_hits self))
    in *.
  clearbody new_p old_p.
  apply NoDup_app in Hnd as (Hndo & Hdisj & Hndn).
  assert (NoDup (p_unknown old_p)) as Hndou
    by exact (sublist_NoDup _ _ Hndo Hsubo).
  assert (NoDup (p_unknown new_p)) as Hndnu
    by exact (sublist_NoDup _ _ Hndn Hsubn).
  assert (∀ x, x ∈ p_unknown old_p → x ∉ p_unknown new_p) as Hdisju.
  { intros x Hx Hx'.
    apply (Hdisj x); [exact (elem_of_sublist _ _ _ Hx Hsubo)|].
    exact (elem_of_sublist _ _ _ Hx' Hsubn). }
  pose proof (classify_loop_spec E _ _ _ _ _ _ Hc)
    as (Hlive & Hrep & Hsup & _ & _ & Hfate).
  cbn [empty_oldOnly live replaced suppressed] in Hlive, Hrep, Hsup.
  rewrite app_nil_l in Hlive, Hrep, Hsup.
  assert (∀ st x, x ∈ with_fate E genes st (p_unknown old_p) →
            x ∈ p_unknown old_p ∧ fate E genes x = Some st
            ∧ status h1 !! x = Some st) as Hwf.
  { intros st x [Hf Hx]%list_elem_of_filter. split; [done|]. split; [done|].
    destruct (Hfate x Hx) as [Hno|(st' & Hf' & _ & Hst)].
    - by rewrite (fate_None_of_no_gi E genes x Hno) in Hf.
    - congruence. }
  assert (NoDup (replaced o)) as H1.
  { rewrite Hrep. by apply NoDup_filter. }
  assert (∀ x, x ∈ replaced o → x ∉ l_unknown (init_link new_p o h1)) as H2.
  { intros x Hx. rewrite Hrep in Hx. apply Hwf in Hx as [Hx _].
    by apply Hdisju. }
  assert (∀ x, x ∈ replaced o →
            status (l_heap (init_link new_p o h1)) !! x = Some "replaced")
    as H3.
  { intros x Hx. rewrite Hrep in Hx. by apply Hwf in Hx as (_ & _ & Hx). }
  assert (∀ x, x ∈ l_lost (init_link new_p o h1) →
            status (l_heap (init_link new_p o h1)) !! x = Some "live"
            ∧ x ∉ l_unknown (init_link new_p o h1)) as H4.
  { intros x Hx. cbn [init_link l_lost] in Hx. rewrite Hlive in Hx.
    apply Hwf in Hx as (Hx & _ & Hst). split; [done | by apply Hdisju]. }
  destruct (link_loop_buckets E genes (replaced o) (init_link new_p o h1) ls
              H1 H2 H3 H4 eq_refl eq_refl Hl)
    as (Hblost & Hbold & Hbnew & Hside & Hkeep).
  cbn [init_link l_unknown l_heap] in Hside, Hkeep.
  pose proof (link_loop_perm E _ _ _ _ Hl) as (Hperm & _ & Hsubl).
  cbn [init_link l_unknown l_new_replacement] in Hperm, Hsubl.
  rewrite app_nil_r in Hperm.
  assert (NoDup (l_unknown ls ++ l_new_replacement ls)) as Hndl
    by (by rewrite Hperm).
  apply NoDup_app in Hndl as (_ & Hsplit & _).
  pose proof (recency_loop_spec E _ _ _ _ _ Hr)
    as (Hnew & Hold & _ & Hout & Hin).
  cbn [r_new r_old r_heap] in Hnew, Hold, Hout.
  rewrite app_nil_l in Hnew, Hold.
  assert (∀ x, x ∉ p_unknown new_p →
            status (r_heap rs) !! x = status (l_heap ls) !! x) as Hold_side.
  { intros x Hx. apply Hout. intros Hxl. apply Hx.
    exact (elem_of_sublist _ _ _ Hxl Hsubl). }
  split; [|split; [|split; [|split; [|split]]]].
  - intros x Hx. rewrite Hold_side; [by apply Hblost|].
    apply Hside. set_solver.
  - intros x Hx. rewrite Hsup in Hx. pose proof Hx as Hx'.
    apply Hwf in Hx as (Hxu & Hfx & Hst).
    assert (x ∉ p_unknown new_p) as Hxn by (by apply Hdisju).
    rewrite Hold_side by done. rewrite Hkeep; [done| |done].
    rewrite Hrep. intros Hxr. apply Hwf in Hxr as (_ & Hfx' & _). congruence.
  - intros x Hx. rewrite Hold_side; [by apply Hbold|].
    apply Hside. set_solver.
  - intros x Hx. rewrite Hout; [by apply Hbnew|].
    intros Hxl. by apply (Hsplit x).
  - intros x Hx. rewrite Hnew in Hx.
    apply list_elem_of_filter in Hx as [Hrec Hx].
    destruct (Hin x Hx) as (t & _ & ->). done.
  - intros x Hx. rewrite Hold in Hx.
    apply list_elem_of_filter in Hx as [Hrec Hx].
    destruct (Hin x Hx) as (t & _ & ->). done.
Qed.

Lemma bucket_statuses_witness :
  bucket_status (store Fixture.stale_c) "live"
    (old_lost (old_hits Fixture.stale_c))
  ∧ bucket_status (store Fixture.stale_c) "strange"
      (new_old (new_hits Fixture.stale_c)).
Proof.
  destruct (bucket_statuses Fixture.env Fixture.stale Fixture.fresh
              Fixture.stale_c) as (Hlost & _ & _ & _ & _ & Hold).
  - vm_compute. reflexivity.
  - apply (bool_decide_unpack _). vm_compute. exact I.
  - exact (conj Hlost Hold).
Defined.

(** ** The replacement linker within [compare] *)

Lemma for_each_returns {S A : Type} (body : A → S → result S) (l : list A)
    (s : S) :
  (∀ x s1, x ∈ l → ∃ s2, body x s1 = Ok s2) →
  ∃ s', for_each body l s = Ok s'.
Proof.
  revert s. induction l as [|x l IH]; intros s Hbody; [by eexists|].
  cbn [for_each]. destruct (Hbody x s) as [s2 ->]; [by left|].
  apply IH. intros y s1 Hy. apply Hbody. by right.
Qed.

Lemma elem_of_delete_other {A : Type} (l : list A) (i : nat) (r y : A) :
  l !! i = Some r → y ∈ l → y ≠ r → y ∈ delete i l.
Proof.
  intros Hlook Hin Hne.
  rewrite (elem_of_Permutation_proper _ _ _ (delete_Permutation _ _ _ Hlook))
    in Hin.
  by apply elem_of_cons in Hin as [->|Hin].
Qed.

Section LinkerRuns.

Context (E : Collaborators).

Lemma declared_replacement_is_Some genes (h : BlastHit) :
  canonical_id h ≠ None →
  Forall (λ i, is_gi i → is_Some (replaced_by genes i)) (ids h) →
  is_Some (declared_replacement genes h).
Proof.
  intros Hgi Hall. unfold declared_replacement.
  destruct (last (filter is_gi (ids h))) as [i|] eqn:Hlast.
  - apply last_Some in Hlast as [l' Hl'].
    assert (i ∈ filter is_gi (ids h)) as Hin by (rewrite Hl'; set_solver).
    apply list_elem_of_filter in Hin as [Hi Hin].
    rewrite Forall_forall in Hall. by apply Hall.
  - exfalso. apply Hgi. apply last_None in Hlast. unfold canonical_id.
    clear Hgi Hall. revert Hlast.
    induction (ids h) as [|i l IH]; [done|].
    rewrite filter_cons. cbn [find].
    destruct (decide (is_gi i)) as [Hi|Hi]; [done|].
    rewrite (bool_decide_eq_false_2 (db i = "gi")) by exact Hi. exact IH.
Qed.

(** A round of the loop of lines 101-121 raises only at line 104. *)
Lemma link_step_returns genes hit s :
  canonical_id (heap E hit) ≠ None →
  Forall (λ i, is_gi i → is_Some (replaced_by genes i)) (ids (heap E hit)) →
  ∃ s', link_step E genes hit s = Ok s'.
Proof.
  intros Hgi Hall.
  pose proof (bind_new_id_spec genes (ids (heap E hit)) (new_id s)) as Hspec.
  destruct (bind_new_id genes (ids (heap E hit)) (new_id s)) as [r|e]
    eqn:Hbind.
  2: { destruct Hspec as [_ Hex]. apply Exists_exists in Hex
         as (i & Hin & Hi & Hnone).
       rewrite Forall_forall in Hall.
       destruct (Hall i Hin Hi) as [v Hv]. congruence. }
  destruct (declared_replacement_is_Some genes _ Hgi Hall) as [v Hv].
  rewrite (bind_new_id_declared genes _ _ _ Hgi Hbind) in Hbind.
  rewrite Hv in Hbind.
  unfold link_step. rewrite Hbind. cbn [mbind result_bind].
  rewrite scan_unknown_list_find.
  destruct (list_find (qualifies E hit v) (l_unknown s)) as [[i rep]|]
    eqn:Hfind; cbn [fmap option_fmap option_map mbind result_bind];
    [|by eexists].
  apply list_find_Some in Hfind as (Hlook & _).
  unfold pop. rewrite Nat.add_0_l. cbn [fst]. rewrite Hlook.
  cbn [mbind result_bind]. by eexists.
Qed.

Lemma recency_step_returns genes' date hit s t :
  resolved_date E genes' hit = Ok t →
  ∃ s', recency_step E genes' date hit s = Ok s'.
Proof.
  unfold resolved_date, recency_step. intros Ht.
  destruct (list_get (ids (heap E hit)) 0) as [id0|]; [|done].
  cbn [mbind result_bind] in *.
  destruct (dict_get genes' (num id0)) as [rec|]; [|done].
  cbn [mbind result_bind] in *. rewrite Ht. cbn [mbind result_bind].
  destruct (tuple_ltb t date); by eexists.
Qed.

(** A hit for which no unmatched new hit qualifies goes to [lost]. *)
Lemma link_loop_stale genes l s s' hit v :
  for_each (link_step E genes) l s = Ok s' →
  canonical_id (heap E hit) ≠ None →
  declared_replacement genes (heap E hit) = Some v →
  (∀ hit2, hit2 ∈ l_unknown s → ¬ qualifies E hit v hit2) →
  hit ∈ l →
  hit ∉ l_old_replacement s →
  hit ∈ l_lost s' ∧ hit ∉ l_old_replacement s'.
Proof.
  intros Hrun Hgi Hv Hnone Hin Hinit.
  pose (P := λ (pre : list nat) (s1 : LinkState),
    l_unknown s1 `sublist_of` l_unknown s
    ∧ (hit ∈ pre → hit ∈ l_lost s1)
    ∧ hit ∉ l_old_replacement s1).
  assert (P l s') as (_ & Hlost & Hrep).
  { apply (for_each_invariant (link_step E genes) P l s s'); [| |done];
      subst P; cbv beta.
    - split; [done|]. split; [by intros ?%elem_of_nil | done].
    - intros pre x post s1 s2 Hl (Hsub & Hpre & Hold) Hstep.
      apply link_step_inv in Hstep as [Hbind Hstep].
      destruct Hstep as
        [(v' & i & rep & Hv' & Hfind & -> & _ & -> & -> & _)
        |(_ & -> & _ & -> & -> & _)].
      + apply list_find_Some in Hfind as (Hlook & Hq & _).
        assert (x ≠ hit) as Hx.
        { intros ->.
          rewrite (bind_new_id_declared genes _ _ _ Hgi Hbind) in Hv'.
          assert (v' = v) as -> by congruence.
          apply (Hnone rep); [|done].
          eapply elem_of_sublist; [|exact Hsub].
          by eapply list_elem_of_lookup_2. }
        split; [etrans; [apply sublist_delete | done]|].
        split; [|set_solver]. intros Hin'. apply Hpre. set_solver.
      + split; [done|]. split; [|done].
        intros [Hin'| ->%list_elem_of_singleton]%elem_of_app; set_solver. }
  split; [by apply Hlost | done].
Qed.

(** A hit of [lost] that the loop did not write to keeps its status. *)
Lemma link_loop_live genes l s s' hit :
  for_each (link_step E genes) l s = Ok s' →
  hit ∉ l_unknown s →
  (hit ∈ l_lost s → status (l_heap s) !! hit = Some "live") →
  hit ∈ l_lost s' →
  status (l_heap s') !! hit = Some "live".
Proof.
  intros Hrun Hunk Hinit.
  pose (P := λ (pre : list nat) (s1 : LinkState),
    l_unknown s1 `sublist_of` l_unknown s
    ∧ (hit ∈ l_lost s1 → status (l_heap s1) !! hit = Some "live")).
  assert (P l s') as (_ & Hlive); [|done].
  apply (for_each_invariant (link_step E genes) P l s s'); [| |done];
    subst P; cbv beta; [done|].
  intros pre x post s1 s2 Hl (Hsub & Hlive) Hstep.
  apply link_step_inv in Hstep as [_ Hstep].
  destruct Hstep as
    [(v' & i & rep & _ & Hfind & -> & _ & _ & -> & ->)
    |(_ & -> & _ & _ & -> & ->)]; simpl.
  - apply list_find_Some in Hfind as (Hlook & _).
    split; [etrans; [apply sublist_delete | done]|].
    intros Hin. rewrite lookup_insert_ne; [by apply Hlive|].
    intros ->. apply Hunk. eapply elem_of_sublist; [|exact Hsub].
    by eapply list_elem_of_lookup_2.
  - split; [done|].
    intros [Hin| ->%list_elem_of_singleton]%elem_of_app.
    + destruct (decide (x = hit)) as [->|Hx].
      * by rewrite lookup_insert_eq.
      * rewrite lookup_insert_ne by done. by apply Hlive.
    + by rewrite lookup_insert_eq.
Qed.

(** A hit is put in [lost] only when no hit left in [unknown] qualifies. *)
Lemma link_loop_lost_unconfirmed genes l s s' :
  for_each (link_step E genes) l s = Ok s' →
  (∀ x, x ∈ l → canonical_id (heap E x) ≠ None) →
  ∀ hit v hit2,
    hit ∈ l_lost s' → hit ∉ l_lost s →
    declared_replacement genes (heap E hit) = Some v →
    hit2 ∈ l_unknown s' →
    ¬ qualifies E hit v hit2.
Proof.
  intros Hrun Hgi.
  pose (P := λ (pre : list nat) (s1 : LinkState),
    ∀ hit v hit2,
      hit ∈ l_lost s1 → hit ∉ l_lost s →
      declared_replacement genes (heap E hit) = Some v →
      hit2 ∈ l_unknown s1 →
      ¬ qualifies E hit v hit2).
  apply (for_each_invariant (link_step E genes) P l s s'); [| |done];
    subst P; cbv beta; [by intros hit v hit2 ? ?|].
  intros pre x post s1 s2 Hl Hinv Hstep hit v hit2.
  assert (x ∈ l) as Hx by (rewrite Hl; set_solver).
  apply link_step_inv in Hstep as [Hbind Hstep].
  rewrite (bind_new_id_declared genes _ _ _ (Hgi x Hx) Hbind) in Hstep.
  destruct Hstep as
    [(v' & i & rep & _ & Hfind & -> & _ & _ & -> & _)
    |(Hnone & -> & _ & _ & -> & _)].
  - intros Hin Hnew Hv Hin2. apply (Hinv hit v hit2); try done.
    eapply elem_of_sublist; [exact Hin2 | apply sublist_delete].
  - intros [Hin| ->%list_elem_of_singleton]%elem_of_app Hnew Hv Hin2.
    + by apply (Hinv hit v hit2).
    + destruct Hnone as [Hnil|(v' & Hv' & Hfind)].
      * rewrite Hnil in Hin2. by apply elem_of_nil in Hin2.
      * assert (v' = v) as -> by congruence.
        apply list_find_None in Hfind. rewrite Forall_forall in Hfind.
        by apply Hfind.
Qed.

(** A hit with a qualifying unmatched new hit that no other pending hit
    can take is linked. *)
Lemma link_loop_found genes l s s' hit v hit2 :
  for_each (link_step E genes) l s = Ok s' →
  (∀ x, x ∈ l → canonical_id (heap E x) ≠ None) →
  hit ∈ l →
  declared_replacement genes (heap E hit) = Some v →
  hit2 ∈ l_unknown s →
  qualifies E hit v hit2 →
  (∀ o v', o ∈ l → o ≠ hit →
     declared_replacement genes (heap E o) = Some v' →
     ¬ qualifies E o v' hit2) →
  hit ∈ l_old_replacement s'.
Proof.
  intros Hrun Hgi Hin Hv Hin2 Hq Hfree.
  pose (P := λ (pre : list nat) (s1 : LinkState),
    (hit ∉ pre → hit2 ∈ l_unknown s1)
    ∧ (hit ∈ pre → hit ∈ l_old_replacement s1)).
  assert (P l s') as (_ & Hdone); [|by apply Hdone].
  apply (for_each_invariant (link_step E genes) P l s s'); [| |done];
    subst P; cbv beta.
  { split; [done | by intros ?%elem_of_nil]. }
  intros pre x post s1 s2 Hl (Hwait & Hdone) Hstep.
  assert (x ∈ l) as Hx by (rewrite Hl; set_solver).
  apply link_step_inv in Hstep as [Hbind Hstep].
  rewrite (bind_new_id_declared genes _ _ _ (Hgi x Hx) Hbind) in Hstep.
  destruct (decide (hit ∈ pre)) as [Hpre|Hpre].
  { split; [set_solver|]. intros _.
    destruct Hstep as
      [(v' & i & rep & _ & _ & _ & _ & -> & _)
      |(_ & _ & _ & -> & _)]; set_solver. }
  specialize (Hwait Hpre).
  destruct Hstep as
    [(v' & i & rep & Hv' & Hfind & -> & _ & -> & _)
    |(Hnone & -> & _ & -> & _)].
  - apply list_find_Some in Hfind as (Hlook & Hq' & _).
    destruct (decide (x = hit)) as [->|Hne]; [set_solver|].
    split; [|set_solver]. intros _.
    apply (elem_of_delete_other _ _ rep); [done | done|].
    intros ->. by apply (Hfree x v').
  - destruct (decide (x = hit)) as [->|Hne]; [|set_solver].
    exfalso. destruct Hnone as [Hnil|(v' & Hv' & Hfind)].
    + rewrite Hnil in Hwait. by apply elem_of_nil in Hwait.
    + assert (v' = v) as -> by congruence.
      apply list_find_None in Hfind. rewrite Forall_forall in Hfind.
      by apply (Hfind hit2).
Qed.

End LinkerRuns.

(** X20.  [compare] returns whenever the first call of the resolver
    returns, every unmatched old hit with a ['gi'] identifier has one of
    the three directory statuses, every ['gi'] identifier of an unmatched
    old hit of status ['replaced'] has a ['ReplacedBy'] entry, the dates of
    the old mapping give a baseline, and the resolver answers for whatever
    part of the unmatched new hits is left, with a creation date that can
    be read for each of them.  Whether the replacements are found among
    the new hits plays no part: a replacement that is not found raises
    nothing. *)
Theorem compare_returns (E : Collaborators) (self : CompareBLASTs)
    (h0 : Heap) (genes : gmap string DirectoryRecord) (date : struct_time) :
  get_idlist E (input_old_hits self) (email self) = Ok genes →
  Forall (λ hit, canonical_id (heap E hit) = None
                 ∨ known_fate (fate E genes hit))
         (p_unknown (partition_side E (input_old_hits self)
                       (input_new_hits self))) →
  Forall (λ hit, fate E genes hit = Some "replaced" →
                 Forall (λ i, is_gi i → is_Some (replaced_by genes i))
                        (ids (heap E hit)))
         (p_unknown (partition_side E (input_old_hits self)
                       (input_new_hits self))) →
  baseline E genes = Ok date →
  (∀ U, U `sublist_of` p_unknown (partition_side E (input_new_hits self)
                                    (input_old_hits self)) →
        ∃ genes', get_idlist E U (email self) = Ok genes'
                  ∧ Forall (λ x, ∃ t, resolved_date E genes' x = Ok t) U) →
  ∃ c, compare E self h0 = Ok c
       ∧ oldGeneIDs c = genes
       ∧ date_oldsearch c = date.
Proof.
  intros Hg Hfates Hrepl Hdate Hnew.
  rewrite compare_unfold. cbv zeta. rewrite Hg. cbn [mbind result_bind].
  set (new_p := partition_side E (input_new_hits self) (input_old_hits self))
    in *.
  set (old_p := partition_side E (input_old_hits self) (input_new_hits self))
    in *.
  clearbody new_p old_p.
  pose proof (classify_loop_outcome E genes (p_unknown old_p)
                (empty_oldOnly, h0)) as Hout.
  destruct (for_each (classify_old E genes) (p_unknown old_p)
              (empty_oldOnly, h0)) as [[o h1]|e] eqn:Hc.
  2: { destruct Hout as [_ Hex].
       apply Exists_exists in Hex as (x & Hx & Hgi & Hbad).
       rewrite Forall_forall in Hfates. by destruct (Hfates x Hx). }
  cbn [mbind result_bind fst snd].
  pose proof (classify_loop_spec E _ _ _ _ _ _ Hc) as (_ & Hrep & _).
  cbn [empty_oldOnly replaced] in Hrep. rewrite app_nil_l in Hrep.
  destruct (for_each_returns (link_step E genes) (replaced o)
              (init_link new_p o h1)) as [ls Hl].
  { intros x s1 Hx. rewrite Hrep in Hx.
    apply list_elem_of_filter in Hx as [Hf Hx].
    apply link_step_returns.
    - intros Hno. by rewrite (fate_None_of_no_gi E genes x Hno) in Hf.
    - rewrite Forall_forall in Hrepl. by apply Hrepl. }
  rewrite Hl. cbn [mbind result_bind].
  pose proof (link_loop_unknown_sublist E _ _ _ _ Hl) as Hsub.
  cbn [init_link l_unknown] in Hsub.
  destruct (Hnew _ Hsub) as (genes' & -> & Hdates).
  cbn [mbind result_bind]. rewrite Hdate. cbn [mbind result_bind].
  destruct (for_each_returns (recency_step E genes' date) (l_unknown ls)
              {| r_new := []; r_old := []; r_heap := l_heap ls |})
    as [rs ->].
  { intros x s1 Hx. rewrite Forall_forall in Hdates.
    destruct (Hdates x Hx) as [t Ht]. by eapply recency_step_returns. }
  cbn [mbind result_bind]. by eexists.
Qed.

Lemma compare_returns_witness :
  ∃ c, compare Fixture.env Fixture.stale_alone Fixture.fresh = Ok c
       ∧ date_oldsearch c = [2013; 7; 7; 0; 0; 0; 6; 188; -1]%Z.
Proof.
  destruct (compare_returns Fixture.env Fixture.stale_alone Fixture.fresh
              (oldGeneIDs Fixture.stale_alone_c)
              [2013; 7; 7; 0; 0; 0; 6; 188; -1]%Z)
    as (c & Hc & _ & Hdate).
  - vm_compute. reflexivity.
  - unfold known_fate. by apply (bool_decide_unpack _).
  - by apply (bool_decide_unpack _).
  - vm_compute. reflexivity.
  - intros U HU. apply sublist_nil_r in HU as ->.
    exists ∅. split; [vm_compute; reflexivity | constructor].
  - exists c. exact (conj Hc Hdate).
Defined.

(** X21.  After a run of [compare] that returns, an unmatched old hit of
    directory status ['replaced'] for which no unmatched new hit carries
    the replacement identifier the loop of lines 102-104 reads (the one
    declared for its last ['gi'] identifier) and passes the attribute-only
    comparison is in [lost] and not in [replacement], with status ['live']
    when the object is not a new hit as well.  Conversely, an unmatched old
    hit of status ['replaced'] is in [lost] only when no hit left in the
    new side's [unknown] bucket qualifies as its replacement. *)
Theorem stale_replacement_reclassified (E : Collaborators)
    (self : CompareBLASTs) (h0 : Heap) (c : Compared) (hit : nat)
    (v : string) :
  compare E self h0 = Ok c →
  hit ∈ old_unknown (old_hits c) →
  fate E (oldGeneIDs c) hit = Some "replaced" →
  declared_replacement (oldGeneIDs c) (heap E hit) = Some v →
  ((∀ hit2, hit2 ∈ p_unknown (partition_side E (input_new_hits self)
                                (input_old_hits self)) →
            ¬ qualifies E hit v hit2) →
   hit ∈ old_lost (old_hits c)
   ∧ (hit ∉ old_replacement (old_hits c))
   ∧ (hit ∉ input_new_hits self → status (store c) !! hit = Some "live"))
  ∧ (hit ∈ old_lost (old_hits c) →
     ∀ hit2, hit2 ∈ new_unknown (new_hits c) → ¬ qualifies E hit v hit2).
Proof.
  intros Hrun Hin Hfate Hv.
  apply compare_inv in Hrun
    as (genes & o & h1 & ls & genes' & date & rs
        & Hg & Hc & Hl & Hg' & Hd & Hr & ->).
  cbn [old_hits new_hits old_unknown old_lost old_replacement new_unknown
       store oldGeneIDs] in *.
  pose proof (partition_side_unknown_sublist E (input_new_hits self)
                (input_old_hits self)) as Hsubn.
  set (new_p := partition_side E (input_new_hits self) (input_old_hits self))
    in *.
  set (old_p := partition_side E (input_old_hits self) (input_new_hits self))
    in *.
  clearbody new_p old_p.
  pose proof (classify_loop_spec E _ _ _ _ _ _ Hc)
    as (Hlive & Hrep & _ & _ & _ & _).
  cbn [empty_oldOnly live replaced] in Hlive, Hrep.
  rewrite app_nil_l in Hlive, Hrep.
  assert (hit ∈ replaced o) as Hpending
    by (rewrite Hrep; by apply list_elem_of_filter).
  assert (hit ∉ live o) as Hnot_live.
  { rewrite Hlive. intros [Hf _]%list_elem_of_filter. congruence. }
  assert (∀ x, x ∈ replaced o → canonical_id (heap E x) ≠ None) as Hgi.
  { intros x Hx Hno. rewrite Hrep in Hx.
    apply list_elem_of_filter in Hx as [Hf _].
    by rewrite (fate_None_of_no_gi E genes x Hno) in Hf. }
  split.
  - intros Hnone.
    destruct (link_loop_stale E genes _ _ _ hit v Hl) as [Hlost Hnrep];
      [by apply Hgi | done | done | done | by intros ?%elem_of_nil |].
    split; [done|]. split; [done|]. intros Hnew.
    assert (hit ∉ p_unknown new_p) as Hunk.
    { intros Hx. apply Hnew. exact (elem_of_sublist _ _ _ Hx Hsubn). }
    destruct (recency_loop_untouched E _ _ _ _ _ hit Hr) as (-> & _).
    { intros Hx. apply Hunk.
      eapply elem_of_sublist; [exact Hx|].
      exact (link_loop_unknown_sublist E _ _ _ _ Hl). }
    by apply (link_loop_live E genes _ _ _ hit Hl).
  - intros Hlost hit2 Hin2.
    by apply (link_loop_lost_unconfirmed E genes _ _ _ Hl Hgi hit v hit2).
Qed.

Lemma stale_replacement_reclassified_witness :
  8 ∈ old_lost (old_hits Fixture.stale_c)
  ∧ status (store Fixture.stale_c) !! 8 = Some "live".
Proof.
  destruct (stale_replacement_reclassified Fixture.env Fixture.stale
              Fixture.fresh Fixture.stale_c 8 "501") as [Hstale _].
  - vm_compute. reflexivity.
  - by apply (bool_decide_unpack _).
  - vm_compute. reflexivity.
  - vm_compute. reflexivity.
  - destruct Hstale as (Hlost & _ & Hlive).
    + apply Forall_forall. by apply (bool_decide_unpack _).
    + split; [exact Hlost|]. apply Hlive. by apply (bool_decide_unpack _).
Defined.

(** X22.  After a run of [compare] that returns on lists without repeated
    objects, an unmatched old hit of directory status ['replaced'] is
    linked whenever some unmatched new hit carries the replacement
    identifier the loop of lines 102-104 reads for it, passes the
    attribute-only comparison, and qualifies for no other pending old hit:
    the old hit is in the old side's [replacement] bucket, at the position
    at which the new side's [replacement] bucket holds a new hit that
    qualifies for it; the old hit is in neither [lost] nor [suppressed],
    and the new hit, taken from the unmatched ones, is no longer in
    [unknown] and in neither [new] nor [old]. *)
Theorem replacement_linked (E : Collaborators) (self : CompareBLASTs)
    (h0 : Heap) (c : Compared) (hit : nat) (v : string) (hit2 : nat) :
  compare E self h0 = Ok c →
  NoDup (input_old_hits self) →
  NoDup (input_new_hits self) →
  hit ∈ old_unknown (old_hits c) →
  fate E (oldGeneIDs c) hit = Some "replaced" →
  declared_replacement (oldGeneIDs c) (heap E hit) = Some v →
  hit2 ∈ p_unknown (partition_side E (input_new_hits self)
                      (input_old_hits self)) →
  qualifies E hit v hit2 →
  (∀ o v', o ∈ old_unknown (old_hits c) → o ≠ hit →
     fate E (oldGeneIDs c) o = Some "replaced" →
     declared_replacement (oldGeneIDs c) (heap E o) = Some v' →
     ¬ qualifies E o v' hit2) →
  ∃ i rep,
    old_replacement (old_hits c) !! i = Some hit
    ∧ new_replacement (new_hits c) !! i = Some rep
    ∧ qualifies E hit v rep
    ∧ rep ∈ p_unknown (partition_side E (input_new_hits self)
                         (input_old_hits self))
    ∧ (hit ∉ old_lost (old_hits c))
    ∧ (hit ∉ old_suppressed (old_hits c))
    ∧ (rep ∉ new_unknown (new_hits c))
    ∧ (rep ∉ new_new (new_hits c))
    ∧ (rep ∉ new_old (new_hits c)).
Proof.
  intros Hrun Hndo Hndn Hin Hfate Hv Hin2 Hq Hfree.
  apply compare_inv in Hrun
    as (genes & o & h1 & ls & genes' & date & rs
        & Hg & Hc & Hl & Hg' & Hd & Hr & ->).
  cbn [old_hits new_hits old_unknown old_lost old_replacement old_suppressed
       new_unknown new_replacement new_new new_old store oldGeneIDs] in *.
  pose proof (partition_side_unknown_sublist E (input_old_hits self)
                (input_new_hits self)) as Hsubo.
  pose proof (partition_side_unknown_sublist E (input_new_hits self)
                (input_old_hits self)) as Hsubn.
  set (new_p := partition_side E (input_new_hits self) (input_old_hits self))
    in *.
  set (old_p := partition_side E (input_old_hits self) (input_new_hits self))
    in *.
  clearbody new_p old_p.
  assert (NoDup (p_unknown old_p)) as Hndou
    by exact (sublist_NoDup _ _ Hndo Hsubo).
  assert (NoDup (p_unknown new_p)) as Hndnu
    by exact (sublist_NoDup _ _ Hndn Hsubn).
  pose proof (classify_loop_spec E _ _ _ _ _ _ Hc)
    as (Hlive & Hrep & Hsup & _ & _ & _).
  cbn [empty_oldOnly live replaced suppressed] in Hlive, Hrep, Hsup.
  rewrite app_nil_l in Hlive, Hrep, Hsup.
  assert (hit ∈ replaced o) as Hpending
    by (rewrite Hrep; by apply list_elem_of_filter).
  assert (∀ x, x ∈ replaced o → canonical_id (heap E x) ≠ None) as Hgi.
  { intros x Hx Hno. rewrite Hrep in Hx.
    apply list_elem_of_filter in Hx as [Hf _].
    by rewrite (fate_None_of_no_gi E genes x Hno) in Hf. }
  assert (hit ∈ l_old_replacement ls) as Hlinked.
  { apply (link_loop_found E genes _ _ _ hit v hit2 Hl); try done.
    intros x v' Hx Hne Hv'. rewrite Hrep in Hx.
    apply list_elem_of_filter in Hx as [Hf Hx]. by apply (Hfree x v'). }
  assert (Forall2 (linked E genes) (l_old_replacement ls)
            (l_new_replacement ls)) as Hpaired.
  { eapply (link_loop_paired E genes (replaced o)); [exact Hgi | |exact Hl].
    constructor. }
  apply list_elem_of_lookup in Hlinked as [i Hi].
  destruct (Forall2_lookup_l _ _ _ _ _ Hpaired Hi)
    as (rep & Hirep & v0 & Hv0 & Hq0).
  assert (v0 = v) as -> by congruence.
  pose proof (link_loop_perm E _ _ _ _ Hl) as (Hpn & Hpo & _).
  cbn [init_link l_unknown l_new_replacement l_old_replacement l_lost]
    in Hpn, Hpo.
  rewrite app_nil_r in Hpn. rewrite app_nil_l in Hpo.
  assert (rep ∈ l_new_replacement ls) as Hrep_in
    by (by eapply list_elem_of_lookup_2).
  assert (rep ∉ l_unknown ls) as Hgone.
  { assert (NoDup (l_unknown ls ++ l_new_replacement ls)) as Hnd
      by (by rewrite Hpn).
    apply NoDup_app in Hnd as (_ & Hdisj & _).
    intros Hx. by apply (Hdisj rep). }
  pose proof (recency_loop_spec E _ _ _ _ _ Hr) as (Hnew & Hold & _).
  cbn [r_new r_old] in Hnew, Hold. rewrite app_nil_l in Hnew, Hold.
  exists i, rep. split; [done|]. split; [done|]. split; [done|].
  split; [rewrite <- Hpn; set_solver|].
  split.
  { assert (NoDup (l_lost ls ++ l_old_replacement ls)) as Hnd.
    { rewrite Hpo, Hlive, Hrep. apply NoDup_app.
      split; [by apply NoDup_filter|].
      split; [|by apply NoDup_filter].
      intros x [Hf1 _]%list_elem_of_filter [Hf2 _]%list_elem_of_filter.
      congruence. }
    apply NoDup_app in Hnd as (_ & Hdisj & _).
    intros Hx. apply (Hdisj hit Hx). by eapply list_elem_of_lookup_2. }
  split.
  { rewrite Hsup. intros [Hf _]%list_elem_of_filter. congruence. }
  split; [done|].
  split; [rewrite Hnew | rewrite Hold];
    by intros [_ ?]%list_elem_of_filter.
Qed.

Lemma replacement_linked_witness :
  ∃ i rep,
    old_replacement (old_hits Fixture.scenario_c) !! i = Some 1
    ∧ new_replacement (new_hits Fixture.scenario_c) !! i = Some rep
    ∧ rep ∉ new_unknown (new_hits Fixture.scenario_c).
Proof.
  destruct (replacement_linked Fixture.env Fixture.scenario Fixture.fresh
              Fixture.scenario_c 1 "201" 4)
    as (i & rep & Hold & Hnew & _ & _ & _ & _ & Hgone & _).
  - vm_compute. reflexivity.
  - by apply (bool_decide_unpack _).
  - by apply (bool_decide_unpack _).
  - by apply (bool_decide_unpack _).
  - vm_compute. reflexivity.
  - vm_compute. reflexivity.
  - by apply (bool_decide_unpack _).
  - by apply (bool_decide_unpack _).
  - intros o v' Ho Hne Hf _.
    apply (bool_decide_pack _) in Ho. revert Hf.
    destruct o as [|[|[|o]]]; [done|done| |done].
    vm_compute. discriminate.
  - exists i, rep. auto.
Defined.
